(** * PosixPermissions: the native ACL bridge (acl_native.c / acl_native.h)

    A shallow embedding of the native half of PosixPermissions: the three
    exported operations [OpenFileAndReadPermissionData], [ReadFileAclAndClose]
    and [SetFilePermissionDataAndAcl], the error channel
    ([store_errno], [GetLastErrnoValue]) and the clean-up routine
    [cleanup_with_error_code], running against an executable model of the
    POSIX calls they issue. *)

From Stdlib Require Import ZArith Lia String Ascii.
From stdpp Require Import base numbers gmap strings list.
Local Open Scope Z_scope.
#[local] Set Warnings "-clear-no-such-hyp".

(** ** C integers *)

(** C's [|] and [&] on integers. *)
Infix ".|" := Z.lor (at level 50, left associativity).
Infix ".&" := Z.land (at level 40, left associativity).

(** An integer used as a condition: non-zero is true. *)
Definition truthy (z : Z) : bool := negb (z =? 0).

(** Conversions between the 32-bit signed fields of the interop structs
    ([int32_t]) and the unsigned 32-bit platform types ([uid_t], [gid_t],
    [id_t], [mode_t]). *)
Definition to_uint32 (z : Z) : Z := z mod 2 ^ 32.
Definition to_int32 (z : Z) : Z := (z + 2 ^ 31) mod 2 ^ 32 - 2 ^ 31.

(** ** acl_native.h *)

(** [native_file_permission_t] *)
Definition FILE_PERMISSION_NONE : Z := 0.
Definition FILE_PERMISSION_EXECUTE : Z := 1.
Definition FILE_PERMISSION_WRITE : Z := 2.
Definition FILE_PERMISSION_READ : Z := 4.
Definition FILE_PERMISSION_SETID : Z := 8.
Definition FILE_PERMISSION_STICKY : Z := 16.

(** [native_acl_entry_tag_type_t] *)
Definition ACL_ENTRY_TAG_TYPE_USER_OBJ : Z := 1.
Definition ACL_ENTRY_TAG_TYPE_USER : Z := 2.
Definition ACL_ENTRY_TAG_TYPE_GROUP_OBJ : Z := 3.
Definition ACL_ENTRY_TAG_TYPE_GROUP : Z := 4.
Definition ACL_ENTRY_TAG_TYPE_MASK : Z := 5.
Definition ACL_ENTRY_TAG_TYPE_OTHER : Z := 6.

(** [native_acl_entry_t] *)
Record native_acl_entry_t := {
  tagType : Z;
  tagQualifier : Z;
  permissions : Z
}.

(** [native_permission_data_container_t] *)
Record native_permission_data_container_t := {
  ownerId : Z;
  ownerPermissions : Z;
  groupId : Z;
  groupPermissions : Z;
  otherPermissions : Z;
  aclSize : Z
}.

(** [native_error_code_t] *)
Inductive native_error_code_t :=
| NATIVE_ERROR_SUCCESS
| NATIVE_ERROR_OPEN_FAILED
| NATIVE_ERROR_FSTAT_FAILED
| NATIVE_ERROR_GET_ACL_FAILED
| NATIVE_ERROR_GET_ACL_ENTRY_FAILED
| NATIVE_ERROR_GET_ACL_ENTRY_TAG_TYPE_FAILED
| NATIVE_ERROR_GET_ACL_ENTRY_QUALIFIER_FAILED
| NATIVE_ERROR_GET_ACL_ENTRY_PERMSET_FAILED
| NATIVE_ERROR_GET_ACL_ENTRY_PERM_FAILED
| NATIVE_ERROR_CHOWN_FAILED
| NATIVE_ERROR_CHMOD_FAILED
| NATIVE_ERROR_INIT_ACL_FAILED
| NATIVE_ERROR_CREATE_ACL_ENTRY_FAILED
| NATIVE_ERROR_INVALID_TAG_TYPE
| NATIVE_ERROR_SET_ACL_ENTRY_TAG_TYPE_FAILED
| NATIVE_ERROR_SET_ACL_ENTRY_QUALIFIER_FAILED
| NATIVE_ERROR_CLEAR_ACL_ENTRY_PERMS_FAILED
| NATIVE_ERROR_ADD_ACL_ENTRY_PERM_FAILED
| NATIVE_ERROR_VALIDATE_ACL_FAILED
| NATIVE_ERROR_SET_ACL_FAILED.

(** The numeric value of each enumerator, as the header assigns it. *)
Definition error_number (e : native_error_code_t) : Z :=
  match e with
  | NATIVE_ERROR_SUCCESS => 0
  | NATIVE_ERROR_OPEN_FAILED => 1
  | NATIVE_ERROR_FSTAT_FAILED => 2
  | NATIVE_ERROR_GET_ACL_FAILED => 3
  | NATIVE_ERROR_GET_ACL_ENTRY_FAILED => 4
  | NATIVE_ERROR_GET_ACL_ENTRY_TAG_TYPE_FAILED => 5
  | NATIVE_ERROR_GET_ACL_ENTRY_QUALIFIER_FAILED => 6
  | NATIVE_ERROR_GET_ACL_ENTRY_PERMSET_FAILED => 7
  | NATIVE_ERROR_GET_ACL_ENTRY_PERM_FAILED => 8
  | NATIVE_ERROR_CHOWN_FAILED => 9
  | NATIVE_ERROR_CHMOD_FAILED => 10
  | NATIVE_ERROR_INIT_ACL_FAILED => 11
  | NATIVE_ERROR_CREATE_ACL_ENTRY_FAILED => 12
  | NATIVE_ERROR_INVALID_TAG_TYPE => 13
  | NATIVE_ERROR_SET_ACL_ENTRY_TAG_TYPE_FAILED => 14
  | NATIVE_ERROR_SET_ACL_ENTRY_QUALIFIER_FAILED => 15
  | NATIVE_ERROR_CLEAR_ACL_ENTRY_PERMS_FAILED => 16
  | NATIVE_ERROR_ADD_ACL_ENTRY_PERM_FAILED => 17
  | NATIVE_ERROR_VALIDATE_ACL_FAILED => 18
  | NATIVE_ERROR_SET_ACL_FAILED => 19
  end.

#[global] Instance native_error_code_eq_dec : EqDecision native_error_code_t.
Proof. solve_decision. Defined.

(** ** Platform constants (sys/stat.h, fcntl.h, sys/acl.h, errno.h) *)

Definition S_ISUID : Z := 0x800 (* 04000 *).
Definition S_ISGID : Z := 0x400 (* 02000 *).
Definition S_ISVTX : Z := 0x200 (* 01000 *).
Definition S_IRUSR : Z := 0x100 (* 0400 *).
Definition S_IWUSR : Z := 0x80 (* 0200 *).
Definition S_IXUSR : Z := 0x40 (* 0100 *).
Definition S_IRGRP : Z := 0x20 (* 040 *).
Definition S_IWGRP : Z := 0x10 (* 020 *).
Definition S_IXGRP : Z := 0x8 (* 010 *).
Definition S_IROTH : Z := 0x4 (* 04 *).
Definition S_IWOTH : Z := 0x2 (* 02 *).
Definition S_IXOTH : Z := 0x1 (* 01 *).
Definition S_IFMT : Z := 0xf000 (* 0170000 *).
Definition S_IFDIR : Z := 0x4000 (* 040000 *).
Definition S_IFREG : Z := 0x8000 (* 0100000 *).
(** The twelve permission bits of a mode: what [fchmod] takes. *)
Definition ALLPERMS : Z := 0xfff (* 07777 *).

Definition O_RDONLY : Z := 0.

Definition ACL_TYPE_ACCESS : Z := 0x8000.
Definition ACL_TYPE_DEFAULT : Z := 0x4000.
Definition ACL_FIRST_ENTRY : Z := 0.
Definition ACL_NEXT_ENTRY : Z := 1.
Definition ACL_UNDEFINED_TAG : Z := 0x00.
Definition ACL_USER_OBJ : Z := 0x01.
Definition ACL_USER : Z := 0x02.
Definition ACL_GROUP_OBJ : Z := 0x04.
Definition ACL_GROUP : Z := 0x08.
Definition ACL_MASK : Z := 0x10.
Definition ACL_OTHER : Z := 0x20.
Definition ACL_READ : Z := 0x04.
Definition ACL_WRITE : Z := 0x02.
Definition ACL_EXECUTE : Z := 0x01.
Definition ACL_UNDEFINED_ID : Z := 2 ^ 32 - 1.

Definition EPERM : Z := 1.
Definition ENOENT : Z := 2.
Definition EBADF : Z := 9.
Definition ENOMEM : Z := 12.
Definition EACCES : Z := 13.
Definition EINVAL : Z := 22.
Definition EMFILE : Z := 24.

(** ** The permission codec *)

(** The three expressions of [OpenFileAndReadPermissionData] that fill
    [ownerPermissions], [groupPermissions] and [otherPermissions] from
    [fileStat.st_mode]. *)
Definition decodeOwner (st_mode : Z) : Z :=
  (if truthy (st_mode .& S_IRUSR) then FILE_PERMISSION_READ else FILE_PERMISSION_NONE)
  .| (if truthy (st_mode .& S_IWUSR) then FILE_PERMISSION_WRITE else FILE_PERMISSION_NONE)
  .| (if truthy (st_mode .& S_IXUSR) then FILE_PERMISSION_EXECUTE else FILE_PERMISSION_NONE)
  .| (if truthy (st_mode .& S_ISUID) then FILE_PERMISSION_SETID else FILE_PERMISSION_NONE)
  .| (if truthy (st_mode .& S_ISVTX) then FILE_PERMISSION_STICKY else FILE_PERMISSION_NONE).

Definition decodeGroup (st_mode : Z) : Z :=
  (if truthy (st_mode .& S_IRGRP) then FILE_PERMISSION_READ else FILE_PERMISSION_NONE)
  .| (if truthy (st_mode .& S_IWGRP) then FILE_PERMISSION_WRITE else FILE_PERMISSION_NONE)
  .| (if truthy (st_mode .& S_IXGRP) then FILE_PERMISSION_EXECUTE else FILE_PERMISSION_NONE)
  .| (if truthy (st_mode .& S_ISGID) then FILE_PERMISSION_SETID else FILE_PERMISSION_NONE).

Definition decodeOther (st_mode : Z) : Z :=
  (if truthy (st_mode .& S_IROTH) then FILE_PERMISSION_READ else FILE_PERMISSION_NONE)
  .| (if truthy (st_mode .& S_IWOTH) then FILE_PERMISSION_WRITE else FILE_PERMISSION_NONE)
  .| (if truthy (st_mode .& S_IXOTH) then FILE_PERMISSION_EXECUTE else FILE_PERMISSION_NONE).

Definition decodeMode (st_mode : Z) : Z * Z * Z :=
  (decodeOwner st_mode, decodeGroup st_mode, decodeOther st_mode).

(** The expression of [SetFilePermissionDataAndAcl] that builds [chmodBits]. *)
Definition encodeMode (ownerPermissions groupPermissions otherPermissions : Z) : Z :=
  (if truthy (ownerPermissions .& FILE_PERMISSION_READ) then S_IRUSR else 0)
  .| (if truthy (ownerPermissions .& FILE_PERMISSION_WRITE) then S_IWUSR else 0)
  .| (if truthy (ownerPermissions .& FILE_PERMISSION_EXECUTE) then S_IXUSR else 0)
  .| (if truthy (ownerPermissions .& FILE_PERMISSION_SETID) then S_ISUID else 0)
  .| (if truthy (ownerPermissions .& FILE_PERMISSION_STICKY) then S_ISVTX else 0)
  .| (if truthy (groupPermissions .& FILE_PERMISSION_READ) then S_IRGRP else 0)
  .| (if truthy (groupPermissions .& FILE_PERMISSION_WRITE) then S_IWGRP else 0)
  .| (if truthy (groupPermissions .& FILE_PERMISSION_EXECUTE) then S_IXGRP else 0)
  .| (if truthy (groupPermissions .& FILE_PERMISSION_SETID) then S_ISGID else 0)
  .| (if truthy (otherPermissions .& FILE_PERMISSION_READ) then S_IROTH else 0)
  .| (if truthy (otherPermissions .& FILE_PERMISSION_WRITE) then S_IWOTH else 0)
  .| (if truthy (otherPermissions .& FILE_PERMISSION_EXECUTE) then S_IXOTH else 0).

(** The bits each principal class can represent. *)
Definition OWNER_BITS : Z :=
  FILE_PERMISSION_READ .| FILE_PERMISSION_WRITE .| FILE_PERMISSION_EXECUTE
  .| FILE_PERMISSION_SETID .| FILE_PERMISSION_STICKY.
Definition GROUP_BITS : Z :=
  FILE_PERMISSION_READ .| FILE_PERMISSION_WRITE .| FILE_PERMISSION_EXECUTE
  .| FILE_PERMISSION_SETID.
Definition OTHER_BITS : Z :=
  FILE_PERMISSION_READ .| FILE_PERMISSION_WRITE .| FILE_PERMISSION_EXECUTE.

Definition restricted (mask p : Z) : Prop := p .& mask = p.

(** ** The platform: files, descriptors, ACL working storage, errno

    The calls the bridge issues ([open], [fstat], [fchown], [fchmod],
    [close] and the acl_* family of libacl) act on a [world].  Every call
    that can fail first consults [faults]: [Some e] makes this call fail
    with [errno = e] whatever its arguments (a permission denied, an I/O
    error, memory exhaustion); otherwise the call fails only for the reasons
    visible in the world (no such file, bad descriptor, bad handle).

    [xsi_strerror_r] says which [strerror_r] the build has reached.
    acl_native.c includes no header that declares the function, so the
    choice is the platform's: the XSI function stores the message in the
    caller's buffer; the GNU function, which glibc has under that name,
    returns a pointer to the message and stores it in the buffer only for
    an error number it has no message for. *)

(** One entry of a platform ACL: tag, qualifier ([id_t]) and permission bits. *)
Record acl_ent := { a_tag : Z; a_id : Z; a_perm : Z }.

Record inode := {
  i_mode : Z;
  i_uid : Z;
  i_gid : Z;
  i_access : list acl_ent;
  i_default : list acl_ent
}.

(** What [fstat] fills in ([struct stat], the members the bridge reads). *)
Record stat := { st_mode : Z; st_uid : Z; st_gid : Z }.

(** Objects in libacl's working storage: an ACL with its cursor (the index
    of the entry [ACL_NEXT_ENTRY] hands out next), or the copy of a
    qualifier that [acl_get_qualifier] allocates. *)
Inductive object :=
| AclObj (ents : list acl_ent) (cur : nat)
| QualObj (id : Z).

(** [acl_entry_t] and [acl_permset_t]: the ACL and the index of the entry. *)
Definition acl_entry_t : Type := Z * nat.
Definition acl_permset_t : Type := Z * nat.
Definition NULL : Z := 0.

Record world := {
  fs : gmap string inode;
  fdt : gmap Z string;
  heap : gmap Z object;
  errno : Z;
  faults : list (option Z);
  fd_limit : nat;
  heap_limit : nat;
  xsi_strerror_r : bool
}.

Definition set_fs (x : gmap string inode) (w : world) : world :=
  {| fs := x; fdt := fdt w; heap := heap w; errno := errno w;
     faults := faults w; fd_limit := fd_limit w; heap_limit := heap_limit w;
     xsi_strerror_r := xsi_strerror_r w |}.
Definition set_fdt (x : gmap Z string) (w : world) : world :=
  {| fs := fs w; fdt := x; heap := heap w; errno := errno w;
     faults := faults w; fd_limit := fd_limit w; heap_limit := heap_limit w;
     xsi_strerror_r := xsi_strerror_r w |}.
Definition set_heap (x : gmap Z object) (w : world) : world :=
  {| fs := fs w; fdt := fdt w; heap := x; errno := errno w;
     faults := faults w; fd_limit := fd_limit w; heap_limit := heap_limit w;
     xsi_strerror_r := xsi_strerror_r w |}.
Definition set_errno (x : Z) (w : world) : world :=
  {| fs := fs w; fdt := fdt w; heap := heap w; errno := x;
     faults := faults w; fd_limit := fd_limit w; heap_limit := heap_limit w;
     xsi_strerror_r := xsi_strerror_r w |}.
Definition set_faults (x : list (option Z)) (w : world) : world :=
  {| fs := fs w; fdt := fdt w; heap := heap w; errno := errno w;
     faults := x; fd_limit := fd_limit w; heap_limit := heap_limit w;
     xsi_strerror_r := xsi_strerror_r w |}.

(** A failing call: the failure value, and errno set. *)
Definition fail_with {R : Type} (r : R) (e : Z) (w : world) : R * world :=
  (r, set_errno e w).

(** A call that can fail for reasons outside the world's tables. *)
Definition fallible {R : Type} (failed : R) (normal : world -> R * world)
    (w : world) : R * world :=
  match faults w with
  | [] => normal w
  | Some e :: rest => fail_with failed e (set_faults rest w)
  | None :: rest => normal (set_faults rest w)
  end.

(** The lowest free key among [k, k+1, ..., k+n-1]. *)
Fixpoint first_free {A : Type} (tbl : gmap Z A) (k : Z) (n : nat) : option Z :=
  match n with
  | O => None
  | S n' =>
      match tbl !! k with
      | None => Some k
      | Some _ => first_free tbl (k + 1) n'
      end
  end.

Definition inode_of_fd (w : world) (fd : Z) : option (string * inode) :=
  match fdt w !! fd with
  | Some path =>
      match fs w !! path with
      | Some ino => Some (path, ino)
      | None => None
      end
  | None => None
  end.

Definition acl_of (w : world) (acl : Z) : option (list acl_ent * nat) :=
  match heap w !! acl with
  | Some (AclObj ents cur) => Some (ents, cur)
  | _ => None
  end.

Definition entry_at (w : world) (e : acl_entry_t) : option acl_ent :=
  match acl_of w (fst e) with
  | Some (ents, _) => ents !! snd e
  | None => None
  end.

Definition update_entry (f : acl_ent -> acl_ent) (e : acl_entry_t) (w : world) : world :=
  match acl_of w (fst e) with
  | Some (ents, cur) =>
      set_heap (<[fst e := AclObj (alter f (snd e) ents) cur]> (heap w)) w
  | None => w
  end.

Definition null_entry : acl_entry_t := (NULL, 0%nat).
Definition null_stat : stat := {| st_mode := 0; st_uid := 0; st_gid := 0 |}.

Definition os_open (path : string) (flags : Z) : world -> Z * world :=
  fallible (-1) (fun w =>
    match fs w !! path with
    | None => fail_with (-1) ENOENT w
    | Some _ =>
        match first_free (fdt w) 0 (fd_limit w) with
        | None => fail_with (-1) EMFILE w
        | Some fd => (fd, set_fdt (<[fd := path]> (fdt w)) w)
        end
    end).

Definition os_close (fd : Z) (w : world) : Z * world :=
  match fdt w !! fd with
  | Some _ => (0, set_fdt (delete fd (fdt w)) w)
  | None => fail_with (-1) EBADF w
  end.

Definition os_fstat (fd : Z) : world -> (Z * stat) * world :=
  fallible (-1, null_stat) (fun w =>
    match inode_of_fd w fd with
    | None => fail_with (-1, null_stat) EBADF w
    | Some (_, ino) =>
        ((0, {| st_mode := i_mode ino; st_uid := i_uid ino; st_gid := i_gid ino |}), w)
    end).

(** An id of [(uid_t)-1] leaves that id unchanged. *)
Definition chown_id (old new : Z) : Z :=
  if new =? 2 ^ 32 - 1 then old else new.

Definition os_fchown (fd owner group : Z) : world -> Z * world :=
  fallible (-1) (fun w =>
    match inode_of_fd w fd with
    | None => fail_with (-1) EBADF w
    | Some (path, ino) =>
        (0, set_fs (<[path := {| i_mode := i_mode ino;
                                 i_uid := chown_id (i_uid ino) owner;
                                 i_gid := chown_id (i_gid ino) group;
                                 i_access := i_access ino;
                                 i_default := i_default ino |}]> (fs w)) w)
    end).

Definition os_fchmod (fd mode : Z) : world -> Z * world :=
  fallible (-1) (fun w =>
    match inode_of_fd w fd with
    | None => fail_with (-1) EBADF w
    | Some (path, ino) =>
        (0, set_fs (<[path := {| i_mode := (i_mode ino .& S_IFMT) .| (mode .& ALLPERMS);
                                 i_uid := i_uid ino;
                                 i_gid := i_gid ino;
                                 i_access := i_access ino;
                                 i_default := i_default ino |}]> (fs w)) w)
    end).

(** Allocation in libacl's working storage: a free non-null address. *)
Definition alloc (o : object) (w : world) : Z * world :=
  match first_free (heap w) 1 (heap_limit w) with
  | None => fail_with NULL ENOMEM w
  | Some p => (p, set_heap (<[p := o]> (heap w)) w)
  end.

Definition os_acl_free (p : Z) (w : world) : Z * world :=
  match heap w !! p with
  | Some _ => (0, set_heap (delete p (heap w)) w)
  | None => fail_with (-1) EINVAL w
  end.

(** [acl_get_fd(fd, type)], as acl_native.c calls it: the ACL of the given
    type of the open file.  (POSIX.1e has [acl_get_fd(fd)] for the access
    ACL and takes a type in [acl_get_file] only; the call is modelled with
    the two arguments it is written with.) *)
Definition os_acl_get_fd (fd type : Z) : world -> Z * world :=
  fallible NULL (fun w =>
    match inode_of_fd w fd with
    | None => fail_with NULL EBADF w
    | Some (_, ino) =>
        if type =? ACL_TYPE_ACCESS then alloc (AclObj (i_access ino) 0) w
        else if type =? ACL_TYPE_DEFAULT then
          if i_mode ino .& S_IFMT =? S_IFDIR then alloc (AclObj (i_default ino) 0) w
          else fail_with NULL EACCES w
        else fail_with NULL EINVAL w
    end).

Definition os_acl_get_entry (acl which : Z) : world -> (Z * acl_entry_t) * world :=
  fallible (-1, null_entry) (fun w =>
    match acl_of w acl with
    | None => fail_with (-1, null_entry) EINVAL w
    | Some (ents, cur) =>
        if (which =? ACL_FIRST_ENTRY) || (which =? ACL_NEXT_ENTRY) then
          let pos := if which =? ACL_FIRST_ENTRY then 0%nat else cur in
          if (pos <? length ents)%nat
          then ((1, (acl, pos)), set_heap (<[acl := AclObj ents (S pos)]> (heap w)) w)
          else ((0, null_entry), w)
        else fail_with (-1, null_entry) EINVAL w
    end).

Definition os_acl_get_tag_type (e : acl_entry_t) : world -> (Z * Z) * world :=
  fallible (-1, ACL_UNDEFINED_TAG) (fun w =>
    match entry_at w e with
    | None => fail_with (-1, ACL_UNDEFINED_TAG) EINVAL w
    | Some x => ((0, a_tag x), w)
    end).

Definition os_acl_get_qualifier (e : acl_entry_t) : world -> Z * world :=
  fallible NULL (fun w =>
    match entry_at w e with
    | None => fail_with NULL EINVAL w
    | Some x =>
        if (a_tag x =? ACL_USER) || (a_tag x =? ACL_GROUP)
        then alloc (QualObj (a_id x)) w
        else fail_with NULL EINVAL w
    end).

(** Reading an [int32_t] through a pointer that [acl_get_qualifier] returned. *)
Definition load_int32 (p : Z) (w : world) : Z :=
  match heap w !! p with
  | Some (QualObj id) => to_int32 id
  | _ => 0
  end.

Definition os_acl_get_permset (e : acl_entry_t) : world -> (Z * acl_permset_t) * world :=
  fallible (-1, null_entry) (fun w =>
    match entry_at w e with
    | None => fail_with (-1, null_entry) EINVAL w
    | Some _ => ((0, e), w)
    end).

Definition valid_perm (perm : Z) : bool :=
  (perm =? ACL_READ) || (perm =? ACL_WRITE) || (perm =? ACL_EXECUTE).

Definition os_acl_get_perm (permset : acl_permset_t) (perm : Z) : world -> Z * world :=
  fallible (-1) (fun w =>
    match entry_at w permset with
    | None => fail_with (-1) EINVAL w
    | Some x =>
        if valid_perm perm
        then ((if truthy (a_perm x .& perm) then 1 else 0), w)
        else fail_with (-1) EINVAL w
    end).

Definition os_acl_init (count : Z) : world -> Z * world :=
  fallible NULL (fun w =>
    if count <? 0 then fail_with NULL EINVAL w
    else alloc (AclObj [] 0) w).

Definition fresh_ent : acl_ent :=
  {| a_tag := ACL_UNDEFINED_TAG; a_id := ACL_UNDEFINED_ID; a_perm := 0 |}.

(** [acl_create_entry(&acl, &entry)]: status, the (possibly relocated) ACL
    pointer written back through its first argument, and the new entry. *)
Definition os_acl_create_entry (acl : Z) : world -> (Z * Z * acl_entry_t) * world :=
  fallible (-1, acl, null_entry) (fun w =>
    match acl_of w acl with
    | None => fail_with (-1, acl, null_entry) EINVAL w
    | Some (ents, cur) =>
        ((0, acl, (acl, length ents)),
         set_heap (<[acl := AclObj (ents ++ [fresh_ent]) cur]> (heap w)) w)
    end).

Definition valid_tag (tag : Z) : bool :=
  (tag =? ACL_USER_OBJ) || (tag =? ACL_USER) || (tag =? ACL_GROUP_OBJ)
  || (tag =? ACL_GROUP) || (tag =? ACL_MASK) || (tag =? ACL_OTHER).

Definition os_acl_set_tag_type (e : acl_entry_t) (tag : Z) : world -> Z * world :=
  fallible (-1) (fun w =>
    match entry_at w e with
    | None => fail_with (-1) EINVAL w
    | Some _ =>
        if valid_tag tag
        then (0, update_entry (fun x => {| a_tag := tag; a_id := a_id x; a_perm := a_perm x |}) e w)
        else fail_with (-1) EINVAL w
    end).

Definition os_acl_set_qualifier (e : acl_entry_t) (id : Z) : world -> Z * world :=
  fallible (-1) (fun w =>
    match entry_at w e with
    | None => fail_with (-1) EINVAL w
    | Some x =>
        if (a_tag x =? ACL_USER) || (a_tag x =? ACL_GROUP)
        then (0, update_entry (fun x => {| a_tag := a_tag x; a_id := id; a_perm := a_perm x |}) e w)
        else fail_with (-1) EINVAL w
    end).

Definition os_acl_clear_perms (permset : acl_permset_t) : world -> Z * world :=
  fallible (-1) (fun w =>
    match entry_at w permset with
    | None => fail_with (-1) EINVAL w
    | Some _ =>
        (0, update_entry (fun x => {| a_tag := a_tag x; a_id := a_id x; a_perm := 0 |}) permset w)
    end).

Definition os_acl_add_perm (permset : acl_permset_t) (perm : Z) : world -> Z * world :=
  fallible (-1) (fun w =>
    match entry_at w permset with
    | None => fail_with (-1) EINVAL w
    | Some _ =>
        if valid_perm perm
        then (0, update_entry (fun x => {| a_tag := a_tag x; a_id := a_id x;
                                            a_perm := a_perm x .| perm |}) permset w)
        else fail_with (-1) EINVAL w
    end).

(** The platform's validity rules for an ACL (POSIX 1003.1e, 23.4.28):
    exactly one entry each for the owner, the owning group and others;
    only defined tags; a mask if (and at most one, in any case) there are
    named users or groups; no two entries for the same user or group. *)
Definition count_tag (tag : Z) (ents : list acl_ent) : nat :=
  length (filter (fun x => a_tag x = tag) ents).

Definition qualifiers_of (tag : Z) (ents : list acl_ent) : list Z :=
  a_id <$> filter (fun x => a_tag x = tag) ents.

Definition acl_check (ents : list acl_ent) : bool :=
  forallb (fun x => valid_tag (a_tag x)) ents
  && (count_tag ACL_USER_OBJ ents =? 1)%nat
  && (count_tag ACL_GROUP_OBJ ents =? 1)%nat
  && (count_tag ACL_OTHER ents =? 1)%nat
  && (if ((count_tag ACL_USER ents =? 0) && (count_tag ACL_GROUP ents =? 0))%nat
      then (count_tag ACL_MASK ents <=? 1)%nat
      else (count_tag ACL_MASK ents =? 1)%nat)
  && bool_decide (NoDup (qualifiers_of ACL_USER ents))
  && bool_decide (NoDup (qualifiers_of ACL_GROUP ents)).

Definition os_acl_valid (acl : Z) : world -> Z * world :=
  fallible (-1) (fun w =>
    match acl_of w acl with
    | None => fail_with (-1) EINVAL w
    | Some (ents, _) =>
        if acl_check ents then (0, w) else fail_with (-1) EINVAL w
    end).

Definition os_acl_set_fd (fd acl : Z) : world -> Z * world :=
  fallible (-1) (fun w =>
    match inode_of_fd w fd with
    | None => fail_with (-1) EBADF w
    | Some (path, ino) =>
        match acl_of w acl with
        | None => fail_with (-1) EINVAL w
        | Some (ents, _) =>
            if acl_check ents
            then (0, set_fs (<[path := {| i_mode := i_mode ino;
                                          i_uid := i_uid ino;
                                          i_gid := i_gid ino;
                                          i_access := ents;
                                          i_default := i_default ino |}]> (fs w)) w)
            else fail_with (-1) EINVAL w
        end
    end).

(** [strerror_r(errnum, buf, buflen)]: the platform's message for the error
    number, cut to what fits in the buffer with its terminator. *)
Definition strerror (errnum : Z) : string :=
  if errnum =? 0 then "Success"
  else if errnum =? EPERM then "Operation not permitted"
  else if errnum =? ENOENT then "No such file or directory"
  else if errnum =? EBADF then "Bad file descriptor"
  else if errnum =? ENOMEM then "Cannot allocate memory"
  else if errnum =? EACCES then "Permission denied"
  else if errnum =? EINVAL then "Invalid argument"
  else if errnum =? EMFILE then "Too many open files"
  else "Unknown error".

Definition strerror_r (errnum : Z) (buflen : nat) : string :=
  String.substring 0 (buflen - 1) (strerror errnum).

Definition known_errno (errnum : Z) : bool :=
  negb (String.eqb (strerror errnum) "Unknown error").

(** The buffer after [strerror_r(errnum, buf, buflen)], [buf] being what it
    held before. *)
Definition os_strerror_r (w : world) (errnum : Z) (buf : string) (buflen : nat)
    : string :=
  if xsi_strerror_r w || negb (known_errno errnum)
  then strerror_r errnum buflen
  else buf.

(** ** The calls the bridge issues, as observed at the platform boundary *)

Inductive call :=
| c_open (path : string) (flags : Z)
| c_close (fd : Z)
| c_fstat (fd : Z)
| c_fchown (fd owner group : Z)
| c_fchmod (fd mode : Z)
| c_acl_get_fd (fd type : Z)
| c_acl_free (p : Z)
| c_acl_get_entry (acl which : Z)
| c_acl_get_tag_type (e : acl_entry_t)
| c_acl_get_qualifier (e : acl_entry_t)
| c_acl_get_permset (e : acl_entry_t)
| c_acl_get_perm (permset : acl_permset_t) (perm : Z)
| c_acl_init (count : Z)
| c_acl_create_entry (acl : Z)
| c_acl_set_tag_type (e : acl_entry_t) (tag : Z)
| c_acl_set_qualifier (e : acl_entry_t) (id : Z)
| c_acl_clear_perms (permset : acl_permset_t)
| c_acl_add_perm (permset : acl_permset_t) (perm : Z)
| c_acl_valid (acl : Z)
| c_acl_set_fd (fd acl : Z).

#[global] Instance call_eq_dec : EqDecision call.
Proof. solve_decision. Defined.

(** One call with the value it returned (a status, a descriptor or a
    pointer) and the value of errno when it returned. *)
Record event := { ev_call : call; ev_ret : Z; ev_errno : Z }.

#[global] Instance event_eq_dec : EqDecision event.
Proof. solve_decision. Defined.

(** ** The state of the bridge

    The four file-scope variables of acl_native.c, the platform, and the
    caller's memory behind the two pointer arguments ([dataContainer], and
    the array [entries], of which the callee knows no length). *)
Record machine := {
  _fd : Z;
  _acl : Z;
  _lastErrnoValue : Z;
  _lastErrnoString : string;
  os : world;
  dataContainer : native_permission_data_container_t;
  entries : nat -> native_acl_entry_t
}.

Definition set__fd (x : Z) (m : machine) : machine :=
  {| _fd := x; _acl := _acl m; _lastErrnoValue := _lastErrnoValue m;
     _lastErrnoString := _lastErrnoString m; os := os m;
     dataContainer := dataContainer m; entries := entries m |}.
Definition set__acl (x : Z) (m : machine) : machine :=
  {| _fd := _fd m; _acl := x; _lastErrnoValue := _lastErrnoValue m;
     _lastErrnoString := _lastErrnoString m; os := os m;
     dataContainer := dataContainer m; entries := entries m |}.
Definition set__lastErrnoValue (x : Z) (m : machine) : machine :=
  {| _fd := _fd m; _acl := _acl m; _lastErrnoValue := x;
     _lastErrnoString := _lastErrnoString m; os := os m;
     dataContainer := dataContainer m; entries := entries m |}.
Definition set__lastErrnoString (x : string) (m : machine) : machine :=
  {| _fd := _fd m; _acl := _acl m; _lastErrnoValue := _lastErrnoValue m;
     _lastErrnoString := x; os := os m;
     dataContainer := dataContainer m; entries := entries m |}.
Definition set_os (x : world) (m : machine) : machine :=
  {| _fd := _fd m; _acl := _acl m; _lastErrnoValue := _lastErrnoValue m;
     _lastErrnoString := _lastErrnoString m; os := x;
     dataContainer := dataContainer m; entries := entries m |}.
Definition set_dataContainer (x : native_permission_data_container_t) (m : machine) : machine :=
  {| _fd := _fd m; _acl := _acl m; _lastErrnoValue := _lastErrnoValue m;
     _lastErrnoString := _lastErrnoString m; os := os m;
     dataContainer := x; entries := entries m |}.
Definition set_entries (x : nat -> native_acl_entry_t) (m : machine) : machine :=
  {| _fd := _fd m; _acl := _acl m; _lastErrnoValue := _lastErrnoValue m;
     _lastErrnoString := _lastErrnoString m; os := os m;
     dataContainer := dataContainer m; entries := x |}.

(** Assignments to the members of [*dataContainer] and of [entries[i]]. *)
Definition set_ownerId (x : Z) (c : native_permission_data_container_t) :=
  {| ownerId := x; ownerPermissions := ownerPermissions c; groupId := groupId c;
     groupPermissions := groupPermissions c; otherPermissions := otherPermissions c;
     aclSize := aclSize c |}.
Definition set_ownerPermissions (x : Z) (c : native_permission_data_container_t) :=
  {| ownerId := ownerId c; ownerPermissions := x; groupId := groupId c;
     groupPermissions := groupPermissions c; otherPermissions := otherPermissions c;
     aclSize := aclSize c |}.
Definition set_groupId (x : Z) (c : native_permission_data_container_t) :=
  {| ownerId := ownerId c; ownerPermissions := ownerPermissions c; groupId := x;
     groupPermissions := groupPermissions c; otherPermissions := otherPermissions c;
     aclSize := aclSize c |}.
Definition set_groupPermissions (x : Z) (c : native_permission_data_container_t) :=
  {| ownerId := ownerId c; ownerPermissions := ownerPermissions c; groupId := groupId c;
     groupPermissions := x; otherPermissions := otherPermissions c;
     aclSize := aclSize c |}.
Definition set_otherPermissions (x : Z) (c : native_permission_data_container_t) :=
  {| ownerId := ownerId c; ownerPermissions := ownerPermissions c; groupId := groupId c;
     groupPermissions := groupPermissions c; otherPermissions := x;
     aclSize := aclSize c |}.
Definition set_aclSize (x : Z) (c : native_permission_data_container_t) :=
  {| ownerId := ownerId c; ownerPermissions := ownerPermissions c; groupId := groupId c;
     groupPermissions := groupPermissions c; otherPermissions := otherPermissions c;
     aclSize := x |}.

Definition set_tagType (x : Z) (e : native_acl_entry_t) :=
  {| tagType := x; tagQualifier := tagQualifier e; permissions := permissions e |}.
Definition set_tagQualifier (x : Z) (e : native_acl_entry_t) :=
  {| tagType := tagType e; tagQualifier := x; permissions := permissions e |}.
Definition set_permissions (x : Z) (e : native_acl_entry_t) :=
  {| tagType := tagType e; tagQualifier := tagQualifier e; permissions := x |}.

(** [arr[i] = f(arr[i])] *)
Definition update_at {A : Type} (i : nat) (f : A -> A) (arr : nat -> A) : nat -> A :=
  fun j => if (j =? i)%nat then f (arr j) else arr j.

(** ** Computations: state, and the calls issued so far *)

Definition M (A : Type) : Type := machine -> A * machine * list event.

#[global] Instance M_ret : MRet M := fun A a m => (a, m, []).
#[global] Instance M_bind : MBind M := fun A B k c m =>
  let '(a, m1, t1) := c m in
  let '(b, m2, t2) := k a m1 in
  (b, m2, t1 ++ t2).

Definition read {A : Type} (f : machine -> A) : M A := fun m => (f m, m, []).
Definition write (f : machine -> machine) : M unit := fun m => (tt, f m, []).

Definition syscall {R : Type} (c : call) (status : R -> Z)
    (f : world -> R * world) : M R := fun m =>
  let '(r, w) := f (os m) in
  (r, set_os w m, [{| ev_call := c; ev_ret := status r; ev_errno := errno w |}]).

Definition open (path : string) (flags : Z) : M Z :=
  syscall (c_open path flags) id (os_open path flags).
Definition close (fd : Z) : M Z :=
  syscall (c_close fd) id (os_close fd).
Definition fstat (fd : Z) : M (Z * stat) :=
  syscall (c_fstat fd) fst (os_fstat fd).
Definition fchown (fd owner group : Z) : M Z :=
  syscall (c_fchown fd owner group) id (os_fchown fd owner group).
Definition fchmod (fd mode : Z) : M Z :=
  syscall (c_fchmod fd mode) id (os_fchmod fd mode).
Definition acl_get_fd (fd type : Z) : M Z :=
  syscall (c_acl_get_fd fd type) id (os_acl_get_fd fd type).
Definition acl_free (p : Z) : M Z :=
  syscall (c_acl_free p) id (os_acl_free p).
Definition acl_get_entry (acl which : Z) : M (Z * acl_entry_t) :=
  syscall (c_acl_get_entry acl which) fst (os_acl_get_entry acl which).
Definition acl_get_tag_type (e : acl_entry_t) : M (Z * Z) :=
  syscall (c_acl_get_tag_type e) fst (os_acl_get_tag_type e).
Definition acl_get_qualifier (e : acl_entry_t) : M Z :=
  syscall (c_acl_get_qualifier e) id (os_acl_get_qualifier e).
Definition acl_get_permset (e : acl_entry_t) : M (Z * acl_permset_t) :=
  syscall (c_acl_get_permset e) fst (os_acl_get_permset e).
Definition acl_get_perm (permset : acl_permset_t) (perm : Z) : M Z :=
  syscall (c_acl_get_perm permset perm) id (os_acl_get_perm permset perm).
Definition acl_init (count : Z) : M Z :=
  syscall (c_acl_init count) id (os_acl_init count).
Definition acl_create_entry (acl : Z) : M (Z * Z * acl_entry_t) :=
  syscall (c_acl_create_entry acl) (fun r => fst (fst r)) (os_acl_create_entry acl).
Definition acl_set_tag_type (e : acl_entry_t) (tag : Z) : M Z :=
  syscall (c_acl_set_tag_type e tag) id (os_acl_set_tag_type e tag).
Definition acl_set_qualifier (e : acl_entry_t) (id_ : Z) : M Z :=
  syscall (c_acl_set_qualifier e id_) id (os_acl_set_qualifier e id_).
Definition acl_clear_perms (permset : acl_permset_t) : M Z :=
  syscall (c_acl_clear_perms permset) id (os_acl_clear_perms permset).
Definition acl_add_perm (permset : acl_permset_t) (perm : Z) : M Z :=
  syscall (c_acl_add_perm permset perm) id (os_acl_add_perm permset perm).
Definition acl_valid (acl : Z) : M Z :=
  syscall (c_acl_valid acl) id (os_acl_valid acl).
Definition acl_set_fd (fd acl : Z) : M Z :=
  syscall (c_acl_set_fd fd acl) id (os_acl_set_fd fd acl).

(** How a loop of the bridge is left: by a [return] inside its body, by its
    condition becoming false, or not within the given number of iterations. *)
Inductive loop_exit (A : Type) :=
| Returned (e : native_error_code_t)
| Exited (a : A)
| OutOfFuel.
Arguments Returned {A} e.
Arguments Exited {A} a.
Arguments OutOfFuel {A}.

(** ** acl_native.c *)

(** [static void store_errno(void)]: [strerror_r] is given
    [_lastErrnoString] and its size, and what the buffer holds afterwards is
    the platform's matter ([os_strerror_r]). *)
Definition store_errno : M unit :=
  e ← read (fun m => errno (os m));
  write (set__lastErrnoValue e) ;;
  write (fun m => set__lastErrnoString
                    (os_strerror_r (os m) e (_lastErrnoString m) 256) m).

(** [static native_error_code_t cleanup_with_error_code(native_error_code_t)] *)
Definition cleanup_with_error_code (errorCode : native_error_code_t)
    : M native_error_code_t :=
  acl ← read _acl;
  (if truthy acl then acl_free acl ;; write (set__acl NULL) else mret tt) ;;
  fd ← read _fd;
  (if truthy fd then close fd ;; write (set__fd NULL) else mret tt) ;;
  mret errorCode.

(** [return c;] seen from a function that may also run out of fuel. *)
Definition return_ (c : M native_error_code_t) : M (option native_error_code_t) :=
  e ← c; mret (Some e).
Definition return_from_loop {A : Type} (c : M native_error_code_t) : M (loop_exit A) :=
  e ← c; mret (Returned e).

(** The loop of [OpenFileAndReadPermissionData] that counts the entries:
    [while(aclStatus > 0) { ++aclSize; aclStatus = acl_get_entry(...); }] *)
Fixpoint count_entries (fuel : nat) (aclStatus aclSize : Z) : M (loop_exit (Z * Z)) :=
  match fuel with
  | O => mret OutOfFuel
  | S fuel' =>
      if 0 <? aclStatus then
        acl ← read _acl;
        '(aclStatus', _) ← acl_get_entry acl ACL_NEXT_ENTRY;
        count_entries fuel' aclStatus' (aclSize + 1)
      else mret (Exited (aclStatus, aclSize))
  end.

Definition update_container
    (f : native_permission_data_container_t -> native_permission_data_container_t)
    (m : machine) : machine :=
  set_dataContainer (f (dataContainer m)) m.

(** [OpenFileAndReadPermissionData].  The source spells the group member of
    [struct stat] [st_git] in its assignment to [groupId]; [struct stat] has
    no such member, and the member meant is [st_gid], as
    [SetFilePermissionDataAndAcl] spells it.  The source also has a [;]
    between the header of this function and its body, which is read here as
    the body of the function. *)
Definition OpenFileAndReadPermissionData (fuel : nat) (fileName : string)
    (loadDefaultAcl : Z) : M (option native_error_code_t) :=
  (* Reset errno *)
  write (set__lastErrnoValue 0) ;;
  (* Open file or directory *)
  fd ← open fileName O_RDONLY;
  write (set__fd fd) ;;
  fd ← read _fd;
  if fd <? 0 then
    store_errno ;; mret (Some NATIVE_ERROR_OPEN_FAILED)
  else
  (* Read file metadata *)
  fd ← read _fd;
  '(r, fileStat) ← fstat fd;
  if r <? 0 then
    store_errno ;; return_ (cleanup_with_error_code NATIVE_ERROR_FSTAT_FAILED)
  else
  (* Fill basic permission fields *)
  write (update_container (set_ownerId (to_int32 (st_uid fileStat)))) ;;
  write (update_container (set_groupId (to_int32 (st_gid fileStat)))) ;;
  write (update_container (set_ownerPermissions (decodeOwner (st_mode fileStat)))) ;;
  write (update_container (set_groupPermissions (decodeGroup (st_mode fileStat)))) ;;
  write (update_container (set_otherPermissions (decodeOther (st_mode fileStat)))) ;;
  (* Try to load ACL *)
  fd ← read _fd;
  acl ← acl_get_fd fd (if 0 <? loadDefaultAcl then ACL_TYPE_DEFAULT else ACL_TYPE_ACCESS);
  write (set__acl acl) ;;
  acl ← read _acl;
  if negb (truthy acl) then
    store_errno ;; return_ (cleanup_with_error_code NATIVE_ERROR_GET_ACL_FAILED)
  else
  (* Iterate ACL and determine entry count *)
  acl ← read _acl;
  '(aclStatus, _) ← acl_get_entry acl ACL_FIRST_ENTRY;
  walk ← count_entries fuel aclStatus 0;
  match walk with
  | OutOfFuel => mret None
  | Returned e => mret (Some e)
  | Exited (aclStatus, aclSize) =>
      if aclStatus <? 0 then
        store_errno ;; return_ (cleanup_with_error_code NATIVE_ERROR_GET_ACL_ENTRY_FAILED)
      else
      write (update_container (set_aclSize (to_int32 aclSize))) ;;
      (* Done *)
      mret (Some NATIVE_ERROR_SUCCESS)
  end.

(** The first [switch(tagType)] of [ReadFileAclAndClose]: the assignment to
    [e->tagType]. *)
Definition switch_tagType (tagType : Z) (e : native_acl_entry_t) : native_acl_entry_t :=
  if tagType =? ACL_USER_OBJ then set_tagType ACL_ENTRY_TAG_TYPE_USER_OBJ e
  else if tagType =? ACL_USER then set_tagType ACL_ENTRY_TAG_TYPE_USER e
  else if tagType =? ACL_GROUP_OBJ then set_tagType ACL_ENTRY_TAG_TYPE_GROUP_OBJ e
  else if tagType =? ACL_GROUP then set_tagType ACL_ENTRY_TAG_TYPE_GROUP e
  else if tagType =? ACL_MASK then set_tagType ACL_ENTRY_TAG_TYPE_MASK e
  else if tagType =? ACL_OTHER then set_tagType ACL_ENTRY_TAG_TYPE_OTHER e
  else if tagType =? ACL_UNDEFINED_TAG then (* TODO *) e
  else e.

Definition update_entries (i : nat) (f : native_acl_entry_t -> native_acl_entry_t)
    (m : machine) : machine :=
  set_entries (update_at i f (entries m)) m.

(** The loop of [ReadFileAclAndClose]. *)
Fixpoint read_entries (fuel : nat) (aclStatus : Z) (currEntry : acl_entry_t) (i : nat)
    : M (loop_exit Z) :=
  match fuel with
  | O => mret OutOfFuel
  | S fuel' =>
      if 0 <? aclStatus then
        (* Set tag type *)
        '(r, tagType) ← acl_get_tag_type currEntry;
        if r <? 0 then
          store_errno ;;
          return_from_loop (cleanup_with_error_code NATIVE_ERROR_GET_ACL_ENTRY_TAG_TYPE_FAILED)
        else
        write (update_entries i (switch_tagType tagType)) ;;
        let set_permissions_and_continue : M (loop_exit Z) :=
          (* Set permissions *)
          '(r, permset) ← acl_get_permset currEntry;
          if r <? 0 then
            store_errno ;;
            return_from_loop (cleanup_with_error_code NATIVE_ERROR_GET_ACL_ENTRY_PERMSET_FAILED)
          else
          canRead ← acl_get_perm permset ACL_READ;
          if canRead <? 0 then
            store_errno ;;
            return_from_loop (cleanup_with_error_code NATIVE_ERROR_GET_ACL_ENTRY_PERM_FAILED)
          else
          canWrite ← acl_get_perm permset ACL_WRITE;
          if canWrite <? 0 then
            store_errno ;;
            return_from_loop (cleanup_with_error_code NATIVE_ERROR_GET_ACL_ENTRY_PERM_FAILED)
          else
          canExecute ← acl_get_perm permset ACL_EXECUTE;
          if canExecute <? 0 then
            store_errno ;;
            return_from_loop (cleanup_with_error_code NATIVE_ERROR_GET_ACL_ENTRY_PERM_FAILED)
          else
          write (update_entries i (set_permissions
            ((if 0 <? canRead then FILE_PERMISSION_READ else FILE_PERMISSION_NONE)
             .| (if 0 <? canWrite then FILE_PERMISSION_WRITE else FILE_PERMISSION_NONE)
             .| (if 0 <? canExecute then FILE_PERMISSION_EXECUTE else FILE_PERMISSION_NONE)))) ;;
          (* Next entry *)
          acl ← read _acl;
          '(aclStatus', currEntry') ← acl_get_entry acl ACL_NEXT_ENTRY;
          read_entries fuel' aclStatus' currEntry' (S i)
        in
        (* Set tag qualifier *)
        if (tagType =? ACL_USER) || (tagType =? ACL_GROUP) then
          tagQualifier ← acl_get_qualifier currEntry;
          if negb (truthy tagQualifier) then
            store_errno ;;
            return_from_loop (cleanup_with_error_code NATIVE_ERROR_GET_ACL_ENTRY_QUALIFIER_FAILED)
          else
          q ← read (fun m => load_int32 tagQualifier (os m));
          write (update_entries i (set_tagQualifier q)) ;;
          acl_free tagQualifier ;;
          set_permissions_and_continue
        else
          write (update_entries i (set_tagQualifier 0)) ;;
          set_permissions_and_continue
      else mret (Exited aclStatus)
  end.

(** [ReadFileAclAndClose] *)
Definition ReadFileAclAndClose (fuel : nat) : M (option native_error_code_t) :=
  (* Reset errno *)
  write (set__lastErrnoValue 0) ;;
  (* Iterate ACL *)
  acl ← read _acl;
  '(aclStatus, currEntry) ← acl_get_entry acl ACL_FIRST_ENTRY;
  walk ← read_entries fuel aclStatus currEntry 0;
  match walk with
  | OutOfFuel => mret None
  | Returned e => mret (Some e)
  | Exited aclStatus =>
      if aclStatus <? 0 then
        store_errno ;; return_ (cleanup_with_error_code NATIVE_ERROR_GET_ACL_ENTRY_FAILED)
      else
      (* Done *)
      return_ (cleanup_with_error_code NATIVE_ERROR_SUCCESS)
  end.

(** The first [switch(entryData->tagType)] of [SetFilePermissionDataAndAcl];
    [None] is its [default:] branch. *)
Definition switch_entry_tagType (t : Z) : option Z :=
  if t =? ACL_ENTRY_TAG_TYPE_USER_OBJ then Some ACL_USER_OBJ
  else if t =? ACL_ENTRY_TAG_TYPE_USER then Some ACL_USER
  else if t =? ACL_ENTRY_TAG_TYPE_GROUP_OBJ then Some ACL_GROUP_OBJ
  else if t =? ACL_ENTRY_TAG_TYPE_GROUP then Some ACL_GROUP
  else if t =? ACL_ENTRY_TAG_TYPE_MASK then Some ACL_MASK
  else if t =? ACL_ENTRY_TAG_TYPE_OTHER then Some ACL_OTHER
  else None.

(** The loop of [SetFilePermissionDataAndAcl] that builds the entries:
    [for(int i = 0; i < dataContainer->aclSize; ++i)], with [n] the number of
    iterations still to run.  [None]: the loop ran to its end. *)
Fixpoint build_entries (n : nat) (i : nat) : M (option native_error_code_t) :=
  match n with
  | O => mret None
  | S n' =>
      (* Retrieve current entry data *)
      entryData ← read (fun m => entries m i);
      (* Initialize ACL entry *)
      acl ← read _acl;
      '(aclStatus, acl', aclEntry) ← acl_create_entry acl;
      write (set__acl acl') ;;
      if aclStatus <? 0 then
        store_errno ;; return_ (cleanup_with_error_code NATIVE_ERROR_CREATE_ACL_ENTRY_FAILED)
      else
      (* Assign tag type *)
      match switch_entry_tagType (tagType entryData) with
      | None => return_ (cleanup_with_error_code NATIVE_ERROR_INVALID_TAG_TYPE)
      | Some tagType_ =>
          r ← acl_set_tag_type aclEntry tagType_;
          if r <? 0 then
            store_errno ;;
            return_ (cleanup_with_error_code NATIVE_ERROR_SET_ACL_ENTRY_TAG_TYPE_FAILED)
          else
          let assign_permissions_and_continue : M (option native_error_code_t) :=
            (* Assign permissions *)
            '(r, permset) ← acl_get_permset aclEntry;
            if r <? 0 then
              store_errno ;;
              return_ (cleanup_with_error_code NATIVE_ERROR_GET_ACL_ENTRY_PERMSET_FAILED)
            else
            r ← acl_clear_perms permset;
            if r <? 0 then
              store_errno ;;
              return_ (cleanup_with_error_code NATIVE_ERROR_CLEAR_ACL_ENTRY_PERMS_FAILED)
            else
            r ← (if truthy (permissions entryData .& FILE_PERMISSION_READ)
                 then acl_add_perm permset ACL_READ else mret 0);
            if r <? 0 then
              store_errno ;;
              return_ (cleanup_with_error_code NATIVE_ERROR_ADD_ACL_ENTRY_PERM_FAILED)
            else
            r ← (if truthy (permissions entryData .& FILE_PERMISSION_WRITE)
                 then acl_add_perm permset ACL_WRITE else mret 0);
            if r <? 0 then
              store_errno ;;
              return_ (cleanup_with_error_code NATIVE_ERROR_ADD_ACL_ENTRY_PERM_FAILED)
            else
            r ← (if truthy (permissions entryData .& FILE_PERMISSION_EXECUTE)
                 then acl_add_perm permset ACL_EXECUTE else mret 0);
            if r <? 0 then
              store_errno ;;
              return_ (cleanup_with_error_code NATIVE_ERROR_ADD_ACL_ENTRY_PERM_FAILED)
            else
            build_entries n' (S i)
          in
          (* Assign tag qualifier *)
          if (tagType entryData =? ACL_ENTRY_TAG_TYPE_USER)
             || (tagType entryData =? ACL_ENTRY_TAG_TYPE_GROUP) then
            r ← acl_set_qualifier aclEntry (to_uint32 (tagQualifier entryData));
            if r <? 0 then
              store_errno ;;
              return_ (cleanup_with_error_code NATIVE_ERROR_SET_ACL_ENTRY_QUALIFIER_FAILED)
            else
            assign_permissions_and_continue
          else
            assign_permissions_and_continue
      end
  end.

(** [uid_t newOwner = -1; if(dataContainer->ownerId != fileStat.st_uid)
    newOwner = dataContainer->ownerId;] (and the same for the group): the
    comparison and the assignment convert the [int32_t] to [uid_t]. *)
Definition UNCHANGED : Z := to_uint32 (-1).
Definition new_id (requested current : Z) : Z :=
  if negb (to_uint32 requested =? current) then to_uint32 requested else UNCHANGED.

(** [SetFilePermissionDataAndAcl] ([setDefaultAcl] is not used by the body). *)
Definition SetFilePermissionDataAndAcl (fileName : string) (setDefaultAcl : Z)
    : M (option native_error_code_t) :=
  (* Reset errno *)
  write (set__lastErrnoValue 0) ;;
  (* Open file or directory *)
  fd ← open fileName O_RDONLY;
  write (set__fd fd) ;;
  fd ← read _fd;
  if fd <? 0 then
    store_errno ;; mret (Some NATIVE_ERROR_OPEN_FAILED)
  else
  (* Read file metadata, to be able to detect whether owner or group are modified *)
  fd ← read _fd;
  '(r, fileStat) ← fstat fd;
  if r <? 0 then
    store_errno ;; return_ (cleanup_with_error_code NATIVE_ERROR_FSTAT_FAILED)
  else
  (* Change owner and group *)
  dc ← read dataContainer;
  let newOwner := new_id (ownerId dc) (st_uid fileStat) in
  let newGroup := new_id (groupId dc) (st_gid fileStat) in
  fd ← read _fd;
  r ← (if negb (newOwner =? UNCHANGED) || negb (newGroup =? UNCHANGED)
       then fchown fd newOwner newGroup else mret 0);
  if r <? 0 then
    store_errno ;; return_ (cleanup_with_error_code NATIVE_ERROR_CHOWN_FAILED)
  else
  (* Build standard permission bitfield *)
  dc ← read dataContainer;
  let chmodBits :=
    encodeMode (ownerPermissions dc) (groupPermissions dc) (otherPermissions dc) in
  fd ← read _fd;
  r ← fchmod fd chmodBits;
  if r <? 0 then
    store_errno ;; return_ (cleanup_with_error_code NATIVE_ERROR_CHMOD_FAILED)
  else
  (* Create new ACL *)
  dc ← read dataContainer;
  acl ← acl_init (aclSize dc);
  write (set__acl acl) ;;
  acl ← read _acl;
  if negb (truthy acl) then
    store_errno ;; return_ (cleanup_with_error_code NATIVE_ERROR_INIT_ACL_FAILED)
  else
  (* Build ACL entries *)
  dc ← read dataContainer;
  built ← build_entries (Z.to_nat (aclSize dc)) 0;
  match built with
  | Some e => mret (Some e)
  | None =>
      (* Validate ACL *)
      acl ← read _acl;
      r ← acl_valid acl;
      if r <? 0 then
        store_errno ;; return_ (cleanup_with_error_code NATIVE_ERROR_VALIDATE_ACL_FAILED)
      else
      (* Assign ACL to file *)
      fd ← read _fd;
      acl ← read _acl;
      r ← acl_set_fd fd acl;
      if r <? 0 then
        store_errno ;; return_ (cleanup_with_error_code NATIVE_ERROR_SET_ACL_FAILED)
      else
      (* Done *)
      return_ (cleanup_with_error_code NATIVE_ERROR_SUCCESS)
  end.

(** [strcpy_s(dest, destsz, src)] on a buffer of characters: the string and
    its terminator when they fit in [destsz]; otherwise the empty string.
    Characters are written only where the buffer has them. *)
Definition NUL : ascii := Ascii.zero.

Fixpoint store_chars (src : list ascii) (dest : list ascii) : list ascii :=
  match src, dest with
  | c :: src', _ :: dest' => c :: store_chars src' dest'
  | _, _ => dest
  end.

Definition strcpy_s (dest : list ascii) (destsz : Z) (src : string) : list ascii :=
  if Z.of_nat (String.length src) <? destsz
  then store_chars (list_ascii_of_string src ++ [NUL]) dest
  else store_chars [NUL] dest.

(** The C string a buffer holds: the characters before the first NUL. *)
Fixpoint c_string (buf : list ascii) : string :=
  match buf with
  | [] => EmptyString
  | c :: buf' => if Ascii.eqb c NUL then EmptyString else String c (c_string buf')
  end.

(** [GetLastErrnoValue]: the buffer as it leaves the call, and the result. *)
Definition GetLastErrnoValue (errnoStringBuffer : list ascii)
    (errnoStringBufferLength : Z) (m : machine) : list ascii * Z :=
  (* Only copy error string if errno is set *)
  (if _lastErrnoValue m =? 0
   then store_chars [NUL] errnoStringBuffer
   else strcpy_s errnoStringBuffer errnoStringBufferLength (_lastErrnoString m),
   _lastErrnoValue m).

(** ** The public operations *)

Inductive operation :=
| OpOpen (fileName : string) (loadDefaultAcl : Z)
| OpRead
| OpSet (fileName : string) (setDefaultAcl : Z).

Definition run (fuel : nat) (op : operation) : M (option native_error_code_t) :=
  match op with
  | OpOpen fileName loadDefaultAcl =>
      OpenFileAndReadPermissionData fuel fileName loadDefaultAcl
  | OpRead => ReadFileAclAndClose fuel
  | OpSet fileName setDefaultAcl => SetFilePermissionDataAndAcl fileName setDefaultAcl
  end.

(** ** Vocabulary of the properties *)

(** Postconditions: [holds c m Q] says that running [c] from [m] gives a
    result, a final state and a trace related by [Q]. *)
Definition holds {A : Type} (c : M A) (m : machine)
    (Q : A -> machine -> list event -> Prop) : Prop :=
  Q (c m).1.1 (c m).1.2 (c m).2.

(** The function behind each call. *)
Inductive call_name :=
| n_open | n_close | n_fstat | n_fchown | n_fchmod | n_acl_get_fd | n_acl_free
| n_acl_get_entry | n_acl_get_tag_type | n_acl_get_qualifier | n_acl_get_permset
| n_acl_get_perm | n_acl_init | n_acl_create_entry | n_acl_set_tag_type
| n_acl_set_qualifier | n_acl_clear_perms | n_acl_add_perm | n_acl_valid
| n_acl_set_fd.

#[global] Instance call_name_eq_dec : EqDecision call_name.
Proof. solve_decision. Defined.

Definition name_of (c : call) : call_name :=
  match c with
  | c_open _ _ => n_open
  | c_close _ => n_close
  | c_fstat _ => n_fstat
  | c_fchown _ _ _ => n_fchown
  | c_fchmod _ _ => n_fchmod
  | c_acl_get_fd _ _ => n_acl_get_fd
  | c_acl_free _ => n_acl_free
  | c_acl_get_entry _ _ => n_acl_get_entry
  | c_acl_get_tag_type _ => n_acl_get_tag_type
  | c_acl_get_qualifier _ => n_acl_get_qualifier
  | c_acl_get_permset _ => n_acl_get_permset
  | c_acl_get_perm _ _ => n_acl_get_perm
  | c_acl_init _ => n_acl_init
  | c_acl_create_entry _ => n_acl_create_entry
  | c_acl_set_tag_type _ _ => n_acl_set_tag_type
  | c_acl_set_qualifier _ _ => n_acl_set_qualifier
  | c_acl_clear_perms _ => n_acl_clear_perms
  | c_acl_add_perm _ _ => n_acl_add_perm
  | c_acl_valid _ => n_acl_valid
  | c_acl_set_fd _ _ => n_acl_set_fd
  end.

(** A call failed: a null pointer from the calls that return one, a
    negative status from the others. *)
Definition returns_pointer (n : call_name) : bool :=
  match n with
  | n_acl_get_fd | n_acl_init | n_acl_get_qualifier => true
  | _ => false
  end.

Definition failed (ev : event) : bool :=
  if returns_pointer (name_of (ev_call ev)) then ev_ret ev =? NULL else ev_ret ev <? 0.

(** The call each error kind stands for, as acl_native.h documents the
    enumerators ("Indicates that the ... call failed. The corresponding errno
    value was stored."); [NATIVE_ERROR_INVALID_TAG_TYPE] stands for no call
    ("Indicates that an invalid/unknown entry tag type was supplied."). *)
Definition failing_call (e : native_error_code_t) : option call_name :=
  match e with
  | NATIVE_ERROR_SUCCESS => None
  | NATIVE_ERROR_OPEN_FAILED => Some n_open
  | NATIVE_ERROR_FSTAT_FAILED => Some n_fstat
  | NATIVE_ERROR_GET_ACL_FAILED => Some n_acl_get_fd
  | NATIVE_ERROR_GET_ACL_ENTRY_FAILED => Some n_acl_get_entry
  | NATIVE_ERROR_GET_ACL_ENTRY_TAG_TYPE_FAILED => Some n_acl_get_tag_type
  | NATIVE_ERROR_GET_ACL_ENTRY_QUALIFIER_FAILED => Some n_acl_get_qualifier
  | NATIVE_ERROR_GET_ACL_ENTRY_PERMSET_FAILED => Some n_acl_get_permset
  | NATIVE_ERROR_GET_ACL_ENTRY_PERM_FAILED => Some n_acl_get_perm
  | NATIVE_ERROR_CHOWN_FAILED => Some n_fchown
  | NATIVE_ERROR_CHMOD_FAILED => Some n_fchmod
  | NATIVE_ERROR_INIT_ACL_FAILED => Some n_acl_init
  | NATIVE_ERROR_CREATE_ACL_ENTRY_FAILED => Some n_acl_create_entry
  | NATIVE_ERROR_INVALID_TAG_TYPE => None
  | NATIVE_ERROR_SET_ACL_ENTRY_TAG_TYPE_FAILED => Some n_acl_set_tag_type
  | NATIVE_ERROR_SET_ACL_ENTRY_QUALIFIER_FAILED => Some n_acl_set_qualifier
  | NATIVE_ERROR_CLEAR_ACL_ENTRY_PERMS_FAILED => Some n_acl_clear_perms
  | NATIVE_ERROR_ADD_ACL_ENTRY_PERM_FAILED => Some n_acl_add_perm
  | NATIVE_ERROR_VALIDATE_ACL_FAILED => Some n_acl_valid
  | NATIVE_ERROR_SET_ACL_FAILED => Some n_acl_set_fd
  end.

Definition is_release (ev : event) : bool :=
  match ev_call ev with
  | c_close _ | c_acl_free _ => true
  | _ => false
  end.

(** The error channel holds what the failing call left in errno: the trace
    ends with a failed call of the given name followed by releases only,
    [_lastErrnoValue] holds that call's errno, and [_lastErrnoString] holds
    its message where [strerror_r] is the function that stores it. *)
Definition captured (n : call_name) (m' : machine) (tr : list event) : Prop :=
  exists t1 ev t2,
    tr = t1 ++ ev :: t2
    /\ name_of (ev_call ev) = n
    /\ failed ev = true
    /\ forallb is_release t2 = true
    /\ _lastErrnoValue m' = ev_errno ev
    /\ (xsi_strerror_r (os m') = true ->
        _lastErrnoString m' = strerror_r (ev_errno ev) 256).

(** Resources: descriptors, and objects in libacl's working storage. *)
Inductive resource :=
| Fd (fd : Z)
| Obj (p : Z).

#[global] Instance resource_eq_dec : EqDecision resource.
Proof. solve_decision. Defined.

#[global] Instance resource_countable : Countable resource.
Proof.
  refine (inj_countable'
    (fun r => match r with Fd z => inl z | Obj z => inr z end)
    (fun s => match s with inl z => Fd z | inr z => Obj z end) _).
  intros []; reflexivity.
Defined.

Definition acquires (ev : event) : option resource :=
  match ev_call ev with
  | c_open _ _ => if ev_ret ev <? 0 then None else Some (Fd (ev_ret ev))
  | c_acl_get_fd _ _ | c_acl_init _ | c_acl_get_qualifier _ =>
      if ev_ret ev =? NULL then None else Some (Obj (ev_ret ev))
  | _ => None
  end.

Definition releases (ev : event) : option resource :=
  match ev_call ev with
  | c_close fd => Some (Fd fd)
  | c_acl_free p => Some (Obj p)
  | _ => None
  end.

(** Following a trace with the set of resources held: [None] when the trace
    releases a resource that is not held (a double release), or acquires one
    that is; otherwise the resources held at the end. *)
Fixpoint track (held : gset resource) (tr : list event) : option (gset resource) :=
  match tr with
  | [] => Some held
  | ev :: tr' =>
      match acquires ev with
      | Some r => if decide (r ∈ held) then None else track ({[r]} ∪ held) tr'
      | None =>
          match releases ev with
          | Some r => if decide (r ∈ held) then track (held ∖ {[r]}) tr' else None
          | None => track held tr'
          end
      end
  end.

(** The session holds a descriptor and a loaded ACL (after a successful
    [OpenFileAndReadPermissionData]). *)
Definition loaded (m : machine) : Prop :=
  _fd m <> NULL /\ _acl m <> NULL
  /\ is_Some (fdt (os m) !! _fd m)
  /\ is_Some (acl_of (os m) (_acl m)).

Definition held_at_entry (op : operation) (m : machine) : gset resource :=
  match op with
  | OpRead => {[Fd (_fd m); Obj (_acl m)]}
  | _ => ∅
  end.

(** What the session is to hold when the operation returns: the descriptor
    and the ACL after a successful first phase of a read, nothing otherwise. *)
Definition held_at_exit (op : operation) (e : native_error_code_t) (m' : machine)
    : gset resource :=
  match op, e with
  | OpOpen _ _, NATIVE_ERROR_SUCCESS => {[Fd (_fd m'); Obj (_acl m')]}
  | _, _ => ∅
  end.

Definition ready (op : operation) (m : machine) : Prop :=
  match op with
  | OpRead => loaded m
  | _ => _acl m = NULL
  end.

Definition opens_descriptor_0 (tr : list event) : Prop :=
  exists ev path flags, ev ∈ tr /\ ev_call ev = c_open path flags /\ ev_ret ev = 0.

(** Error kinds of the steps of [SetFilePermissionDataAndAcl] that follow
    the mode change. *)
Definition acl_stage (e : native_error_code_t) : bool :=
  match e with
  | NATIVE_ERROR_INIT_ACL_FAILED
  | NATIVE_ERROR_CREATE_ACL_ENTRY_FAILED
  | NATIVE_ERROR_INVALID_TAG_TYPE
  | NATIVE_ERROR_SET_ACL_ENTRY_TAG_TYPE_FAILED
  | NATIVE_ERROR_SET_ACL_ENTRY_QUALIFIER_FAILED
  | NATIVE_ERROR_GET_ACL_ENTRY_PERMSET_FAILED
  | NATIVE_ERROR_CLEAR_ACL_ENTRY_PERMS_FAILED
  | NATIVE_ERROR_ADD_ACL_ENTRY_PERM_FAILED
  | NATIVE_ERROR_VALIDATE_ACL_FAILED
  | NATIVE_ERROR_SET_ACL_FAILED => true
  | _ => false
  end.

(** What [ReadFileAclAndClose] makes of one platform entry when every query
    succeeds, on top of what the caller's array held. *)
Definition decoded_qualifier (x : acl_ent) : Z :=
  if (a_tag x =? ACL_USER) || (a_tag x =? ACL_GROUP) then to_int32 (a_id x) else 0.

Definition decoded_permissions (x : acl_ent) : Z :=
  (if truthy (a_perm x .& ACL_READ) then FILE_PERMISSION_READ else FILE_PERMISSION_NONE)
  .| (if truthy (a_perm x .& ACL_WRITE) then FILE_PERMISSION_WRITE else FILE_PERMISSION_NONE)
  .| (if truthy (a_perm x .& ACL_EXECUTE) then FILE_PERMISSION_EXECUTE else FILE_PERMISSION_NONE).

Definition decoded (x : acl_ent) (old : native_acl_entry_t) : native_acl_entry_t :=
  set_permissions (decoded_permissions x)
    (set_tagQualifier (decoded_qualifier x) (switch_tagType (a_tag x) old)).

(** What it has written to an entry when it returns the given error from
    the middle of decoding it. *)
Definition partially_decoded (e : native_error_code_t) (x : acl_ent)
    (old : native_acl_entry_t) : native_acl_entry_t :=
  match e with
  | NATIVE_ERROR_GET_ACL_ENTRY_TAG_TYPE_FAILED => old
  | NATIVE_ERROR_GET_ACL_ENTRY_QUALIFIER_FAILED => switch_tagType (a_tag x) old
  | _ => set_tagQualifier (decoded_qualifier x) (switch_tagType (a_tag x) old)
  end.

Definition decoding_error (e : native_error_code_t) : bool :=
  match e with
  | NATIVE_ERROR_GET_ACL_ENTRY_TAG_TYPE_FAILED
  | NATIVE_ERROR_GET_ACL_ENTRY_QUALIFIER_FAILED
  | NATIVE_ERROR_GET_ACL_ENTRY_PERMSET_FAILED
  | NATIVE_ERROR_GET_ACL_ENTRY_PERM_FAILED => true
  | _ => false
  end.

(** The calls of a trace. *)
Definition calls (tr : list event) : list call := ev_call <$> tr.

Definition is_fchown (c : call) : bool :=
  match c with c_fchown _ _ _ => true | _ => false end.
Definition is_fchmod (c : call) : bool :=
  match c with c_fchmod _ _ => true | _ => false end.

(** Equality of permission triples, as a test. *)
Definition triple_eqb (a b : Z * Z * Z) : bool :=
  (a.1.1 =? b.1.1) && (a.1.2 =? b.1.2) && (a.2 =? b.2).


(** The file table and the descriptor table are touched only by the calls
    on files. *)
Definition files_kept (w w' : world) : Prop := fs w' = fs w /\ fdt w' = fdt w.


(** The calls of [cleanup_with_error_code] from a given state. *)
Definition cleanup_events (m : machine) (t : list event) : Prop :=
  exists r1 e1 r2 e2,
    t = (if truthy (_acl m)
         then [{| ev_call := c_acl_free (_acl m); ev_ret := r1; ev_errno := e1 |}]
         else [])
        ++ (if truthy (_fd m)
            then [{| ev_call := c_close (_fd m); ev_ret := r2; ev_errno := e2 |}]
            else []).

(** What [store_errno(); return cleanup_with_error_code(e);] does from [m]. *)
Definition failure_exit (m : machine) (m' : machine) (t : list event) : Prop :=
  _fd m' = NULL /\ _acl m' = NULL
  /\ _lastErrnoValue m' = errno (os m)
  /\ _lastErrnoString m'
     = os_strerror_r (os m') (errno (os m)) (_lastErrnoString m) 256
  /\ dataContainer m' = dataContainer m
  /\ entries m' = entries m
  /\ fs (os m') = fs (os m)
  /\ cleanup_events m t.

(** What [cleanup_with_error_code] does from [m]. *)
Definition cleanup_exit (m : machine) (m' : machine) (t : list event) : Prop :=
  _fd m' = NULL /\ _acl m' = NULL
  /\ _lastErrnoValue m' = _lastErrnoValue m
  /\ _lastErrnoString m' = _lastErrnoString m
  /\ dataContainer m' = dataContainer m
  /\ entries m' = entries m
  /\ fs (os m') = fs (os m)
  /\ cleanup_events m t.

(** The components of the state that the ACL calls leave alone. *)
Definition session_kept (m m' : machine) : Prop :=
  _fd m' = _fd m /\ _acl m' = _acl m
  /\ _lastErrnoValue m' = _lastErrnoValue m
  /\ _lastErrnoString m' = _lastErrnoString m
  /\ dataContainer m' = dataContainer m
  /\ files_kept (os m) (os m').

(** A walk that started from status [st] and errno [e] ended with status
    [st'] and errno [e']: those of its last [acl_get_entry], if it made one. *)
Definition walk_end (st e : Z) (t : list event) (st' e' : Z) : Prop :=
  (t = [] /\ st' = st /\ e' = e)
  \/ (exists t0 ev, t = t0 ++ [ev]
        /\ name_of (ev_call ev) = n_acl_get_entry
        /\ ev_ret ev = st' /\ ev_errno ev = e').

Definition acquires_nothing (ev : event) : Prop :=
  acquires ev = None /\ releases ev = None.

(** The state of the error channel when [e] is returned, [v0] being the
    value of [_lastErrnoValue] before: what the failing call left in errno if
    [e] stands for a call, and what it was otherwise. *)
Definition channel_after (v0 : Z) (e : native_error_code_t) (m' : machine)
    (tr : list event) : Prop :=
  match failing_call e with
  | Some n => captured n m' tr
  | None => _lastErrnoValue m' = v0
  end.

(** The state of the error channel when an operation returns [e]. *)
Definition error_channel (e : native_error_code_t) (m' : machine) (tr : list event) : Prop :=
  channel_after 0 e m' tr.

(** Calls on libacl's working storage, and releases: the calls that are
    not on the file itself. *)
Definition acl_call (ev : event) : bool :=
  match name_of (ev_call ev) with
  | n_open | n_fstat | n_fchown | n_fchmod => false
  | _ => true
  end.

(** The trace ends with the calls of [cleanup_with_error_code] on the
    descriptor and the ACL that [m] holds. *)
Definition ends_with_cleanup (m : machine) (t : list event) : Prop :=
  exists t0 tc, t = t0 ++ tc /\ cleanup_events m tc.

(** A [return] from inside a loop: the error channel is set for the error
    returned, and the session was cleaned up. *)
Definition returned (m : machine) (e : native_error_code_t) (m' : machine)
    (t : list event) : Prop :=
  channel_after (_lastErrnoValue m) e m' t
  /\ _fd m' = NULL /\ _acl m' = NULL
  /\ dataContainer m' = dataContainer m
  /\ fs (os m') = fs (os m)
  /\ ends_with_cleanup m t
  /\ forallb acl_call t = true.

(** The counting loop at its head: with an entry in hand ([0 < st]), [n]
    entries are behind it and the cursor is past it; at the end of the list
    ([st = 0]), [n] is the number of entries. *)
Definition counting (ents : list acl_ent) (st n : Z) (cur : nat) : Prop :=
  ((0 <? st) = true ->
     0 <= n /\ cur = S (Z.to_nat n) /\ (Z.to_nat n < length ents)%nat)
  /\ (st = 0 -> n = Z.of_nat (length ents)).

(** The decoding loop at its head: the ACL is live; with an entry in hand
    ([0 < st]) the entry is the [i]-th and the cursor is past it; at the end
    of the list ([st = 0]) the [i] entries of the list are behind. *)
Definition decoding (m : machine) (ents : list acl_ent) (st : Z)
    (currEntry : acl_entry_t) (i : nat) : Prop :=
  exists cur, acl_of (os m) (_acl m) = Some (ents, cur)
  /\ ((0 <? st) = true ->
        currEntry = (_acl m, i) /\ cur = S i /\ (i < length ents)%nat)
  /\ (st = 0 -> i = length ents).

(** The array [new] is [old] with the entries [i], ..., [k - 1] decoded. *)
Definition decoded_upto (old : nat -> native_acl_entry_t) (ents : list acl_ent)
    (i k : nat) (new : nat -> native_acl_entry_t) : Prop :=
  (i <= k)%nat
  /\ (forall j y, (i <= j < k)%nat -> ents !! j = Some y -> new j = decoded y (old j))
  /\ (forall j, (j < i \/ k <= j)%nat -> new j = old j).

(** The array [new] is [old] with the entries [i], ..., [k - 1] decoded and
    the entry [k] as the failure [e] in the middle of decoding it left it. *)
Definition decoded_until_failure (old : nat -> native_acl_entry_t) (ents : list acl_ent)
    (e : native_error_code_t) (i k : nat) (new : nat -> native_acl_entry_t) : Prop :=
  (i <= k)%nat
  /\ (forall j y, (i <= j < k)%nat -> ents !! j = Some y -> new j = decoded y (old j))
  /\ (forall j, (j < i \/ k < j)%nat -> new j = old j)
  /\ (exists x, ents !! k = Some x /\ new k = partially_decoded e x (old k)).

(** The trace has a mode change that succeeded. *)
Definition mode_changed (tr : list event) : bool :=
  existsb (fun ev => is_fchmod (ev_call ev) && negb (ev_ret ev <? 0)) tr.

(** The inode of a file after the ownership and mode steps of
    [SetFilePermissionDataAndAcl] for the container [dc]. *)
Definition inode_after_write (dc : native_permission_data_container_t) (ino : inode)
    : inode :=
  {| i_mode := (i_mode ino .& S_IFMT)
               .| encodeMode (ownerPermissions dc) (groupPermissions dc) (otherPermissions dc);
     i_uid := chown_id (i_uid ino) (to_uint32 (ownerId dc));
     i_gid := chown_id (i_gid ino) (to_uint32 (groupId dc));
     i_access := i_access ino;
     i_default := i_default ino |}.

(** ** Permission sets, tag types and entries, stated apart from the code

    What the container and the array are to hold, written bit by bit and
    as a table rather than with the expressions and the switches of
    acl_native.c, for the theorems to compare the code with. *)

(** [flag] when bit [k] of [x] is set. *)
Definition flag_if_bit (x k flag : Z) : Z := if Z.testbit x k then flag else 0.

(** The permission sets of a mode.  Bits 8, 7 and 6 of a mode are the
    owner's read, write and execute, bits 5, 4 and 3 the group's, bits 2, 1
    and 0 those of others; bit 11 is set-user-ID, bit 10 set-group-ID and
    bit 9 the sticky bit, which the container keeps with the owner. *)
Definition owner_set (mode : Z) : Z :=
  flag_if_bit mode 8 FILE_PERMISSION_READ
  + flag_if_bit mode 7 FILE_PERMISSION_WRITE
  + flag_if_bit mode 6 FILE_PERMISSION_EXECUTE
  + flag_if_bit mode 11 FILE_PERMISSION_SETID
  + flag_if_bit mode 9 FILE_PERMISSION_STICKY.

Definition group_set (mode : Z) : Z :=
  flag_if_bit mode 5 FILE_PERMISSION_READ
  + flag_if_bit mode 4 FILE_PERMISSION_WRITE
  + flag_if_bit mode 3 FILE_PERMISSION_EXECUTE
  + flag_if_bit mode 10 FILE_PERMISSION_SETID.

Definition other_set (mode : Z) : Z :=
  flag_if_bit mode 2 FILE_PERMISSION_READ
  + flag_if_bit mode 1 FILE_PERMISSION_WRITE
  + flag_if_bit mode 0 FILE_PERMISSION_EXECUTE.




(** The tag types of acl_native.h, 1 to 6. *)
Definition known_tagType (t : Z) : bool := (1 <=? t) && (t <=? 6).







(** ** Sample states *)

(** A regular file [/f] of user 1000 and group 100 with mode 0640 and a
    five-entry access ACL, and a directory [/d] with mode 03775, a minimal
    access ACL and a five-entry default ACL.  Descriptors 0 to 2 are
    taken. *)
Definition sample_acl : list acl_ent :=
  [ {| a_tag := ACL_USER_OBJ; a_id := ACL_UNDEFINED_ID; a_perm := 6 |};
    {| a_tag := ACL_USER; a_id := 1001; a_perm := 4 |};
    {| a_tag := ACL_GROUP_OBJ; a_id := ACL_UNDEFINED_ID; a_perm := 4 |};
    {| a_tag := ACL_MASK; a_id := ACL_UNDEFINED_ID; a_perm := 4 |};
    {| a_tag := ACL_OTHER; a_id := ACL_UNDEFINED_ID; a_perm := 0 |} ].

Definition sample_inode : inode :=
  {| i_mode := S_IFREG .| 0x1a0 (* 0640 *); i_uid := 1000; i_gid := 100;
     i_access := sample_acl; i_default := [] |}.

Definition sample_directory : inode :=
  {| i_mode := S_IFDIR .| 0x7fd (* 03775 *); i_uid := 0; i_gid := 50;
     i_access :=
       [ {| a_tag := ACL_USER_OBJ; a_id := ACL_UNDEFINED_ID; a_perm := 7 |};
         {| a_tag := ACL_GROUP_OBJ; a_id := ACL_UNDEFINED_ID; a_perm := 7 |};
         {| a_tag := ACL_OTHER; a_id := ACL_UNDEFINED_ID; a_perm := 5 |} ];
     i_default :=
       [ {| a_tag := ACL_USER_OBJ; a_id := ACL_UNDEFINED_ID; a_perm := 7 |};
         {| a_tag := ACL_GROUP_OBJ; a_id := ACL_UNDEFINED_ID; a_perm := 5 |};
         {| a_tag := ACL_GROUP; a_id := 100; a_perm := 7 |};
         {| a_tag := ACL_MASK; a_id := ACL_UNDEFINED_ID; a_perm := 7 |};
         {| a_tag := ACL_OTHER; a_id := ACL_UNDEFINED_ID; a_perm := 0 |} ] |}.

Definition sample_platform (xsi : bool) (injected : list (option Z)) : world :=
  {| fs := <["/f"%string := sample_inode]> (<["/d"%string := sample_directory]> ∅);
     fdt := <[0 := "/dev/stdin"%string]>
              (<[1 := "/dev/stdout"%string]> (<[2 := "/dev/stderr"%string]> ∅));
     heap := ∅;
     errno := 0;
     faults := injected;
     fd_limit := 16;
     heap_limit := 16;
     xsi_strerror_r := xsi |}.

Definition sample_world : list (option Z) -> world := sample_platform true.

Definition blank_entry : native_acl_entry_t :=
  {| tagType := 0; tagQualifier := 0; permissions := 0 |}.

(** The minimal ACL, as the caller's array. *)
Definition minimal_entries (i : nat) : native_acl_entry_t :=
  match i with
  | O => {| tagType := ACL_ENTRY_TAG_TYPE_USER_OBJ; tagQualifier := 0; permissions := 6 |}
  | S O => {| tagType := ACL_ENTRY_TAG_TYPE_GROUP_OBJ; tagQualifier := 0; permissions := 4 |}
  | S (S O) => {| tagType := ACL_ENTRY_TAG_TYPE_OTHER; tagQualifier := 0; permissions := 0 |}
  | _ => blank_entry
  end.

Definition sample_container (owner group size : Z) : native_permission_data_container_t :=
  {| ownerId := owner; ownerPermissions := 6; groupId := group; groupPermissions := 4;
     otherPermissions := 0; aclSize := size |}.

Definition sample_machine (injected : list (option Z))
    (dc : native_permission_data_container_t) (arr : nat -> native_acl_entry_t)
    : machine :=
  {| _fd := NULL; _acl := NULL; _lastErrnoValue := 0; _lastErrnoString := EmptyString;
     os := sample_world injected; dataContainer := dc; entries := arr |}.

(** The state that a first phase of a read of [path] leaves, with the
    faults [injected] for the calls that follow. *)
Definition opened (path : string) (injected : list (option Z))
    (arr : nat -> native_acl_entry_t) : machine :=
  let m := (OpenFileAndReadPermissionData 8 path 0
              (sample_machine [] (sample_container 0 0 0) arr)).1.2 in
  set_os (set_faults injected (os m)) m.


(** ** Vocabulary of the further properties *)

(** Calls that change neither a file's metadata nor its ACL. *)
Definition reads_only (ev : event) : bool :=
  match name_of (ev_call ev) with
  | n_open | n_close | n_fstat | n_acl_get_fd | n_acl_free | n_acl_get_entry
  | n_acl_get_tag_type | n_acl_get_qualifier | n_acl_get_permset | n_acl_get_perm => true
  | _ => false
  end.

(** The error kinds on the [return] statements of each operation. *)
Definition may_return (op : operation) (e : native_error_code_t) : bool :=
  match op, e with
  | _, NATIVE_ERROR_SUCCESS => true
  | OpOpen _ _, (NATIVE_ERROR_OPEN_FAILED | NATIVE_ERROR_FSTAT_FAILED
                 | NATIVE_ERROR_GET_ACL_FAILED | NATIVE_ERROR_GET_ACL_ENTRY_FAILED) => true
  | OpRead, (NATIVE_ERROR_GET_ACL_ENTRY_FAILED
             | NATIVE_ERROR_GET_ACL_ENTRY_TAG_TYPE_FAILED
             | NATIVE_ERROR_GET_ACL_ENTRY_QUALIFIER_FAILED
             | NATIVE_ERROR_GET_ACL_ENTRY_PERMSET_FAILED
             | NATIVE_ERROR_GET_ACL_ENTRY_PERM_FAILED) => true
  | OpSet _ _, (NATIVE_ERROR_OPEN_FAILED | NATIVE_ERROR_FSTAT_FAILED
                | NATIVE_ERROR_CHOWN_FAILED | NATIVE_ERROR_CHMOD_FAILED
                | NATIVE_ERROR_INIT_ACL_FAILED | NATIVE_ERROR_CREATE_ACL_ENTRY_FAILED
                | NATIVE_ERROR_INVALID_TAG_TYPE
                | NATIVE_ERROR_SET_ACL_ENTRY_TAG_TYPE_FAILED
                | NATIVE_ERROR_SET_ACL_ENTRY_QUALIFIER_FAILED
                | NATIVE_ERROR_GET_ACL_ENTRY_PERMSET_FAILED
                | NATIVE_ERROR_CLEAR_ACL_ENTRY_PERMS_FAILED
                | NATIVE_ERROR_ADD_ACL_ENTRY_PERM_FAILED
                | NATIVE_ERROR_VALIDATE_ACL_FAILED | NATIVE_ERROR_SET_ACL_FAILED) => true
  | _, _ => false
  end.

(** Whether an operation that returned [e] is to leave a session behind:
    a successful first phase of a read does; so does, by what [_fd] then
    holds, a failed [open]. *)
Definition leaves_session (op : operation) (e : native_error_code_t) : bool :=
  match op, e with
  | OpOpen _ _, NATIVE_ERROR_SUCCESS => true
  | _, NATIVE_ERROR_OPEN_FAILED => true
  | _, _ => false
  end.

(** Error kinds of the steps of [SetFilePermissionDataAndAcl] that come
    before the mode change. *)
Definition before_mode_change (e : native_error_code_t) : bool :=
  match e with
  | NATIVE_ERROR_OPEN_FAILED | NATIVE_ERROR_FSTAT_FAILED | NATIVE_ERROR_CHOWN_FAILED => true
  | _ => false
  end.
(** * Properties *)

(** ** The permission codec *)

Lemma restricted_ones (n p : Z) :
  0 <= n -> restricted (Z.ones n) p -> 0 <= p < 2 ^ n.
Proof.
  unfold restricted. intros Hn Hp. rewrite Z.land_ones in Hp by assumption.
  rewrite <- Hp. apply Z.mod_pos_bound. apply Z.pow_pos_nonneg; lia.
Qed.

Lemma triple_eqb_eq (a b : Z * Z * Z) : triple_eqb a b = true -> a = b.
Proof.
  destruct a as [[a1 a2] a3], b as [[b1 b2] b3]. unfold triple_eqb. simpl.
  rewrite !andb_true_iff, !Z.eqb_eq. intros [[-> ->] ->]. reflexivity.
Qed.

Lemma forallb_seqZ (f : Z -> bool) (lo n x : Z) :
  forallb f (seqZ lo n) = true -> lo <= x < lo + n -> f x = true.
Proof.
  intros H Hx. rewrite forallb_forall in H. apply H.
  apply list_elem_of_In, elem_of_seqZ. exact Hx.
Qed.

Lemma decode_encode_table :
  forallb (fun o => forallb (fun g => forallb (fun t =>
    triple_eqb (decodeMode (encodeMode o g t)) (o, g, t))
    (seqZ 0 8)) (seqZ 0 16)) (seqZ 0 32) = true.
Proof. vm_compute. reflexivity. Qed.

Lemma encode_decode_table :
  forallb (fun mode =>
    encodeMode (decodeOwner mode) (decodeGroup mode) (decodeOther mode) =? mode)
    (seqZ 0 4096) = true.
Proof. vm_compute. reflexivity. Qed.

(** C1. Round trip of the permission codec: a triple of owner, group and
    other permissions restricted to the bits its class can represent
    (read/write/execute for all, SetId for owner and group, Sticky for owner)
    is what decoding its encoded mode gives back; and a mode made of
    permission bits only is what encoding its decoded triple gives back. *)
Theorem mode_round_trip :
  (forall o g t : Z,
      restricted OWNER_BITS o -> restricted GROUP_BITS g -> restricted OTHER_BITS t ->
      decodeMode (encodeMode o g t) = (o, g, t))
  /\ (forall mode : Z,
      restricted ALLPERMS mode ->
      encodeMode (decodeOwner mode) (decodeGroup mode) (decodeOther mode) = mode).
Proof.
  split.
  - intros o g t Ho Hg Ht.
    apply (restricted_ones 5) in Ho; [|lia].
    apply (restricted_ones 4) in Hg; [|lia].
    apply (restricted_ones 3) in Ht; [|lia].
    apply triple_eqb_eq.
    pose proof decode_encode_table as T.
    apply (forallb_seqZ _ _ _ o) in T; [|lia].
    apply (forallb_seqZ _ _ _ g) in T; [|lia].
    apply (forallb_seqZ _ _ _ t) in T; [|lia].
    exact T.
  - intros mode Hm.
    apply (restricted_ones 12) in Hm; [|lia].
    pose proof encode_decode_table as T.
    apply (forallb_seqZ _ _ _ mode) in T; [|lia].
    apply Z.eqb_eq. exact T.
Qed.

Lemma mode_round_trip_witness :
  decodeMode (encodeMode 0x1d 0xd 0x5) = (0x1d, 0xd, 0x5)
  /\ encodeMode (decodeOwner 0xded) (decodeGroup 0xded) (decodeOther 0xded) = 0xded.
Proof.
  split.
  - apply (proj1 mode_round_trip); reflexivity.
  - apply (proj2 mode_round_trip); reflexivity.
Defined.

(** A mode as [fstat] reports it carries the file type above the permission
    bits; encoding its decoded triple gives back the permission bits. *)
Lemma encode_decode_st_mode (mode : Z) :
  encodeMode (decodeOwner mode) (decodeGroup mode) (decodeOther mode)
  = encodeMode (decodeOwner (mode .& ALLPERMS)) (decodeGroup (mode .& ALLPERMS))
      (decodeOther (mode .& ALLPERMS)).
Proof.
  assert (E : forall b, b .& ALLPERMS = b -> mode .& ALLPERMS .& b = mode .& b).
  { intros b Hb. rewrite <- Z.land_assoc, (Z.land_comm ALLPERMS), Hb. reflexivity. }
  unfold decodeOwner, decodeGroup, decodeOther.
  rewrite !E by reflexivity. reflexivity.
Qed.

(** ** The code's expressions and their independent statements *)

Lemma truthy_land_bit (x k : Z) : 0 <= k -> truthy (x .& 2 ^ k) = Z.testbit x k.
Proof.
  intros Hk. unfold truthy.
  destruct (Z.testbit x k) eqn:B.
  - apply negb_true_iff, Z.eqb_neq. intros H.
    assert (T : Z.testbit (x .& 2 ^ k) k = true).
    { rewrite Z.land_spec, B, Z.pow2_bits_true by exact Hk. reflexivity. }
    rewrite H, Z.bits_0 in T. discriminate T.
  - apply negb_false_iff, Z.eqb_eq. apply Z.bits_inj'. intros n Hn.
    rewrite Z.land_spec, Z.bits_0.
    destruct (Z.eq_dec n k) as [-> | Hne].
    + rewrite B. reflexivity.
    + rewrite Z.pow2_bits_false by lia. apply andb_false_r.
Qed.

Lemma truthy_land_flag (x c k : Z) :
  c = 2 ^ k -> 0 <= k -> truthy (x .& c) = Z.testbit x k.
Proof. intros ->. apply truthy_land_bit. Qed.

Ltac bits_of_mode :=
  repeat match goal with
  | |- context [truthy (?x .& ?c)] =>
      let k := eval vm_compute in (Z.log2 c) in
      rewrite (truthy_land_flag x c k eq_refl) by lia
  end.

Lemma decodeOwner_owner_set (mode : Z) : decodeOwner mode = owner_set mode.
Proof.
  unfold decodeOwner, owner_set, flag_if_bit,
    S_IRUSR, S_IWUSR, S_IXUSR, S_ISUID, S_ISVTX.
  bits_of_mode.
  destruct (Z.testbit mode 8), (Z.testbit mode 7), (Z.testbit mode 6),
    (Z.testbit mode 11), (Z.testbit mode 9); reflexivity.
Qed.

Lemma decodeGroup_group_set (mode : Z) : decodeGroup mode = group_set mode.
Proof.
  unfold decodeGroup, group_set, flag_if_bit, S_IRGRP, S_IWGRP, S_IXGRP, S_ISGID.
  bits_of_mode.
  destruct (Z.testbit mode 5), (Z.testbit mode 4), (Z.testbit mode 3),
    (Z.testbit mode 10); reflexivity.
Qed.

Lemma decodeOther_other_set (mode : Z) : decodeOther mode = other_set mode.
Proof.
  unfold decodeOther, other_set, flag_if_bit, S_IROTH, S_IWOTH, S_IXOTH.
  bits_of_mode.
  destruct (Z.testbit mode 2), (Z.testbit mode 1), (Z.testbit mode 0); reflexivity.
Qed.







(** ** Running computations *)

Lemma holds_elim {A : Type} (c : M A) (m : machine) Q a m' t :
  holds c m Q -> c m = (a, m', t) -> Q a m' t.
Proof. unfold holds. intros H E. rewrite E in H. exact H. Qed.

Lemma holds_intro {A : Type} (c : M A) (m : machine) (Q : A -> machine -> list event -> Prop) :
  (forall a m' t, c m = (a, m', t) -> Q a m' t) -> holds c m Q.
Proof. unfold holds. intros H. apply H. destruct (c m) as [[a m'] t]. reflexivity. Qed.

Lemma holds_mono {A : Type} (c : M A) (m : machine)
    (Q Q' : A -> machine -> list event -> Prop) :
  holds c m Q -> (forall a m' t, Q a m' t -> Q' a m' t) -> holds c m Q'.
Proof. unfold holds. intros H HQ. apply HQ, H. Qed.

Lemma holds_and {A : Type} (c : M A) (m : machine)
    (Q Q' : A -> machine -> list event -> Prop) :
  holds c m Q -> holds c m Q' -> holds c m (fun a m' t => Q a m' t /\ Q' a m' t).
Proof. unfold holds. intros H H'. split; assumption. Qed.

Lemma holds_ret {A : Type} (a : A) (m : machine) Q :
  Q a m [] -> holds (mret a) m Q.
Proof. intros H. exact H. Qed.

Lemma holds_bind {A B : Type} (c : M A) (k : A -> M B) (m : machine) Q :
  holds c m (fun a m1 t1 => holds (k a) m1 (fun b m2 t2 => Q b m2 (t1 ++ t2))) ->
  holds (c ≫= k) m Q.
Proof.
  unfold holds, mbind, M_bind.
  destruct (c m) as [[a m1] t1]. simpl.
  destruct (k a m1) as [[b m2] t2]. simpl. auto.
Qed.

Lemma holds_read {A : Type} (f : machine -> A) (m : machine) Q :
  Q (f m) m [] -> holds (read f) m Q.
Proof. intros H. exact H. Qed.

Lemma holds_write (f : machine -> machine) (m : machine) Q :
  Q tt (f m) [] -> holds (write f) m Q.
Proof. intros H. exact H. Qed.

Lemma holds_syscall {R : Type} (c : call) (status : R -> Z) (f : world -> R * world)
    (m : machine) Q :
  (forall r w, f (os m) = (r, w) ->
     Q r (set_os w m) [{| ev_call := c; ev_ret := status r; ev_errno := errno w |}]) ->
  holds (syscall c status f) m Q.
Proof.
  unfold holds, syscall. intros H.
  destruct (f (os m)) as [r w] eqn:E. simpl. apply H. reflexivity.
Qed.

Ltac unfold_calls :=
  unfold open, close, fstat, fchown, fchmod, acl_get_fd, acl_free, acl_get_entry,
    acl_get_tag_type, acl_get_qualifier, acl_get_permset, acl_get_perm, acl_init,
    acl_create_entry, acl_set_tag_type, acl_set_qualifier, acl_clear_perms,
    acl_add_perm, acl_valid, acl_set_fd.

(** Projections of updated states and structs, computed. *)
Ltac simpl_machine :=
  cbn [_fd _acl _lastErrnoValue _lastErrnoString os dataContainer entries
       set__fd set__acl set__lastErrnoValue set__lastErrnoString set_os
       set_dataContainer set_entries update_container update_entries
       ownerId ownerPermissions groupId groupPermissions otherPermissions aclSize
       set_ownerId set_ownerPermissions set_groupId set_groupPermissions
       set_otherPermissions set_aclSize
       ev_call ev_ret ev_errno fst snd].

Ltac simpl_machine_in H :=
  cbn [_fd _acl _lastErrnoValue _lastErrnoString os dataContainer entries
       set__fd set__acl set__lastErrnoValue set__lastErrnoString set_os
       set_dataContainer set_entries update_container update_entries
       ownerId ownerPermissions groupId groupPermissions otherPermissions aclSize
       set_ownerId set_ownerPermissions set_groupId set_groupPermissions
       set_otherPermissions set_aclSize
       ev_call ev_ret ev_errno fst snd] in H.

Ltac simpl_machine_all :=
  cbn [_fd _acl _lastErrnoValue _lastErrnoString os dataContainer entries
       set__fd set__acl set__lastErrnoValue set__lastErrnoString set_os
       set_dataContainer set_entries update_container update_entries
       ownerId ownerPermissions groupId groupPermissions otherPermissions aclSize
       set_ownerId set_ownerPermissions set_groupId set_groupPermissions
       set_otherPermissions set_aclSize
       ev_call ev_ret ev_errno fst snd] in *.

(** One step of symbolic execution. *)
Ltac wp_step :=
  lazymatch goal with
  | |- holds (mbind _ _) _ _ => apply holds_bind
  | |- holds (mret _) _ _ => apply holds_ret
  | |- holds (read _) _ _ => apply holds_read
  | |- holds (write _) _ _ => apply holds_write
  | |- holds (syscall _ _ _) _ _ =>
      let r := fresh "r" in let w := fresh "w" in let E := fresh "E" in
      apply holds_syscall; simpl_machine; intros r w E
  | |- holds (let '(_, _) := ?p in _) _ _ => destruct p
  | |- holds (if 0 <? 0 then _ else _) _ _ => change (0 <? 0) with false; cbv iota
  | |- holds (if ?b then _ else _) _ _ =>
      let C := fresh "C" in destruct b eqn:C
  | |- holds (match ?x with Some _ => _ | None => _ end) _ _ =>
      let C := fresh "C" in destruct x eqn:C
  | |- holds (return_ _) _ _ => unfold return_
  | |- holds (return_from_loop _) _ _ => unfold return_from_loop
  | |- holds store_errno _ _ => unfold store_errno
  | |- holds (cleanup_with_error_code _) _ _ => unfold cleanup_with_error_code
  | |- holds ?c _ _ => progress unfold_calls
  end.

Ltac wp := repeat (wp_step; simpl_machine).

(** ** The platform calls *)

Ltac os_inv E :=
  unfold os_open, os_close, os_fstat, os_fchown, os_fchmod, os_acl_get_fd, os_acl_free,
    os_acl_get_entry, os_acl_get_tag_type, os_acl_get_qualifier, os_acl_get_permset,
    os_acl_get_perm, os_acl_init, os_acl_create_entry, os_acl_set_tag_type,
    os_acl_set_qualifier, os_acl_clear_perms, os_acl_add_perm, os_acl_valid,
    os_acl_set_fd, fallible, alloc, fail_with, update_entry in E;
  repeat case_match; simplify_eq.

Lemma first_free_spec {A : Type} (tbl : gmap Z A) (k : Z) (n : nat) (p : Z) :
  first_free tbl k n = Some p -> tbl !! p = None /\ k <= p.
Proof.
  revert k. induction n as [|n IH]; intros k; simpl; [discriminate|].
  destruct (tbl !! k) eqn:E.
  - intros H. apply IH in H. split; [tauto | lia].
  - intros [= <-]. split; [assumption | lia].
Qed.

Lemma files_kept_refl w : files_kept w w.
Proof. split; reflexivity. Qed.

Lemma files_kept_trans w1 w2 w3 : files_kept w1 w2 -> files_kept w2 w3 -> files_kept w1 w3.
Proof. unfold files_kept. intros [-> ->] [-> ->]. split; reflexivity. Qed.

Lemma os_acl_get_entry_files acl which w r w' :
  os_acl_get_entry acl which w = (r, w') -> files_kept w w'.
Proof. intros E. os_inv E; split; reflexivity. Qed.

Lemma os_acl_get_tag_type_files e w r w' :
  os_acl_get_tag_type e w = (r, w') -> files_kept w w'.
Proof. intros E. os_inv E; split; reflexivity. Qed.

Lemma os_acl_get_qualifier_files e w r w' :
  os_acl_get_qualifier e w = (r, w') -> files_kept w w'.
Proof. intros E. os_inv E; split; reflexivity. Qed.

Lemma os_acl_get_permset_files e w r w' :
  os_acl_get_permset e w = (r, w') -> files_kept w w'.
Proof. intros E. os_inv E; split; reflexivity. Qed.

Lemma os_acl_get_perm_files e p w r w' :
  os_acl_get_perm e p w = (r, w') -> files_kept w w'.
Proof. intros E. os_inv E; split; reflexivity. Qed.

Lemma os_acl_free_files p w r w' :
  os_acl_free p w = (r, w') -> files_kept w w'.
Proof. intros E. os_inv E; split; reflexivity. Qed.

Lemma os_acl_get_fd_files fd type w r w' :
  os_acl_get_fd fd type w = (r, w') -> files_kept w w'.
Proof. intros E. os_inv E; split; reflexivity. Qed.

Lemma os_acl_init_files n w r w' :
  os_acl_init n w = (r, w') -> files_kept w w'.
Proof. intros E. os_inv E; split; reflexivity. Qed.

Lemma os_acl_create_entry_files acl w r w' :
  os_acl_create_entry acl w = (r, w') -> files_kept w w'.
Proof. intros E. os_inv E; split; reflexivity. Qed.

Lemma os_acl_set_tag_type_files e t w r w' :
  os_acl_set_tag_type e t w = (r, w') -> files_kept w w'.
Proof. intros E. os_inv E; split; reflexivity. Qed.

Lemma os_acl_set_qualifier_files e q w r w' :
  os_acl_set_qualifier e q w = (r, w') -> files_kept w w'.
Proof. intros E. os_inv E; split; reflexivity. Qed.

Lemma os_acl_clear_perms_files e w r w' :
  os_acl_clear_perms e w = (r, w') -> files_kept w w'.
Proof. intros E. os_inv E; split; reflexivity. Qed.

Lemma os_acl_add_perm_files e p w r w' :
  os_acl_add_perm e p w = (r, w') -> files_kept w w'.
Proof. intros E. os_inv E; split; reflexivity. Qed.

Lemma os_acl_valid_files acl w r w' :
  os_acl_valid acl w = (r, w') -> files_kept w w'.
Proof. intros E. os_inv E; split; reflexivity. Qed.

Lemma os_acl_set_fd_failed_files fd acl w r w' :
  os_acl_set_fd fd acl w = (r, w') -> (r <? 0) = true -> files_kept w w'.
Proof. intros E. os_inv E; intros; try discriminate; split; reflexivity. Qed.

Lemma os_fstat_files fd w r w' :
  os_fstat fd w = (r, w') -> files_kept w w' /\ heap w' = heap w.
Proof. intros E. os_inv E; repeat split; reflexivity. Qed.

Lemma os_close_fs fd w r w' :
  os_close fd w = (r, w') -> fs w' = fs w /\ heap w' = heap w.
Proof. intros E. unfold os_close, fail_with in E. repeat case_match; simplify_eq; split; reflexivity. Qed.

(** [open]: a negative result and nothing changed but errno, or the lowest
    free descriptor, now bound to the path. *)
Lemma os_open_spec path flags w r w' :
  os_open path flags w = (r, w') ->
  fs w' = fs w /\ heap w' = heap w
  /\ (if r <? 0 then fdt w' = fdt w
      else 0 <= r /\ is_Some (fs w !! path) /\ fdt w' = <[r := path]> (fdt w)).
Proof.
  intros E. os_inv E; simpl; repeat split; try reflexivity.
  all: match goal with
       | H : first_free _ _ _ = Some _ |- _ =>
           pose proof (first_free_spec _ _ _ _ H) as [? ?]
       end.
  all: destruct (r <? 0) eqn:C; [apply Z.ltb_lt in C; lia|].
  all: repeat split; simpl; eauto; lia.
Qed.

(** [fstat] on a descriptor bound to a path: the three members read. *)
Lemma os_fstat_spec fd w r s w' path :
  os_fstat fd w = (r, s, w') -> (r <? 0) = false -> fdt w !! fd = Some path ->
  exists ino, fs w !! path = Some ino
    /\ s = {| st_mode := i_mode ino; st_uid := i_uid ino; st_gid := i_gid ino |}.
Proof.
  intros E Hr Hfd. unfold os_fstat, fallible, fail_with, inode_of_fd in E.
  simpl in E. repeat case_match; simplify_eq; eauto.
Qed.

Lemma os_fchown_spec fd owner group w r w' path :
  os_fchown fd owner group w = (r, w') -> (r <? 0) = false -> fdt w !! fd = Some path ->
  fdt w' = fdt w /\ heap w' = heap w
  /\ exists ino, fs w !! path = Some ino
    /\ fs w' = <[path := {| i_mode := i_mode ino;
                            i_uid := chown_id (i_uid ino) owner;
                            i_gid := chown_id (i_gid ino) group;
                            i_access := i_access ino;
                            i_default := i_default ino |}]> (fs w).
Proof.
  intros E Hr Hfd. unfold os_fchown, fallible, fail_with, inode_of_fd in E.
  simpl in E. repeat case_match; simplify_eq; simpl; eauto.
Qed.

Lemma os_fchmod_spec fd mode w r w' path :
  os_fchmod fd mode w = (r, w') -> (r <? 0) = false -> fdt w !! fd = Some path ->
  fdt w' = fdt w /\ heap w' = heap w
  /\ exists ino, fs w !! path = Some ino
    /\ fs w' = <[path := {| i_mode := (i_mode ino .& S_IFMT) .| (mode .& ALLPERMS);
                            i_uid := i_uid ino;
                            i_gid := i_gid ino;
                            i_access := i_access ino;
                            i_default := i_default ino |}]> (fs w).
Proof.
  intros E Hr Hfd. unfold os_fchmod, fallible, fail_with, inode_of_fd in E.
  simpl in E. repeat case_match; simplify_eq; simpl; eauto.
Qed.

(** ** The utility functions *)

Lemma truthy_false (z : Z) : truthy z = false -> z = 0.
Proof. unfold truthy. intros H. apply negb_false_iff, Z.eqb_eq in H. exact H. Qed.

Lemma truthy_true (z : Z) : truthy z = true -> z <> 0.
Proof. unfold truthy. intros H. apply negb_true_iff, Z.eqb_neq in H. exact H. Qed.

Lemma cleanup_spec (e : native_error_code_t) (m : machine) :
  holds (cleanup_with_error_code e) m (fun r m' t =>
    r = e /\ _fd m' = NULL /\ _acl m' = NULL
    /\ _lastErrnoValue m' = _lastErrnoValue m
    /\ _lastErrnoString m' = _lastErrnoString m
    /\ dataContainer m' = dataContainer m
    /\ entries m' = entries m
    /\ fs (os m') = fs (os m)
    /\ cleanup_events m t).
Proof.
  unfold cleanup_events. wp.
  all: repeat match goal with
       | H : truthy _ = false |- _ => apply truthy_false in H
       | H : os_acl_free _ _ = _ |- _ => apply os_acl_free_files in H; destruct H
       | H : os_close _ _ = _ |- _ => apply os_close_fs in H; destruct H
       end.
  all: unfold NULL; repeat apply conj; try congruence.
  all: eexists _, _, _, _; simpl; reflexivity.
  Unshelve. all: exact 0.
Qed.

Lemma os_acl_free_platform p w r w' :
  os_acl_free p w = (r, w') -> xsi_strerror_r w' = xsi_strerror_r w.
Proof. intros E. os_inv E; reflexivity. Qed.

Lemma os_close_platform fd w r w' :
  os_close fd w = (r, w') -> xsi_strerror_r w' = xsi_strerror_r w.
Proof.
  intros E. unfold os_close, fail_with in E. repeat case_match; simplify_eq; reflexivity.
Qed.

Lemma cleanup_platform (e : native_error_code_t) (m : machine) :
  holds (cleanup_with_error_code e) m (fun _ m' _ =>
    xsi_strerror_r (os m') = xsi_strerror_r (os m)).
Proof.
  wp.
  all: repeat match goal with
       | H : os_acl_free _ _ = _ |- _ => apply os_acl_free_platform in H
       | H : os_close _ _ = _ |- _ => apply os_close_platform in H
       end.
  all: congruence.
Qed.

Lemma failure_spec (e : native_error_code_t) (m : machine) :
  holds (store_errno ≫= (fun _ => return_ (cleanup_with_error_code e))) m
    (fun r m' t => r = Some e /\ failure_exit m m' t).
Proof.
  unfold store_errno, return_. wp_step. wp_step. wp_step. wp_step. wp_step. wp_step.
  wp_step. wp_step.
  eapply holds_mono; [apply holds_and; [apply cleanup_spec | apply cleanup_platform]|].
  simpl_machine. intros r m' t [(-> & ? & ? & ? & Hs & ? & ? & ? & ?) Hp].
  wp_step. unfold failure_exit, cleanup_events in *. simpl in *.
  rewrite app_nil_r. unfold os_strerror_r in *. rewrite Hp, Hs. tauto.
Qed.

Lemma failure_in_loop_spec {A : Type} (e : native_error_code_t) (m : machine) :
  holds (store_errno ≫= (fun _ => return_from_loop (A := A) (cleanup_with_error_code e))) m
    (fun r m' t => r = Returned e /\ failure_exit m m' t).
Proof.
  unfold store_errno, return_from_loop. wp_step. wp_step. wp_step. wp_step. wp_step.
  wp_step. wp_step. wp_step.
  eapply holds_mono; [apply holds_and; [apply cleanup_spec | apply cleanup_platform]|].
  simpl_machine. intros r m' t [(-> & ? & ? & ? & Hs & ? & ? & ? & ?) Hp].
  wp_step. unfold failure_exit, cleanup_events in *. simpl in *.
  rewrite app_nil_r. unfold os_strerror_r in *. rewrite Hp, Hs. tauto.
Qed.

Lemma cleanup_exit_spec (e : native_error_code_t) (m : machine) :
  holds (cleanup_with_error_code e) m (fun r m' t => r = e /\ cleanup_exit m m' t).
Proof. apply cleanup_spec. Qed.

(** Symbolic execution that takes the two ways out of a function as one
    step each. *)
Ltac wp_step' :=
  lazymatch goal with
  | |- holds (store_errno ≫= (fun _ => return_ (cleanup_with_error_code ?e))) ?m _ =>
      let H := fresh "Hexit" in
      eapply holds_mono; [apply (failure_spec e m)|];
      intros ? ? ? [-> H]
  | |- holds (store_errno ≫= (fun _ => return_from_loop (cleanup_with_error_code ?e))) ?m _ =>
      let H := fresh "Hexit" in
      eapply holds_mono; [apply (failure_in_loop_spec e m)|];
      intros ? ? ? [-> H]
  | |- holds (cleanup_with_error_code ?e) ?m _ =>
      let H := fresh "Hexit" in
      eapply holds_mono; [apply (cleanup_exit_spec e m)|];
      intros ? ? ? [-> H]
  | |- _ => wp_step
  end.

Ltac wp' := repeat (wp_step'; simpl_machine).

Lemma walk_end_nil st e : walk_end st e [] st e.
Proof. left. auto. Qed.

Lemma walk_end_cons st e ev t st' e' :
  name_of (ev_call ev) = n_acl_get_entry ->
  walk_end (ev_ret ev) (ev_errno ev) t st' e' ->
  walk_end st e (ev :: t) st' e'.
Proof.
  intros Hn [(-> & -> & ->) | (t0 & ev' & -> & ? & ? & ?)]; right.
  - exists [], ev. auto.
  - exists (ev :: t0), ev'. auto.
Qed.

Lemma session_kept_refl m : session_kept m m.
Proof. unfold session_kept, files_kept. tauto. Qed.

Lemma count_entries_control fuel st n m :
  holds (count_entries fuel st n) m (fun res m' t =>
    match res with
    | Returned _ => False
    | OutOfFuel => True
    | Exited (st', n') =>
        session_kept m m' /\ entries m' = entries m
        /\ Forall acquires_nothing t
        /\ walk_end st (errno (os m)) t st' (errno (os m'))
    end).
Proof.
  revert st n m. induction fuel as [|fuel IH]; intros st n m; simpl.
  - wp'. exact I.
  - wp'.
    + eapply holds_mono; [apply IH|]. simpl_machine.
      intros [e|[st' n']|] m' t; auto.
      intros (K & He & Ht & Hw).
      apply os_acl_get_entry_files in E.
      destruct E as [E1 E2].
      split; [|split; [|split]].
      * unfold session_kept, files_kept in *. simpl_machine_in K.
        intuition congruence.
      * exact He.
      * constructor; [split; reflexivity | exact Ht].
      * apply walk_end_cons; [reflexivity | exact Hw].
    + split; [|split; [|split]]; auto using session_kept_refl, walk_end_nil.
Qed.

(** ** The error channel *)

Lemma cleanup_events_release m t : cleanup_events m t -> forallb is_release t = true.
Proof.
  intros (r1 & e1 & r2 & e2 & ->).
  destruct (truthy (_acl m)), (truthy (_fd m)); reflexivity.
Qed.

Lemma captured_here n m0 m' ev tc :
  failure_exit m0 m' tc ->
  name_of (ev_call ev) = n -> failed ev = true -> ev_errno ev = errno (os m0) ->
  captured n m' (ev :: tc).
Proof.
  intros (_ & _ & Hv & Hs & _ & _ & _ & Hc) Hn Hf He.
  exists [], ev, tc. rewrite He.
  repeat apply conj; try reflexivity; try assumption.
  - eapply cleanup_events_release; eassumption.
  - intros Hx. rewrite Hs. unfold os_strerror_r. rewrite Hx. reflexivity.
Qed.

Lemma captured_cons n m' ev t : captured n m' t -> captured n m' (ev :: t).
Proof.
  intros (t1 & ev' & t2 & -> & H). exists (ev :: t1), ev', t2. split; [reflexivity | exact H].
Qed.

Lemma captured_app n m' t0 t : captured n m' t -> captured n m' (t0 ++ t).
Proof.
  intros (t1 & ev' & t2 & -> & H). exists (t0 ++ t1), ev', t2.
  split; [apply app_assoc | exact H].
Qed.

Lemma captured_walk n m0 m' pre st e t st' tc :
  n = n_acl_get_entry ->
  walk_end st e t st' (errno (os m0)) ->
  (st' <? 0) = true ->
  name_of (ev_call pre) = n_acl_get_entry -> ev_ret pre = st -> ev_errno pre = e ->
  failure_exit m0 m' tc ->
  captured n m' (pre :: t ++ tc).
Proof.
  intros -> [(-> & -> & <-) | (t0 & ev & -> & Hn & Hr & He)] Hst Hp Hpr Hpe Hx.
  - simpl. eapply captured_here; eauto. unfold failed. rewrite Hp. simpl. congruence.
  - apply captured_cons. rewrite <- app_assoc. apply captured_app. simpl.
    eapply captured_here; eauto. unfold failed. rewrite Hn. simpl. congruence.
Qed.

Lemma failed_pointer ev :
  returns_pointer (name_of (ev_call ev)) = true ->
  negb (truthy (ev_ret ev)) = true -> failed ev = true.
Proof.
  unfold failed, truthy. intros ->. rewrite negb_involutive. auto.
Qed.

Lemma failed_status ev :
  returns_pointer (name_of (ev_call ev)) = false ->
  (ev_ret ev <? 0) = true -> failed ev = true.
Proof. unfold failed. intros ->. auto. Qed.

(** The failed call is the last one made before the way out. *)
Ltac solve_captured :=
  simpl; rewrite ?app_nil_r;
  repeat first
    [ solve [ eapply captured_here;
              [ eassumption
              | reflexivity
              | first [ apply failed_status; [reflexivity | simpl; assumption]
                      | apply failed_pointer; [reflexivity | simpl; assumption] ]
              | simpl_machine; reflexivity ] ]
    | apply captured_cons
    | apply captured_app ].

Lemma OpenFileAndReadPermissionData_error_channel fuel fileName loadDefaultAcl m :
  holds (OpenFileAndReadPermissionData fuel fileName loadDefaultAcl) m
    (fun res m' t => forall e, res = Some e -> error_channel e m' t).
Proof.
  unfold OpenFileAndReadPermissionData. wp'.
  - intros e [= <-]. unfold error_channel, channel_after. simpl.
    exists [], {| ev_call := c_open fileName O_RDONLY; ev_ret := id r; ev_errno := errno w |}, [].
    unfold failed. simpl. repeat apply conj; auto.
    intros Hx. unfold os_strerror_r. simpl. rewrite Hx. reflexivity.
  - intros e [= <-]. unfold error_channel, channel_after. solve_captured.
  - intros e [= <-]. unfold error_channel, channel_after. solve_captured.
  - eapply holds_mono; [apply count_entries_control|]. simpl_machine.
    intros [e0|[st' n']|] m1 t; [tauto| |intros _; wp'; discriminate].
    intros (K & He & Ht & Hw). wp'.
    + intros e [= <-]. unfold error_channel, channel_after. simpl.
      do 3 apply captured_cons.
      eapply captured_walk; eauto; reflexivity.
    + intros e [= <-]. unfold error_channel, channel_after. simpl.
      destruct K as (_ & _ & K & _). exact K.
Qed.

Lemma cleanup_events_ext m1 m t :
  _fd m1 = _fd m -> _acl m1 = _acl m -> cleanup_events m1 t -> cleanup_events m t.
Proof. unfold cleanup_events. intros -> ->. auto. Qed.

Lemma ends_with_cleanup_ext m1 m t :
  _fd m1 = _fd m -> _acl m1 = _acl m -> ends_with_cleanup m1 t -> ends_with_cleanup m t.
Proof.
  intros H1 H2 (t0 & tc & -> & H). exists t0, tc. eauto using cleanup_events_ext.
Qed.

Lemma ends_with_cleanup_here m0 m m' t :
  failure_exit m0 m' t -> _fd m0 = _fd m -> _acl m0 = _acl m -> ends_with_cleanup m t.
Proof.
  intros (_ & _ & _ & _ & _ & _ & _ & H) H1 H2. exists [], t.
  eauto using cleanup_events_ext.
Qed.

Lemma ends_with_cleanup_clean m0 m m' t :
  cleanup_exit m0 m' t -> _fd m0 = _fd m -> _acl m0 = _acl m -> ends_with_cleanup m t.
Proof.
  intros (_ & _ & _ & _ & _ & _ & _ & H) H1 H2. exists [], t.
  eauto using cleanup_events_ext.
Qed.

Lemma ends_with_cleanup_cons m ev t : ends_with_cleanup m t -> ends_with_cleanup m (ev :: t).
Proof. intros (t0 & tc & -> & H). exists (ev :: t0), tc. auto. Qed.

Lemma ends_with_cleanup_app m t0 t : ends_with_cleanup m t -> ends_with_cleanup m (t0 ++ t).
Proof.
  intros (t1 & tc & -> & H). exists (t0 ++ t1), tc. split; [apply app_assoc | exact H].
Qed.

Ltac solve_ends_with_cleanup :=
  simpl; rewrite ?app_nil_r;
  repeat first
    [ solve [ eapply ends_with_cleanup_here; [eassumption | reflexivity | reflexivity] ]
    | solve [ eapply ends_with_cleanup_clean; [eassumption | reflexivity | reflexivity] ]
    | apply ends_with_cleanup_cons
    | apply ends_with_cleanup_app ].

(** What the calls made so far have done to the two tables of files. *)
Ltac files_facts :=
  repeat match goal with
  | E : os_acl_get_entry _ _ _ = _ |- _ => apply os_acl_get_entry_files in E; destruct E
  | E : os_acl_get_tag_type _ _ = _ |- _ => apply os_acl_get_tag_type_files in E; destruct E
  | E : os_acl_get_qualifier _ _ = _ |- _ => apply os_acl_get_qualifier_files in E; destruct E
  | E : os_acl_get_permset _ _ = _ |- _ => apply os_acl_get_permset_files in E; destruct E
  | E : os_acl_get_perm _ _ _ = _ |- _ => apply os_acl_get_perm_files in E; destruct E
  | E : os_acl_free _ _ = _ |- _ => apply os_acl_free_files in E; destruct E
  | E : os_acl_get_fd _ _ _ = _ |- _ => apply os_acl_get_fd_files in E; destruct E
  | E : os_acl_init _ _ = _ |- _ => apply os_acl_init_files in E; destruct E
  | E : os_acl_create_entry _ _ = _ |- _ => apply os_acl_create_entry_files in E; destruct E
  | E : os_acl_set_tag_type _ _ _ = _ |- _ => apply os_acl_set_tag_type_files in E; destruct E
  | E : os_acl_set_qualifier _ _ _ = _ |- _ => apply os_acl_set_qualifier_files in E; destruct E
  | E : os_acl_clear_perms _ _ = _ |- _ => apply os_acl_clear_perms_files in E; destruct E
  | E : os_acl_add_perm _ _ _ = _ |- _ => apply os_acl_add_perm_files in E; destruct E
  | E : os_acl_valid _ _ = _ |- _ => apply os_acl_valid_files in E; destruct E
  end.

Lemma cleanup_events_acl_call m t : cleanup_events m t -> forallb acl_call t = true.
Proof.
  intros (r1 & e1 & r2 & e2 & ->).
  destruct (truthy (_acl m)), (truthy (_fd m)); reflexivity.
Qed.

Lemma failure_exit_acl_call m m' t : failure_exit m m' t -> forallb acl_call t = true.
Proof. intros (_ & _ & _ & _ & _ & _ & _ & H). eapply cleanup_events_acl_call, H. Qed.

Lemma cleanup_exit_acl_call m m' t : cleanup_exit m m' t -> forallb acl_call t = true.
Proof. intros (_ & _ & _ & _ & _ & _ & _ & H). eapply cleanup_events_acl_call, H. Qed.

Ltac solve_acl_calls :=
  simpl; rewrite ?app_nil_r;
  first [ assumption
        | reflexivity
        | eapply failure_exit_acl_call; eassumption
        | eapply cleanup_exit_acl_call; eassumption ].

Ltac solve_returned :=
  unfold returned, channel_after; cbn [failing_call];
  lazymatch goal with
  | H : failure_exit _ _ _ |- _ =>
      split; [solve_captured|];
      let H' := fresh in
      pose proof H as H'; destruct H' as (? & ? & _ & _ & ? & _ & ? & _)
  | H : cleanup_exit _ _ _ |- _ =>
      let H' := fresh in
      pose proof H as H'; destruct H' as (? & ? & ? & _ & ? & _ & ? & _);
      split; [simpl_machine_all; congruence|]
  end;
  simpl_machine_all; files_facts;
  repeat apply conj; try congruence; [solve_ends_with_cleanup | solve_acl_calls].

Lemma channel_after_cons v0 e m' ev t :
  channel_after v0 e m' t -> channel_after v0 e m' (ev :: t).
Proof.
  unfold channel_after. destruct (failing_call e); auto using captured_cons.
Qed.

Lemma channel_after_app v0 e m' t0 t :
  channel_after v0 e m' t -> channel_after v0 e m' (t0 ++ t).
Proof.
  unfold channel_after. destruct (failing_call e); auto using captured_app.
Qed.

Lemma returned_ext m1 m e m' t :
  returned m1 e m' t ->
  _fd m1 = _fd m -> _acl m1 = _acl m -> dataContainer m1 = dataContainer m ->
  fs (os m1) = fs (os m) -> _lastErrnoValue m1 = _lastErrnoValue m ->
  returned m e m' t.
Proof.
  intros (H1 & H2 & H3 & H4 & H5 & H6 & H7) E1 E2 E3 E4 E5.
  repeat apply conj; try congruence.
  eapply ends_with_cleanup_ext; eauto.
Qed.

Lemma returned_cons m e m' ev t :
  acl_call ev = true -> returned m e m' t -> returned m e m' (ev :: t).
Proof.
  intros Hev (H1 & H2 & H3 & H4 & H5 & H6 & H7).
  repeat apply conj; try congruence.
  - apply channel_after_cons, H1.
  - apply ends_with_cleanup_cons, H6.
  - simpl. rewrite Hev, H7. reflexivity.
Qed.

(** A [return] in a later iteration of a loop, seen from an earlier one. *)
Ltac solve_returned_later H :=
  eapply returned_ext in H;
  [ simpl; repeat (apply returned_cons; [reflexivity|]); exact H
  | simpl_machine; files_facts; congruence .. ].

Lemma walk_end_skip st e ev ev' t st' e' :
  walk_end 0 0 (ev' :: t) st' e' -> walk_end st e (ev :: ev' :: t) st' e'.
Proof.
  intros [(? & _) | (t0 & x & Ht & H)]; [discriminate|].
  right. exists (ev :: t0), x. rewrite Ht. auto.
Qed.

Ltac solve_walk_end :=
  simpl; repeat apply walk_end_skip;
  apply walk_end_cons; [reflexivity | simpl_machine_all; assumption].

Ltac solve_session_kept :=
  unfold session_kept, files_kept in *; simpl_machine_all; files_facts;
  intuition congruence.

Lemma read_entries_control fuel st currEntry i m :
  holds (read_entries fuel st currEntry i) m (fun res m' t =>
    match res with
    | OutOfFuel => True
    | Returned e => decoding_error e = true /\ returned m e m' t
    | Exited st' =>
        session_kept m m' /\ walk_end st (errno (os m)) t st' (errno (os m'))
    end).
Proof.
  revert st currEntry i m. induction fuel as [|fuel IH]; intros st currEntry i m; simpl.
  - wp'. exact I.
  - wp'.
    all: try (split; [reflexivity | solve_returned]).
    3: split; auto using session_kept_refl, walk_end_nil.
    all: (eapply holds_mono; [apply IH|]; simpl_machine;
          intros [e|st'|] m' t; auto).
    all: intros [H1 H2]; split; try assumption.
    all: first [solve_returned_later H2 | solve [solve_session_kept] | solve_walk_end].
Qed.

Lemma ReadFileAclAndClose_error_channel fuel m :
  holds (ReadFileAclAndClose fuel) m
    (fun res m' t => forall e, res = Some e -> error_channel e m' t).
Proof.
  unfold ReadFileAclAndClose. wp'.
  eapply holds_mono; [apply read_entries_control|]. simpl_machine.
  intros [e0|st'|] m1 t; [| |intros _; wp'; discriminate].
  - intros (_ & H & _). wp'. intros e [= <-]. simpl. rewrite app_nil_r.
    apply channel_after_cons. exact H.
  - intros (K & Hw). wp'.
    + intros e [= <-]. unfold error_channel, channel_after. simpl.
      eapply captured_walk; eauto; reflexivity.
    + intros e [= <-]. unfold error_channel, channel_after. simpl.
      destruct Hexit as (_ & _ & Hv & _). destruct K as (_ & _ & K & _).
      simpl_machine_all. congruence.
Qed.

Lemma os_acl_create_entry_same acl w st acl' e w' :
  os_acl_create_entry acl w = (st, acl', e, w') -> acl' = acl.
Proof. intros E. os_inv E; reflexivity. Qed.

Ltac same_acl :=
  repeat match goal with
  | E : os_acl_create_entry _ _ = (_, ?acl', _, _) |- _ =>
      let H := fresh in
      pose proof (os_acl_create_entry_same _ _ _ _ _ _ E) as H; subst acl'
  end.

Lemma build_entries_control n i m :
  holds (build_entries n i) m (fun res m' t =>
    match res with
    | None => session_kept m m' /\ Forall acquires_nothing t /\ forallb acl_call t = true
    | Some e => acl_stage e = true /\ returned m e m' t
    end).
Proof.
  revert i m. induction n as [|n IH]; intros i m; simpl.
  - wp'. split; [apply session_kept_refl | split; [constructor | reflexivity]].
  - wp'.
    all: same_acl.
    all: try (split; [reflexivity | solve_returned]).
    all: (eapply holds_mono; [apply IH|]; simpl_machine;
          intros [e|] m' t).
    all: try (intros [H1 H2]; split; [assumption | solve_returned_later H2]).
    all: intros (K & Ht & Hc); split; [solve_session_kept | split].
    all: simpl.
    all: first [ assumption | repeat (constructor; [split; reflexivity|]); assumption ].
Qed.

Lemma SetFilePermissionDataAndAcl_error_channel fileName setDefaultAcl m :
  holds (SetFilePermissionDataAndAcl fileName setDefaultAcl) m
    (fun res m' t => forall e, res = Some e -> error_channel e m' t).
Proof.
  unfold SetFilePermissionDataAndAcl. wp'.
  all: try solve [intros e [= <-]; unfold error_channel, channel_after; solve_captured].
  all: try solve [intros e [= <-]; unfold error_channel, channel_after; simpl;
                  eexists [], _, []; unfold failed; simpl; repeat apply conj; auto;
                  intros Hx; unfold os_strerror_r; simpl; rewrite Hx; reflexivity].
  all: (eapply holds_mono; [apply build_entries_control|]; simpl_machine;
        intros [e0|] m1 t).
  all: try (intros (_ & H & _); wp'; intros e [= <-]; simpl; rewrite ?app_nil_r;
            repeat apply channel_after_cons; exact H).
  all: intros (K & _ & _); wp'.
  all: try solve [intros e [= <-]; unfold error_channel, channel_after; simpl;
                  repeat apply captured_cons; apply captured_app; solve_captured].
  all: intros e [= <-]; unfold error_channel, channel_after; simpl.
  all: destruct Hexit as (_ & _ & Hv & _); destruct K as (_ & _ & K & _).
  all: simpl_machine_all; congruence.
Qed.

Lemma run_error_channel fuel op m :
  holds (run fuel op) m (fun res m' t => forall e, res = Some e -> error_channel e m' t).
Proof.
  destruct op; simpl.
  - apply OpenFileAndReadPermissionData_error_channel.
  - apply ReadFileAclAndClose_error_channel.
  - apply SetFilePermissionDataAndAcl_error_channel.
Qed.



Lemma c_string_cleared buf : c_string (store_chars [NUL] buf) = EmptyString.
Proof. destruct buf; reflexivity. Qed.

(** Every operation starts by overwriting [_lastErrnoValue]: what it held
    before has no effect on the run. *)
Lemma run_resets_error_slot fuel op m v :
  run fuel op (set__lastErrnoValue v m) = run fuel op m.
Proof. destruct op; reflexivity. Qed.

(** ** The platform's [strerror_r] is the same throughout *)








(** C8. After an operation that returned [NATIVE_ERROR_SUCCESS],
    [GetLastErrnoValue] returns 0 and leaves the empty string in the caller's
    buffer; the error slot is reset when the operation starts, whatever it
    held before. *)
Theorem GetLastErrnoValue_after_success fuel op m m' tr buf len :
  run fuel op m = (Some NATIVE_ERROR_SUCCESS, m', tr) ->
  (GetLastErrnoValue buf len m').2 = 0
  /\ c_string (GetLastErrnoValue buf len m').1 = EmptyString
  /\ (forall v, run fuel op (set__lastErrnoValue v m) = run fuel op m).
Proof.
  intros Hrun.
  pose proof (holds_elim _ _ _ _ _ _ (run_error_channel fuel op m) Hrun) as H.
  specialize (H _ eq_refl). unfold error_channel, channel_after in H. simpl in H.
  unfold GetLastErrnoValue. rewrite H. simpl.
  split; [reflexivity | split; [apply c_string_cleared|]].
  intros v. apply run_resets_error_slot.
Qed.


(** ** Walking an ACL *)

Lemma acl_of_set_faults w x acl : acl_of (set_faults x w) acl = acl_of w acl.
Proof. reflexivity. Qed.

Lemma acl_of_insert w acl ents cur :
  acl_of (set_heap (<[acl := AclObj ents cur]> (heap w)) w) acl = Some (ents, cur).
Proof. unfold acl_of. simpl. rewrite lookup_insert_eq. reflexivity. Qed.

(** [acl_get_entry] on a live ACL: an entry and the cursor behind it, or
    the end of the list, or a failure; the list itself stays. *)
Lemma os_acl_get_entry_spec acl which w st e w' ents cur :
  os_acl_get_entry acl which w = (st, e, w') ->
  acl_of w acl = Some (ents, cur) ->
  which = ACL_FIRST_ENTRY \/ which = ACL_NEXT_ENTRY ->
  let pos := if which =? ACL_FIRST_ENTRY then 0%nat else cur in
  (st = 1 /\ (pos < length ents)%nat /\ e = (acl, pos)
   /\ acl_of w' acl = Some (ents, S pos))
  \/ (st = 0 /\ (length ents <= pos)%nat /\ acl_of w' acl = Some (ents, cur))
  \/ (st = -1 /\ acl_of w' acl = Some (ents, cur)).
Proof.
  intros E Ha Hw. unfold os_acl_get_entry, fallible, fail_with in E.
  assert (Hb : (which =? ACL_FIRST_ENTRY) || (which =? ACL_NEXT_ENTRY) = true).
  { destruct Hw as [-> | ->]; reflexivity. }
  repeat case_match; simplify_eq; simpl in *.
  all: try (rewrite acl_of_set_faults in *; simplify_eq).
  all: try match goal with
       | H : (_ <? _)%nat = true |- _ => apply Nat.ltb_lt in H
       | H : (_ <? _)%nat = false |- _ => apply Nat.ltb_ge in H
       end.
  all: try (left; repeat apply conj; auto;
            unfold acl_of; simpl; rewrite lookup_insert_eq; reflexivity).
  all: try (right; left; repeat apply conj; auto; fail).
  all: try (right; right; split; [reflexivity | assumption]).
  all: congruence.
Qed.

(** Without a live ACL behind the pointer, [acl_get_entry] fails. *)
Lemma os_acl_get_entry_dead acl which w st e w' :
  os_acl_get_entry acl which w = (st, e, w') ->
  acl_of w acl = None -> st = -1.
Proof.
  intros E Ha. unfold os_acl_get_entry, fallible, fail_with in E.
  repeat case_match; simplify_eq; simpl in *; try reflexivity.
  all: rewrite acl_of_set_faults in *; congruence.
Qed.

Lemma os_acl_get_entry_fdt acl which w r w' :
  os_acl_get_entry acl which w = (r, w') -> fdt w' = fdt w.
Proof. intros E. apply os_acl_get_entry_files in E. apply E. Qed.

Lemma count_entries_walk fuel st n m ents cur :
  acl_of (os m) (_acl m) = Some (ents, cur) -> counting ents st n cur ->
  holds (count_entries fuel st n) m (fun res m' t =>
    (exists cur', acl_of (os m') (_acl m') = Some (ents, cur'))
    /\ match res with
       | Exited (st', n') => (st' <? 0) = false -> n' = Z.of_nat (length ents)
       | OutOfFuel => (fuel < (if (0 <? st)%Z then length ents + 2 - cur else 1))%nat
       | Returned _ => False
       end).
Proof.
  revert st n m cur. induction fuel as [|fuel IH]; intros st n m cur Ha Hc; simpl.
  - wp'. split; [eauto|]. destruct (0 <? st) eqn:C; [|lia].
    destruct Hc as [Hc _]. specialize (Hc C). lia.
  - wp'.
    + destruct Hc as [Hc _]. specialize (Hc C). destruct Hc as (Hn & -> & Hlt).
      pose proof (os_acl_get_entry_spec _ _ _ _ _ _ _ _ E Ha) as S.
      specialize (S (or_intror eq_refl)). simpl in S.
      destruct S as [(-> & Hp & -> & Ha') | [(-> & Hp & Ha') | (-> & Ha')]].
      * eapply holds_mono; [eapply IH; [simpl_machine; exact Ha'|]|].
        { split; [intros _; repeat apply conj; try lia | discriminate]. }
        simpl. intros [e|[st' n']|] m' t [H1 H2]; split; auto.
        simpl in H2. lia.
      * eapply holds_mono; [eapply IH; [simpl_machine; exact Ha'|]|].
        { split; [discriminate | intros _; lia]. }
        simpl. intros [e|[st' n']|] m' t [H1 H2]; split; auto.
        simpl in H2. lia.
      * eapply holds_mono; [eapply IH; [simpl_machine; exact Ha'|]|].
        { split; [discriminate | discriminate]. }
        simpl. intros [e|[st' n']|] m' t [H1 H2]; split; auto.
        simpl in H2. lia.
    + split; [eauto|]. destruct Hc as [_ Hc]. intros C'. apply Hc. lia.
Qed.

(** ** The first phase of a read *)

Lemma os_acl_get_fd_spec fd type w r w' path :
  os_acl_get_fd fd type w = (r, w') -> truthy r = true -> fdt w !! fd = Some path ->
  exists ino, fs w !! path = Some ino
    /\ acl_of w' r = Some ((if type =? ACL_TYPE_ACCESS then i_access ino else i_default ino), 0%nat).
Proof.
  intros E Hr Hfd.
  unfold os_acl_get_fd, fallible, alloc, fail_with, inode_of_fd in E. simpl in E.
  repeat case_match; simplify_eq; simpl in *; try discriminate.
  all: eexists; split; [eassumption|].
  all: unfold acl_of; simpl; rewrite lookup_insert_eq; reflexivity.
Qed.

Lemma Forall_app_2 {A : Type} (P : A -> Prop) (l1 l2 : list A) :
  Forall P l1 -> Forall P l2 -> Forall P (l1 ++ l2).
Proof. intros. apply Forall_app. split; assumption. Qed.

Lemma acquires_nothing_no_release ev : acquires_nothing ev -> releases ev = None.
Proof. intros [_ H]. exact H. Qed.

Lemma OpenFileAndReadPermissionData_success_holds fuel fileName loadDefaultAcl m ino :
  fs (os m) !! fileName = Some ino ->
  holds (OpenFileAndReadPermissionData fuel fileName loadDefaultAcl) m (fun res m' tr =>
    (res = None ->
     (fuel <= length (if (0 <? loadDefaultAcl)%Z then i_default ino else i_access ino))%nat)
    /\
    (res = Some NATIVE_ERROR_SUCCESS ->
    ownerId (dataContainer m') = to_int32 (i_uid ino)
    /\ groupId (dataContainer m') = to_int32 (i_gid ino)
    /\ (ownerPermissions (dataContainer m'), groupPermissions (dataContainer m'),
        otherPermissions (dataContainer m')) = decodeMode (i_mode ino)
    /\ aclSize (dataContainer m')
       = to_int32 (Z.of_nat (length (if 0 <? loadDefaultAcl then i_default ino
                                     else i_access ino)))
    /\ fdt (os m') !! _fd m' = Some fileName
    /\ (exists cur, acl_of (os m') (_acl m')
                     = Some ((if 0 <? loadDefaultAcl then i_default ino
                              else i_access ino), cur))
    /\ _acl m' <> NULL
    /\ Forall (fun ev => releases ev = None) tr)).
Proof.
  intros Hino.
  unfold OpenFileAndReadPermissionData. wp'; try (split; discriminate).
  pose proof (os_open_spec _ _ _ _ _ E) as (Hfs & _ & Ho). rewrite C in Ho.
  destruct Ho as (Hr & _ & Hfdt).
  assert (Hfd : fdt w !! r = Some fileName) by (rewrite Hfdt; apply lookup_insert_eq).
  destruct (os_fstat_spec _ _ _ _ _ _ E0 C0 Hfd) as (ino' & Hino' & ->).
  rewrite Hfs, Hino in Hino'. injection Hino' as <-.
  pose proof (os_fstat_files _ _ _ _ E0) as ((Hfs0 & Hfdt0) & _).
  apply negb_false_iff in C1.
  assert (Hfd0 : fdt w0 !! r = Some fileName) by congruence.
  destruct (os_acl_get_fd_spec _ _ _ _ _ _ E1 C1 Hfd0) as (ino' & Hino' & Hacl).
  rewrite Hfs0, Hfs, Hino in Hino'. injection Hino' as <-.
  pose proof (os_acl_get_fd_files _ _ _ _ _ E1) as (_ & Hfdt1).
  pose proof (os_acl_get_entry_fdt _ _ _ _ _ E2) as Hfdt2.
  pose proof (os_acl_get_entry_spec _ _ _ _ _ _ _ _ E2 Hacl (or_introl eq_refl)) as S.
  simpl in S.
  assert (Hty : (if (if 0 <? loadDefaultAcl then ACL_TYPE_DEFAULT else ACL_TYPE_ACCESS)
                      =? ACL_TYPE_ACCESS then i_access ino else i_default ino)
                = (if 0 <? loadDefaultAcl then i_default ino else i_access ino)).
  { destruct (0 <? loadDefaultAcl); reflexivity. }
  rewrite Hty in *. clear Hty.
  set (acl := if 0 <? loadDefaultAcl then i_default ino else i_access ino) in *.
  assert (exists cur, acl_of w2 r0 = Some (acl, cur) /\ counting acl z0 0 cur)
    as (cur & Hacl2 & Hcount).
  { destruct S as [(-> & Hp & -> & Ha') | [(-> & Hp & Ha') | (-> & Ha')]];
      eexists; (split; [exact Ha'|]); split; try discriminate; intros _; simpl; lia. }
  eapply holds_mono.
  { apply holds_and; [apply count_entries_control|].
    eapply count_entries_walk; simpl_machine; eauto. }
  simpl_machine. intros [e|[st' n']|] m1 t (H1 & H2 & H3); [tauto| |].
  2: { wp'. split; [intros _|discriminate].
       destruct Hcount as [Hcount _]. destruct (0 <? z0); [|lia].
       destruct (Hcount eq_refl) as (_ & -> & _). lia. }
  destruct H1 as (K & _ & Ht & _). destruct H2 as (cur' & Hacl').
  wp'; [split; discriminate|]. split; [discriminate|]. intros _.
  unfold session_kept, files_kept in K. simpl_machine_all.
  destruct K as (K1 & K2 & _ & _ & K3 & _ & K4).
  rewrite K3. simpl_machine. cbn [st_mode st_uid st_gid].
  rewrite ?K1, ?K2, ?K4, ?Hfdt2, ?Hfdt1, ?Hfdt0.
  repeat apply conj; try reflexivity; try assumption.
  - rewrite (H3 eq_refl). reflexivity.
  - rewrite K2 in Hacl'. eauto.
  - apply truthy_true. exact C1.
  - simpl. repeat (constructor; [reflexivity|]). rewrite app_nil_r.
    eapply Forall_impl; [exact Ht|]. apply acquires_nothing_no_release.
Qed.

(** C4. A successful [OpenFileAndReadPermissionData] leaves in the
    container the owner and the group of the file, the three permission
    sets of its mode (for each class its read, write and execute bits, with
    set-user-ID and the sticky bit in the owner's set and set-group-ID in
    the group's), and the number of entries of the ACL it loaded; the
    descriptor is still open and the ACL still allocated when it returns,
    and it has released nothing. *)
Theorem OpenFileAndReadPermissionData_success fuel fileName loadDefaultAcl m m' tr ino :
  OpenFileAndReadPermissionData fuel fileName loadDefaultAcl m
    = (Some NATIVE_ERROR_SUCCESS, m', tr) ->
  fs (os m) !! fileName = Some ino ->
  let acl := if 0 <? loadDefaultAcl then i_default ino else i_access ino in
  ownerId (dataContainer m') = to_int32 (i_uid ino)
  /\ groupId (dataContainer m') = to_int32 (i_gid ino)
  /\ ownerPermissions (dataContainer m') = owner_set (i_mode ino)
  /\ groupPermissions (dataContainer m') = group_set (i_mode ino)
  /\ otherPermissions (dataContainer m') = other_set (i_mode ino)
  /\ aclSize (dataContainer m') = to_int32 (Z.of_nat (length acl))
  /\ fdt (os m') !! _fd m' = Some fileName
  /\ (exists cur, acl_of (os m') (_acl m') = Some (acl, cur))
  /\ _acl m' <> NULL
  /\ Forall (fun ev => releases ev = None) tr.
Proof.
  intros Hrun Hino acl.
  destruct (proj2 (holds_elim _ _ _ _ _ _
           (OpenFileAndReadPermissionData_success_holds fuel fileName loadDefaultAcl m ino Hino)
           Hrun) eq_refl) as (H1 & H2 & H3 & H4).
  unfold decodeMode in H3. injection H3 as Ho Hg Ht.
  rewrite decodeOwner_owner_set in Ho. rewrite decodeGroup_group_set in Hg.
  rewrite decodeOther_other_set in Ht.
  repeat apply conj; try assumption; apply H4.
Qed.

(** With more fuel than the file's ACLs have entries, the first phase of a
    read returns. *)
Lemma OpenFileAndReadPermissionData_terminates fuel fileName loadDefaultAcl m :
  (forall ino, fs (os m) !! fileName = Some ino ->
     (length (i_access ino) < fuel)%nat /\ (length (i_default ino) < fuel)%nat) ->
  (OpenFileAndReadPermissionData fuel fileName loadDefaultAcl m).1.1 <> None.
Proof.
  intros Hlen. destruct (fs (os m) !! fileName) as [ino|] eqn:Hino.
  - pose proof (OpenFileAndReadPermissionData_success_holds fuel fileName loadDefaultAcl
                  m ino Hino) as [H _].
    intros Hn. specialize (H Hn). destruct (Hlen ino eq_refl).
    destruct (0 <? loadDefaultAcl); lia.
  - unfold OpenFileAndReadPermissionData.
    change ((?c m).1.1 <> None) with (holds c m (fun res _ _ => res <> None)).
    wp'; try discriminate.
    pose proof (os_open_spec _ _ _ _ _ E) as (_ & _ & Ho). rewrite C in Ho.
    destruct Ho as (_ & [x Hx] & _). congruence.
Qed.


(** ** The second phase of a read: the queries on one entry *)

Lemma entry_at_live w acl i ents cur :
  acl_of w acl = Some (ents, cur) -> entry_at w (acl, i) = ents !! i.
Proof. unfold entry_at. simpl. intros ->. reflexivity. Qed.

Lemma os_acl_get_tag_type_spec acl i w r tag w' ents cur x :
  os_acl_get_tag_type (acl, i) w = (r, tag, w') ->
  acl_of w acl = Some (ents, cur) -> ents !! i = Some x ->
  acl_of w' acl = Some (ents, cur) /\ ((r <? 0) = false -> tag = a_tag x).
Proof.
  intros E Ha Hx. unfold os_acl_get_tag_type, fallible, fail_with in E.
  repeat case_match; simplify_eq; simpl in *.
  all: try (erewrite entry_at_live in * by (rewrite ?acl_of_set_faults; eassumption)).
  all: simplify_eq; split; try assumption; try discriminate; reflexivity.
Qed.

Lemma os_acl_get_permset_spec acl i w r ps w' ents cur x :
  os_acl_get_permset (acl, i) w = (r, ps, w') ->
  acl_of w acl = Some (ents, cur) -> ents !! i = Some x ->
  acl_of w' acl = Some (ents, cur) /\ ((r <? 0) = false -> ps = (acl, i)).
Proof.
  intros E Ha Hx. unfold os_acl_get_permset, fallible, fail_with in E.
  repeat case_match; simplify_eq; simpl in *.
  all: split; try assumption; try discriminate; reflexivity.
Qed.

Lemma os_acl_get_perm_spec acl i perm w r w' ents cur x :
  os_acl_get_perm (acl, i) perm w = (r, w') ->
  acl_of w acl = Some (ents, cur) -> ents !! i = Some x -> valid_perm perm = true ->
  acl_of w' acl = Some (ents, cur)
  /\ ((r <? 0) = false -> r = if truthy (a_perm x .& perm) then 1 else 0).
Proof.
  intros E Ha Hx Hp. unfold os_acl_get_perm, fallible, fail_with in E.
  repeat case_match; simplify_eq; simpl in *.
  all: try (erewrite entry_at_live in * by (rewrite ?acl_of_set_faults; eassumption)).
  all: simplify_eq; split; try assumption; try discriminate; try reflexivity.
  all: congruence.
Qed.

Lemma os_acl_get_qualifier_spec acl i w p w' ents cur x :
  os_acl_get_qualifier (acl, i) w = (p, w') ->
  acl_of w acl = Some (ents, cur) -> ents !! i = Some x ->
  acl_of w' acl = Some (ents, cur)
  /\ (truthy p = true ->
        p <> acl /\ load_int32 p w' = to_int32 (a_id x)
        /\ ((a_tag x =? ACL_USER) || (a_tag x =? ACL_GROUP) = true)).
Proof.
  intros E Ha Hx. unfold os_acl_get_qualifier, fallible, alloc, fail_with in E.
  repeat case_match; simplify_eq; simpl in *.
  all: try (erewrite entry_at_live in * by (rewrite ?acl_of_set_faults; eassumption)).
  all: simplify_eq.
  all: try (split; [assumption | discriminate]).
  all: match goal with
       | H : first_free _ _ _ = Some _ |- _ =>
           pose proof (first_free_spec _ _ _ _ H) as [Hfree _]
       end.
  all: assert (Hne : p <> acl)
         by (intros ->; unfold acl_of in Ha; simpl in *; rewrite Hfree in Ha; discriminate).
  all: split; [unfold acl_of in *; simpl in *; rewrite lookup_insert_ne by assumption;
                assumption|].
  all: intros _; repeat apply conj; try assumption.
  all: unfold load_int32; simpl; rewrite lookup_insert_eq; reflexivity.
Qed.

Lemma os_acl_free_other p w r w' acl :
  os_acl_free p w = (r, w') -> p <> acl -> acl_of w' acl = acl_of w acl.
Proof.
  intros E Hne. unfold os_acl_free, fail_with in E.
  repeat case_match; simplify_eq; try reflexivity.
  unfold acl_of. simpl. rewrite lookup_delete_ne by assumption. reflexivity.
Qed.

(** ** The second phase of a read: the loop *)

Lemma update_at_same {A : Type} (i : nat) (f : A -> A) (arr : nat -> A) :
  update_at i f arr i = f (arr i).
Proof. unfold update_at. rewrite Nat.eqb_refl. reflexivity. Qed.

Lemma update_at_other {A : Type} (i j : nat) (f : A -> A) (arr : nat -> A) :
  j <> i -> update_at i f arr j = arr j.
Proof.
  unfold update_at. intros H. destruct (j =? i)%nat eqn:E; [|reflexivity].
  apply Nat.eqb_eq in E. contradiction.
Qed.

Lemma decoded_permissions_eq x r1 r2 r3 :
  r1 = (if truthy (a_perm x .& ACL_READ) then 1 else 0) ->
  r2 = (if truthy (a_perm x .& ACL_WRITE) then 1 else 0) ->
  r3 = (if truthy (a_perm x .& ACL_EXECUTE) then 1 else 0) ->
  (if 0 <? r1 then FILE_PERMISSION_READ else FILE_PERMISSION_NONE)
  .| (if 0 <? r2 then FILE_PERMISSION_WRITE else FILE_PERMISSION_NONE)
  .| (if 0 <? r3 then FILE_PERMISSION_EXECUTE else FILE_PERMISSION_NONE)
  = decoded_permissions x.
Proof.
  intros -> -> ->. unfold decoded_permissions.
  destruct (truthy (a_perm x .& ACL_READ)), (truthy (a_perm x .& ACL_WRITE)),
    (truthy (a_perm x .& ACL_EXECUTE)); reflexivity.
Qed.

(** What the queries made so far on the entry in hand have returned. *)
Ltac entry_facts :=
  repeat match goal with
  | C : negb (truthy _) = false |- _ => apply negb_false_iff in C
  | E : os_acl_get_tag_type (?acl, ?i) ?w = _,
    Ha : acl_of ?w ?acl = Some _, Hx : _ !! ?i = Some _ |- _ =>
      let H1 := fresh "Ha" in let H2 := fresh "Hv" in
      destruct (os_acl_get_tag_type_spec _ _ _ _ _ _ _ _ _ E Ha Hx) as [H1 H2]; clear E
  | E : os_acl_get_qualifier (?acl, ?i) ?w = _,
    Ha : acl_of ?w ?acl = Some _, Hx : _ !! ?i = Some _ |- _ =>
      let H1 := fresh "Ha" in let H2 := fresh "Hv" in
      destruct (os_acl_get_qualifier_spec _ _ _ _ _ _ _ _ E Ha Hx) as [H1 H2]; clear E
  | E : os_acl_get_permset (?acl, ?i) ?w = _,
    Ha : acl_of ?w ?acl = Some _, Hx : _ !! ?i = Some _ |- _ =>
      let H1 := fresh "Ha" in let H2 := fresh "Hv" in
      destruct (os_acl_get_permset_spec _ _ _ _ _ _ _ _ _ E Ha Hx) as [H1 H2]; clear E
  | E : os_acl_get_perm (?acl, ?i) _ ?w = _,
    Ha : acl_of ?w ?acl = Some _, Hx : _ !! ?i = Some _ |- _ =>
      let H1 := fresh "Ha" in let H2 := fresh "Hv" in
      destruct (os_acl_get_perm_spec _ _ _ _ _ _ _ _ _ E Ha Hx eq_refl) as [H1 H2]; clear E
  | E : os_acl_free ?p ?w = _, Hne : ?p <> ?acl, Ha : acl_of ?w ?acl = Some _ |- _ =>
      let H1 := fresh "Ha" in
      pose proof (os_acl_free_other _ _ _ _ _ E Hne) as H1; rewrite Ha in H1; clear E
  | H : ?c = false -> _, C : ?c = false |- _ => specialize (H C)
  | H : ?c = true -> _, C : ?c = true |- _ => specialize (H C)
  | H : _ /\ _ |- _ => destruct H
  | H : (_, _) = (_, _) |- _ => injection H as ? ?; subst
  | H : ?v = _ |- _ => is_var v; subst v
  end.

Lemma decoded_until_failure_step old old1 ents e i k new x :
  ents !! i = Some x -> old1 i = decoded x (old i) ->
  (forall j, j <> i -> old1 j = old j) ->
  decoded_until_failure old1 ents e (S i) k new ->
  decoded_until_failure old ents e i k new.
Proof.
  intros Hx Hi Ho (Hk & H1 & H2 & (y & Hy & H3)).
  split; [lia|]. split; [|split].
  - intros j z Hj Hz. destruct (decide (j = i)) as [->|Hne].
    + rewrite H2 by lia. congruence.
    + rewrite (H1 j z) by (try lia; assumption). rewrite Ho by assumption. reflexivity.
  - intros j Hj. rewrite H2 by lia. apply Ho. lia.
  - exists y. split; [assumption|]. rewrite H3, Ho by lia. reflexivity.
Qed.

Lemma decoded_upto_step old old1 ents i k new x :
  ents !! i = Some x -> old1 i = decoded x (old i) ->
  (forall j, j <> i -> old1 j = old j) ->
  decoded_upto old1 ents (S i) k new ->
  decoded_upto old ents i k new.
Proof.
  intros Hx Hi Ho (Hk & H1 & H2). split; [lia|split].
  - intros j z Hj Hz. destruct (decide (j = i)) as [->|Hne].
    + rewrite H2 by lia. congruence.
    + rewrite (H1 j z) by (try lia; assumption). rewrite Ho by assumption. reflexivity.
  - intros j Hj. rewrite H2 by lia. apply Ho. lia.
Qed.

Lemma read_entries_walk fuel st currEntry i m ents :
  decoding m ents st currEntry i ->
  holds (read_entries fuel st currEntry i) m (fun res m' t =>
    match res with
    | Returned e =>
        decoding_error e = true ->
        exists k, decoded_until_failure (entries m) ents e i k (entries m')
    | Exited st' =>
        (exists cur', acl_of (os m') (_acl m') = Some (ents, cur'))
        /\ exists k, decoded_upto (entries m) ents i k (entries m')
                    /\ ((st' <? 0) = false -> k = length ents)
    | OutOfFuel => (fuel < (if (0 <? st)%Z then length ents + 1 - i else 1))%nat
    end).
Proof.
  revert st currEntry i m.
  induction fuel as [|fuel IH]; intros st currEntry i m (cur & Ha & Hin & Hend); simpl.
  - wp'. destruct (0 <? st) eqn:C; [|lia]. destruct (Hin eq_refl) as (_ & _ & ?). lia.
  - wp'.
    all: try (destruct (Hin eq_refl) as (-> & -> & Hi);
              destruct (lookup_lt_is_Some_2 ents i Hi) as [x Hx]).
    all: entry_facts.
    all: try (intros _; exists i; destruct Hexit as (_ & _ & _ & _ & _ & He & _);
              rewrite He; simpl_machine; subst;
              split; [lia|]; split; [intros; lia|]; split;
              [ intros j Hj; rewrite ?update_at_other by lia; reflexivity
              | exists x; split; [assumption|]; rewrite ?update_at_same;
                unfold partially_decoded, decoded_qualifier;
                rewrite ?Hv; try match goal with H : _ || _ = _ |- _ => rewrite H end;
                try match goal with H : load_int32 _ _ = _ |- _ => rewrite H end;
                reflexivity ]).
    3: { split; [eauto|]. exists i. split.
         - split; [lia|]. split; [intros; lia | reflexivity].
         - intros C'. apply Hend. lia. }
    all: match goal with
         | E : os_acl_get_entry _ ACL_NEXT_ENTRY ?w = _, Ha : acl_of ?w _ = Some _ |- _ =>
             pose proof (os_acl_get_entry_spec _ _ _ _ _ _ _ _ E Ha (or_intror eq_refl))
               as Hnext;
             simpl in Hnext
         end.
    all: (eapply holds_mono;
          [ apply IH; unfold decoding; simpl_machine;
            destruct Hnext as [(-> & Hp & -> & Ha') | [(-> & Hp & Ha') | (-> & Ha')]];
            eexists; (split; [exact Ha'|]); split;
            first [discriminate | intros _; repeat apply conj; auto; lia | lia]
          | ]).
    all: simpl_machine; intros [e|st'|] m' t.
    all: try (intros Hr He; destruct (Hr He) as [k Hk]; exists k;
              eapply decoded_until_failure_step; [exact Hx | | | exact Hk]).
    all: try (intros (Hl & k & Hk & Hlen); split; [exact Hl|]; exists k;
              split; [|exact Hlen];
              eapply decoded_upto_step; [exact Hx | | | exact Hk]).
    all: try (intros j Hj; rewrite ?update_at_other by assumption; reflexivity).
    all: try (rewrite ?update_at_same; unfold decoded, decoded_qualifier;
              erewrite decoded_permissions_eq by reflexivity;
              try match goal with H : _ || _ = _ |- _ => rewrite H end;
              try match goal with H : load_int32 _ _ = _ |- _ => rewrite H end;
              reflexivity).
    all: intros Hf; destruct Hnext as [(-> & ?) | [(-> & ?) | (-> & ?)]];
         simpl in *; lia.
Qed.

Lemma ReadFileAclAndClose_walk fuel m ents cur :
  acl_of (os m) (_acl m) = Some (ents, cur) ->
  holds (ReadFileAclAndClose fuel) m (fun res m' t =>
    (res = None -> (fuel <= length ents)%nat)
    /\ (forall e, res = Some e -> decoding_error e = true ->
          exists k, decoded_until_failure (entries m) ents e 0 k (entries m'))
    /\ (res = Some NATIVE_ERROR_SUCCESS ->
          decoded_upto (entries m) ents 0 (length ents) (entries m'))).
Proof.
  intros Ha. unfold ReadFileAclAndClose. wp'.
  pose proof (os_acl_get_entry_spec _ _ _ _ _ _ _ _ E Ha (or_introl eq_refl)) as Hfirst.
  simpl in Hfirst.
  eapply holds_mono.
  { apply holds_and; [apply read_entries_control|].
    apply (read_entries_walk _ _ _ _ _ ents). unfold decoding. simpl_machine.
    destruct Hfirst as [(-> & Hp & -> & Ha') | [(-> & Hp & Ha') | (-> & Ha')]];
      eexists; (split; [exact Ha'|]); split;
      first [discriminate | intros _; repeat apply conj; auto; lia | lia]. }
  simpl_machine. intros [e|st'|] m1 t [H1 H2].
  - destruct H1 as [He _]. wp'. split; [discriminate|]. split.
    + intros e' [= <-] _. exact (H2 He).
    + intros [= ->]. discriminate.
  - destruct H2 as (_ & k & Hk & Hlen). wp'.
    + split; [discriminate|]. split; [intros e [= <-]; discriminate | discriminate].
    + split; [discriminate|]. split; [intros e [= <-]; discriminate|].
      intros _. destruct Hexit as (_ & _ & _ & _ & _ & He & _).
      rewrite He. rewrite <- (Hlen eq_refl). exact Hk.
  - wp'. split; [|split; [discriminate | discriminate]].
    intros _. destruct Hfirst as [(-> & ?) | [(-> & ?) | (-> & ?)]]; simpl in H2; lia.
Qed.

(** With more fuel than the loaded ACL has entries, the second phase of a
    read returns. *)
Lemma ReadFileAclAndClose_terminates fuel m :
  (0 < fuel)%nat ->
  (forall ents cur, acl_of (os m) (_acl m) = Some (ents, cur) -> (length ents < fuel)%nat) ->
  (ReadFileAclAndClose fuel m).1.1 <> None.
Proof.
  intros Hpos Hlen. destruct (acl_of (os m) (_acl m)) as [[ents cur]|] eqn:Ha.
  - pose proof (ReadFileAclAndClose_walk fuel m ents cur Ha) as (H & _).
    intros Hn. specialize (H Hn). specialize (Hlen _ _ eq_refl). lia.
  - destruct fuel as [|fuel]; [lia|].
    unfold ReadFileAclAndClose.
    change ((?c m).1.1 <> None) with (holds c m (fun res _ _ => res <> None)).
    wp'. pose proof (os_acl_get_entry_dead _ _ _ _ _ _ E Ha) as ->.
    simpl. wp'; discriminate.
Qed.



(** ** Resources *)

Lemma track_app held t1 t2 :
  track held (t1 ++ t2)
  = match track held t1 with Some held' => track held' t2 | None => None end.
Proof.
  revert held. induction t1 as [|ev t1 IH]; intros held; simpl; [reflexivity|].
  destruct (acquires ev) as [r|].
  - destruct (decide (r ∈ held)); [reflexivity | apply IH].
  - destruct (releases ev) as [r|]; [|apply IH].
    destruct (decide (r ∈ held)); [apply IH | reflexivity].
Qed.

Lemma track_skip held ev t :
  acquires ev = None -> releases ev = None -> track held (ev :: t) = track held t.
Proof. simpl. intros -> ->. reflexivity. Qed.

Lemma track_quiet held t : Forall acquires_nothing t -> track held t = Some held.
Proof.
  induction 1 as [|ev t [Ha Hr] _ IH]; [reflexivity|].
  rewrite track_skip by assumption. exact IH.
Qed.

Lemma track_acquire_release held ev1 ev2 r t :
  acquires ev1 = Some r -> acquires ev2 = None -> releases ev2 = Some r -> r ∉ held ->
  track held (ev1 :: ev2 :: t) = track held t.
Proof.
  intros E1 E2 E3 Hr. simpl. rewrite E1, E2, E3.
  rewrite decide_False by assumption.
  rewrite decide_True by set_solver.
  f_equal. set_solver.
Qed.

Lemma track_cleanup m tc :
  cleanup_events m tc -> _fd m <> 0 -> _acl m <> 0 ->
  track {[Fd (_fd m); Obj (_acl m)]} tc = Some ∅.
Proof.
  intros (r1 & e1 & r2 & e2 & ->) Hfd Hacl.
  unfold truthy. rewrite (proj2 (Z.eqb_neq _ _) Hfd), (proj2 (Z.eqb_neq _ _) Hacl).
  simpl. rewrite decide_True by set_solver. rewrite decide_True by set_solver.
  f_equal. set_solver.
Qed.

Lemma track_cleanup_descriptor m tc :
  cleanup_events m tc -> _fd m <> 0 -> _acl m = 0 ->
  track {[Fd (_fd m)]} tc = Some ∅.
Proof.
  intros (r1 & e1 & r2 & e2 & ->) Hfd Hacl.
  unfold truthy. rewrite (proj2 (Z.eqb_neq _ _) Hfd), Hacl.
  simpl. rewrite decide_True by set_solver.
  f_equal. set_solver.
Qed.

Lemma failure_exit_events m m' t : failure_exit m m' t -> cleanup_events m t.
Proof. intros (_ & _ & _ & _ & _ & _ & _ & H). exact H. Qed.

Lemma cleanup_exit_events m m' t : cleanup_exit m m' t -> cleanup_events m t.
Proof. intros (_ & _ & _ & _ & _ & _ & _ & H). exact H. Qed.

Lemma track_failed_pointer held ev t :
  returns_pointer (name_of (ev_call ev)) = true -> negb (truthy (ev_ret ev)) = true ->
  releases ev = None ->
  track held (ev :: t) = track held t.
Proof.
  intros Hp Hr Hrel. apply track_skip; [|exact Hrel].
  apply negb_true_iff, truthy_false in Hr. unfold acquires. rewrite Hr.
  destruct (ev_call ev); try reflexivity; discriminate.
Qed.

Lemma cleanup_events_of_exit m0 m m' t :
  failure_exit m0 m' t \/ cleanup_exit m0 m' t ->
  _fd m0 = _fd m -> _acl m0 = _acl m -> cleanup_events m t.
Proof.
  intros [H|H] H1 H2; eapply cleanup_events_ext; eauto;
    destruct H as (_ & _ & _ & _ & _ & _ & _ & H); exact H.
Qed.

(** A trace of calls that acquire and release nothing, then a clean-up. *)
Ltac skip_quiet_calls :=
  simpl app; rewrite ?app_nil_r;
  repeat first
    [ rewrite track_skip by reflexivity
    | rewrite track_failed_pointer by (first [reflexivity | simpl; assumption]) ].

Ltac track_side := simpl_machine; first [reflexivity | assumption | congruence].

Ltac solve_track_cleanup :=
  skip_quiet_calls;
  match goal with
  | H : failure_exit ?m0 _ ?t |- track {[Fd ?fd; Obj ?acl]} ?t = _ =>
      apply (track_cleanup (set__acl acl (set__fd fd m0)));
      [ eapply cleanup_events_of_exit; [left; exact H | track_side | track_side]
      | track_side | track_side ]
  | H : cleanup_exit ?m0 _ ?t |- track {[Fd ?fd; Obj ?acl]} ?t = _ =>
      apply (track_cleanup (set__acl acl (set__fd fd m0)));
      [ eapply cleanup_events_of_exit; [right; exact H | track_side | track_side]
      | track_side | track_side ]
  | H : failure_exit ?m0 _ ?t |- track {[Fd ?fd]} ?t = _ =>
      apply (track_cleanup_descriptor (set__acl 0 (set__fd fd m0)));
      [ eapply cleanup_events_of_exit;
        [ left; exact H
        | track_side
        | simpl_machine;
          first [assumption | eapply truthy_false; eapply negb_true_iff; eassumption] ]
      | track_side | reflexivity ]
  end.

Lemma build_entries_track n i m :
  _fd m <> 0 -> _acl m <> 0 ->
  holds (build_entries n i) m (fun res m' t =>
    track {[Fd (_fd m); Obj (_acl m)]} t
    = Some (match res with
            | None => {[Fd (_fd m); Obj (_acl m)]}
            | Some _ => ∅
            end)).
Proof.
  revert i m. induction n as [|n IH]; intros i m Hfd Hacl; simpl.
  - wp'. reflexivity.
  - wp'.
    all: same_acl.
    all: try solve [solve_track_cleanup].
    all: (eapply holds_mono; [apply IH; simpl_machine; assumption|]; simpl_machine;
          intros res m' t Ht).
    all: simpl app; rewrite ?app_nil_r; repeat (rewrite track_skip by reflexivity);
         exact Ht.
Qed.

Lemma no_descriptor_0_head path flags r e t :
  ~ opens_descriptor_0 ({| ev_call := c_open path flags; ev_ret := r; ev_errno := e |} :: t) ->
  r <> 0.
Proof.
  intros H ->. apply H. eexists _, path, flags.
  split; [apply list_elem_of_here|]. split; reflexivity.
Qed.

Lemma track_open held path flags r e t :
  (r <? 0) = false -> Fd r ∉ held ->
  track held ({| ev_call := c_open path flags; ev_ret := r; ev_errno := e |} :: t)
  = track ({[Fd r]} ∪ held) t.
Proof.
  intros Hr Hn. simpl. unfold acquires. simpl. rewrite Hr.
  rewrite decide_False by assumption. reflexivity.
Qed.

Lemma track_acl_init held n p e t :
  truthy p = true -> Obj p ∉ held ->
  track held ({| ev_call := c_acl_init n; ev_ret := p; ev_errno := e |} :: t)
  = track ({[Obj p]} ∪ held) t.
Proof.
  intros Hp Hn. simpl. unfold acquires. simpl. unfold NULL.
  apply truthy_true, Z.eqb_neq in Hp. rewrite Hp.
  rewrite decide_False by assumption. reflexivity.
Qed.

Lemma track_acl_get_fd held fd type p e t :
  truthy p = true -> Obj p ∉ held ->
  track held ({| ev_call := c_acl_get_fd fd type; ev_ret := p; ev_errno := e |} :: t)
  = track ({[Obj p]} ∪ held) t.
Proof.
  intros Hp Hn. simpl. unfold acquires. simpl. unfold NULL.
  apply truthy_true, Z.eqb_neq in Hp. rewrite Hp.
  rewrite decide_False by assumption. reflexivity.
Qed.

Lemma held_descriptor (r : Z) : {[Fd r]} ∪ (∅ : gset resource) = {[Fd r]}.
Proof. set_solver. Qed.

Lemma held_both (r p : Z) : {[Obj p]} ∪ ({[Fd r]} : gset resource) = {[Fd r; Obj p]}.
Proof. set_solver. Qed.

Lemma SetFilePermissionDataAndAcl_track fileName setDefaultAcl m :
  _acl m = NULL ->
  holds (SetFilePermissionDataAndAcl fileName setDefaultAcl) m (fun res m' t =>
    ~ opens_descriptor_0 t -> track ∅ t = Some ∅).
Proof.
  intros Hidle. unfold SetFilePermissionDataAndAcl. wp'.
  { intros _. simpl. unfold acquires. simpl. rewrite C. reflexivity. }
  all: lazymatch goal with
       | |- holds _ _ _ => idtac
       | |- _ =>
           intros H0; simpl app in *; apply no_descriptor_0_head in H0;
           rewrite track_open by (first [assumption | set_solver]);
           rewrite held_descriptor; solve_track_cleanup
       end.
  all: destruct (decide (r = 0)) as [->|Hr];
       [ repeat (apply holds_intro; intros ? ? ? _); intros H0; exfalso; apply H0;
         eexists _, fileName, O_RDONLY; split; [apply list_elem_of_here | split; reflexivity]
       | ].
  all: match goal with
       | C : negb (truthy _) = false |- _ =>
           apply negb_false_iff in C; pose proof (truthy_true _ C) as Hacl
       end.
  all: (eapply holds_mono;
        [ apply holds_and;
          [apply build_entries_control | apply build_entries_track; simpl_machine; assumption]
        | ]).
  all: simpl_machine; intros [e|] m1 t [H1 H2].
  all: try (destruct H1 as (K & _ & _); destruct K as (K1 & K2 & _)).
  all: wp'; intros _; simpl app.
  all: rewrite track_open by (first [assumption | set_solver]); rewrite held_descriptor.
  all: skip_quiet_calls.
  all: rewrite track_acl_init by (first [assumption | set_solver]); rewrite held_both.
  all: rewrite ?app_nil_r; first [exact H2 | rewrite track_app, H2; solve_track_cleanup].
Qed.

Lemma held_pair (r p : Z) : ({[Obj p]} ∪ ({[Fd r]} ∪ ∅) : gset resource) = {[Fd r; Obj p]}.
Proof. set_solver. Qed.

Lemma OpenFileAndReadPermissionData_track fuel fileName loadDefaultAcl m :
  _acl m = NULL ->
  holds (OpenFileAndReadPermissionData fuel fileName loadDefaultAcl) m (fun res m' t =>
    forall e, res = Some e -> ~ opens_descriptor_0 t ->
    track ∅ t = Some (held_at_exit (OpOpen fileName loadDefaultAcl) e m')).
Proof.
  intros Hidle. unfold OpenFileAndReadPermissionData. wp'.
  { intros e [= <-] _. simpl. unfold acquires. simpl. rewrite C. reflexivity. }
  all: lazymatch goal with
       | |- holds _ _ _ => idtac
       | |- _ =>
           intros e [= <-] H0; simpl app in *; apply no_descriptor_0_head in H0;
           rewrite track_open by (first [assumption | set_solver]);
           rewrite held_descriptor; solve_track_cleanup
       end.
  destruct (decide (r = 0)) as [->|Hr];
    [ repeat (apply holds_intro; intros ? ? ? _); intros e _ H0; exfalso; apply H0;
      eexists _, fileName, O_RDONLY; split; [apply list_elem_of_here | split; reflexivity]
    | ].
  apply negb_false_iff in C1. pose proof (truthy_true _ C1) as Hacl.
  eapply holds_mono; [apply count_entries_control|].
  simpl_machine. intros [e|[st' n']|] m1 t; [tauto| |intros _; wp'; discriminate].
  intros ((K1 & K2 & _) & _ & Ht & _).
  wp'; intros e [= <-] _; simpl app.
  all: rewrite track_open by (first [assumption | set_solver]); rewrite held_descriptor.
  all: skip_quiet_calls.
  all: rewrite track_acl_get_fd by (first [assumption | set_solver]); rewrite held_both.
  all: skip_quiet_calls.
  all: rewrite ?app_nil_r; try rewrite track_app; rewrite (track_quiet _ _ Ht).
  - solve_track_cleanup.
  - simpl. rewrite K1, K2. reflexivity.
Qed.

Lemma track_qualifier held e p en r en' t :
  truthy p = true -> Obj p ∉ held ->
  track held ({| ev_call := c_acl_get_qualifier e; ev_ret := p; ev_errno := en |}
              :: {| ev_call := c_acl_free p; ev_ret := r; ev_errno := en' |} :: t)
  = track held t.
Proof.
  intros Hp Hn. apply (track_acquire_release _ _ _ (Obj p)); try reflexivity; [|exact Hn].
  unfold acquires. simpl. unfold NULL.
  apply truthy_true, Z.eqb_neq in Hp. rewrite Hp. reflexivity.
Qed.

Lemma not_held_other (fd acl p : Z) : p <> acl -> Obj p ∉ ({[Fd fd; Obj acl]} : gset resource).
Proof. set_solver. Qed.

Ltac skip_calls_on_entry :=
  simpl app; rewrite ?app_nil_r;
  repeat first
    [ rewrite track_skip by reflexivity
    | rewrite track_failed_pointer by (first [reflexivity | simpl; assumption])
    | rewrite track_qualifier by (first [assumption | apply not_held_other; assumption]) ].

Lemma read_entries_track fuel st currEntry i m ents :
  decoding m ents st currEntry i -> _fd m <> 0 -> _acl m <> 0 ->
  holds (read_entries fuel st currEntry i) m (fun res m' t =>
    match res with
    | Returned _ => track {[Fd (_fd m); Obj (_acl m)]} t = Some ∅
    | Exited _ => track {[Fd (_fd m); Obj (_acl m)]} t = Some {[Fd (_fd m); Obj (_acl m)]}
    | OutOfFuel => True
    end).
Proof.
  revert st currEntry i m.
  induction fuel as [|fuel IH];
    intros st currEntry i m (cur & Ha & Hin & Hend) Hfd Hacl; simpl.
  - wp'. exact I.
  - wp'.
    all: try (destruct (Hin eq_refl) as (-> & -> & Hi);
              destruct (lookup_lt_is_Some_2 ents i Hi) as [x Hx]).
    all: try match goal with
         | C : negb (truthy _) = true |- _ => pose proof C as Cnull
         end.
    all: entry_facts.
    all: try solve [skip_calls_on_entry; solve_track_cleanup].
    3: reflexivity.
    all: match goal with
         | E : os_acl_get_entry _ ACL_NEXT_ENTRY ?w = _, Ha : acl_of ?w _ = Some _ |- _ =>
             pose proof (os_acl_get_entry_spec _ _ _ _ _ _ _ _ E Ha (or_intror eq_refl))
               as Hnext;
             simpl in Hnext
         end.
    all: (eapply holds_mono;
          [ apply (IH _ _ _ _); [|simpl_machine; assumption ..];
            unfold decoding; simpl_machine;
            destruct Hnext as [(-> & Hp & -> & Ha') | [(-> & Hp & Ha') | (-> & Ha')]];
            eexists; (split; [exact Ha'|]); split;
            first [discriminate | intros _; repeat apply conj; auto; lia | lia]
          | ]).
    all: simpl_machine; intros [e|st'|] m' t Ht; try exact I.
    all: skip_calls_on_entry; exact Ht.
Qed.

Lemma ReadFileAclAndClose_track fuel m :
  loaded m ->
  holds (ReadFileAclAndClose fuel) m (fun res m' t =>
    res <> None -> track {[Fd (_fd m); Obj (_acl m)]} t = Some ∅).
Proof.
  intros (Hfd & Hacl & _ & [[ents cur] Ha]). unfold ReadFileAclAndClose. wp'.
  pose proof (os_acl_get_entry_spec _ _ _ _ _ _ _ _ E Ha (or_introl eq_refl)) as Hfirst.
  simpl in Hfirst.
  eapply holds_mono.
  { apply holds_and; [apply read_entries_control|].
    apply (read_entries_track _ _ _ _ _ ents); [|simpl_machine; assumption ..].
    unfold decoding. simpl_machine.
    destruct Hfirst as [(-> & Hp & -> & Ha') | [(-> & Hp & Ha') | (-> & Ha')]];
      eexists; (split; [exact Ha'|]); split;
      first [discriminate | intros _; repeat apply conj; auto; lia | lia]. }
  simpl_machine. intros [e|st'|] m1 t [H1 H2].
  - wp'. intros _. skip_quiet_calls. exact H2.
  - destruct H1 as ((K1 & K2 & _) & _).
    wp'; intros _; skip_quiet_calls; rewrite track_app, H2; solve_track_cleanup.
  - wp'. intros H. contradiction.
Qed.

Lemma run_track fuel op m :
  ready op m ->
  holds (run fuel op) m (fun res m' t =>
    forall e, res = Some e -> ~ opens_descriptor_0 t ->
    track (held_at_entry op m) t = Some (held_at_exit op e m')).
Proof.
  intros Hready. destruct op; simpl in *.
  - apply OpenFileAndReadPermissionData_track. exact Hready.
  - eapply holds_mono; [apply ReadFileAclAndClose_track; exact Hready|].
    simpl. intros res m' t H e -> _. apply H. discriminate.
  - eapply holds_mono; [apply SetFilePermissionDataAndAcl_track; exact Hready|].
    simpl. intros res m' t H e _ H0. rewrite (H H0). destruct e; reflexivity.
Qed.

(** C5 (as amended). On every exit path of every public operation, each
    resource the operation holds is released exactly once, except on the
    successful exit of [OpenFileAndReadPermissionData], which keeps the
    descriptor and the ACL for [ReadFileAclAndClose] to release: no resource
    is released twice or when not held, and none but those two is left
    held.  [ReadFileAclAndClose] releases both on success and on its first
    failure.  (For a session that is idle, or loaded for the second phase of
    a read, and a descriptor other than 0.) *)
Theorem resources_released_once fuel op m e m' tr :
  run fuel op m = (Some e, m', tr) ->
  ready op m ->
  ~ opens_descriptor_0 tr ->
  track (held_at_entry op m) tr = Some (held_at_exit op e m').
Proof.
  intros Hrun Hready H0.
  exact (holds_elim _ _ _ _ _ _ (run_track fuel op m Hready) Hrun e eq_refl H0).
Qed.

(** ** Writing: ownership, mode, and the ACL stage *)

Lemma acl_calls_no_fchown t :
  forallb acl_call t = true -> List.filter is_fchown (calls t) = [].
Proof.
  induction t as [|ev t IH]; [reflexivity|]. simpl.
  intros H. apply andb_true_iff in H as [H1 H2]. rewrite (IH H2).
  unfold acl_call in H1. destruct (ev_call ev); simpl in *; congruence.
Qed.

Lemma acl_calls_no_fchmod t :
  forallb acl_call t = true -> List.filter is_fchmod (calls t) = [].
Proof.
  induction t as [|ev t IH]; [reflexivity|]. simpl.
  intros H. apply andb_true_iff in H as [H1 H2]. rewrite (IH H2).
  unfold acl_call in H1. destruct (ev_call ev); simpl in *; congruence.
Qed.

Lemma acl_calls_no_mode_change t :
  forallb acl_call t = true -> mode_changed t = false.
Proof.
  unfold mode_changed. induction t as [|ev t IH]; [reflexivity|]. simpl.
  intros H. apply andb_true_iff in H as [H1 H2]. rewrite (IH H2).
  unfold acl_call in H1. destruct (ev_call ev); simpl in *; congruence.
Qed.

Lemma calls_app t1 t2 : calls (t1 ++ t2) = calls t1 ++ calls t2.
Proof. unfold calls. apply fmap_app. Qed.

Lemma filter_calls_app f t1 t2 :
  List.filter f (calls (t1 ++ t2)) = List.filter f (calls t1) ++ List.filter f (calls t2).
Proof. rewrite calls_app. apply List.filter_app. Qed.

Lemma mode_changed_app t1 t2 : mode_changed (t1 ++ t2) = mode_changed t1 || mode_changed t2.
Proof. unfold mode_changed. apply existsb_app. Qed.

Lemma mode_changed_cons ev t :
  mode_changed (ev :: t)
  = (is_fchmod (ev_call ev) && negb (ev_ret ev <? 0)) || mode_changed t.
Proof. reflexivity. Qed.

Lemma returned_acl_calls m e m' t : returned m e m' t -> forallb acl_call t = true.
Proof. intros (_ & _ & _ & _ & _ & _ & H). exact H. Qed.

Lemma cond_land (c : bool) (k mask : Z) :
  k .& mask = k -> (if c then k else 0) .& mask = (if c then k else 0).
Proof. destruct c; [auto | intros _; apply Z.land_0_l]. Qed.

Lemma encodeMode_permission_bits o g t : encodeMode o g t .& ALLPERMS = encodeMode o g t.
Proof.
  unfold encodeMode. rewrite !Z.land_lor_distr_l.
  rewrite !cond_land by reflexivity. reflexivity.
Qed.

Lemma chown_id_new_id current requested :
  chown_id current (new_id requested current) = chown_id current (to_uint32 requested).
Proof.
  unfold chown_id, new_id, UNCHANGED.
  destruct (to_uint32 requested =? current) eqn:E; simpl.
  - apply Z.eqb_eq in E. rewrite E. change (to_uint32 (-1) =? 2 ^ 32 - 1) with true.
    simpl. destruct (current =? 2 ^ 32 - 1); reflexivity.
  - reflexivity.
Qed.

Lemma filter_calls_cons f ev t :
  List.filter f (calls (ev :: t))
  = if f (ev_call ev) then ev_call ev :: List.filter f (calls t)
    else List.filter f (calls t).
Proof. reflexivity. Qed.

Lemma filter_calls_nil f : List.filter f (calls []) = [].
Proof. reflexivity. Qed.

Lemma mode_changed_nil : mode_changed [] = false.
Proof. reflexivity. Qed.

(** The calls on the file in a trace whose other calls are known to be on
    ACLs. *)
Ltac acl_call_facts :=
  repeat match goal with
  | H : failure_exit _ _ ?t |- _ =>
      lazymatch goal with
      | _ : forallb acl_call t = true |- _ => fail
      | _ => pose proof (failure_exit_acl_call _ _ _ H)
      end
  | H : cleanup_exit _ _ ?t |- _ =>
      lazymatch goal with
      | _ : forallb acl_call t = true |- _ => fail
      | _ => pose proof (cleanup_exit_acl_call _ _ _ H)
      end
  | H : returned _ _ _ ?t |- _ =>
      lazymatch goal with
      | _ : forallb acl_call t = true |- _ => fail
      | _ => pose proof (returned_acl_calls _ _ _ _ H)
      end
  end.

Ltac filter_trace :=
  simpl app; rewrite ?app_nil_r;
  repeat first
    [ rewrite filter_calls_cons; cbn [is_fchown is_fchmod ev_call]
    | rewrite filter_calls_app
    | rewrite filter_calls_nil
    | rewrite mode_changed_cons; cbn [is_fchown is_fchmod ev_call ev_ret andb orb]
    | rewrite mode_changed_app
    | rewrite mode_changed_nil ];
  repeat match goal with
  | H : forallb acl_call ?t = true |- _ =>
      first [ rewrite (acl_calls_no_fchown t H)
            | rewrite (acl_calls_no_fchmod t H)
            | rewrite (acl_calls_no_mode_change t H) ]
  | H : (?r <? 0) = _ |- context [?r <? 0] => rewrite H
  end;
  cbn [andb orb negb app].

Lemma ownership_test a b :
  negb (a =? UNCHANGED) || negb (b =? UNCHANGED) = negb ((a =? UNCHANGED) && (b =? UNCHANGED)).
Proof. symmetry. apply negb_andb. Qed.

Lemma inode_after_both dc ino :
  {| i_mode := (i_mode ino .& S_IFMT)
               .| (encodeMode (ownerPermissions dc) (groupPermissions dc)
                     (otherPermissions dc) .& ALLPERMS);
     i_uid := chown_id (i_uid ino) (new_id (ownerId dc) (i_uid ino));
     i_gid := chown_id (i_gid ino) (new_id (groupId dc) (i_gid ino));
     i_access := i_access ino;
     i_default := i_default ino |}
  = inode_after_write dc ino.
Proof.
  unfold inode_after_write.
  rewrite encodeMode_permission_bits, !chown_id_new_id. reflexivity.
Qed.

Lemma chown_id_unchanged current requested :
  (new_id requested current =? UNCHANGED) = true ->
  chown_id current (to_uint32 requested) = current.
Proof.
  intros H. rewrite <- chown_id_new_id. apply Z.eqb_eq in H. rewrite H. reflexivity.
Qed.

Lemma inode_after_mode_only dc ino :
  (new_id (ownerId dc) (i_uid ino) =? UNCHANGED)
  && (new_id (groupId dc) (i_gid ino) =? UNCHANGED) = true ->
  {| i_mode := (i_mode ino .& S_IFMT)
               .| (encodeMode (ownerPermissions dc) (groupPermissions dc)
                     (otherPermissions dc) .& ALLPERMS);
     i_uid := i_uid ino;
     i_gid := i_gid ino;
     i_access := i_access ino;
     i_default := i_default ino |}
  = inode_after_write dc ino.
Proof.
  intros H. apply andb_true_iff in H as [H1 H2]. unfold inode_after_write.
  rewrite encodeMode_permission_bits, !chown_id_unchanged by assumption. reflexivity.
Qed.

Lemma SetFilePermissionDataAndAcl_steps fileName setDefaultAcl m ino :
  fs (os m) !! fileName = Some ino ->
  let dc := dataContainer m in
  let newOwner := new_id (ownerId dc) (i_uid ino) in
  let newGroup := new_id (groupId dc) (i_gid ino) in
  let chmodBits := encodeMode (ownerPermissions dc) (groupPermissions dc)
                     (otherPermissions dc) in
  holds (SetFilePermissionDataAndAcl fileName setDefaultAcl) m (fun res m' t =>
    (res <> Some NATIVE_ERROR_OPEN_FAILED -> res <> Some NATIVE_ERROR_FSTAT_FAILED ->
     exists fd,
       List.filter is_fchown (calls t)
       = (if (newOwner =? UNCHANGED) && (newGroup =? UNCHANGED) then []
          else [c_fchown fd newOwner newGroup])
       /\ (res <> Some NATIVE_ERROR_CHOWN_FAILED ->
           List.filter is_fchmod (calls t) = [c_fchmod fd chmodBits]))
    /\ (forall e, res = Some e -> e <> NATIVE_ERROR_SUCCESS -> mode_changed t = true ->
        acl_stage e = true
        /\ fs (os m') !! fileName = Some (inode_after_write dc ino))).
Proof.
  intros Hino. cbv zeta.
  unfold SetFilePermissionDataAndAcl. wp'.
  { split; [congruence|]. intros e [= <-] _. simpl. unfold mode_changed. simpl.
    discriminate. }
  all: pose proof (os_open_spec _ _ _ _ _ E) as (Hfs & _ & Ho); rewrite C in Ho;
       destruct Ho as (Hr & _ & Hfdt);
       assert (Hfd : fdt w !! r = Some fileName) by (rewrite Hfdt; apply lookup_insert_eq).
  { split; [congruence|]. intros e [= <-] _. simpl app.
    rewrite !mode_changed_cons. cbn [ev_call ev_ret is_fchmod andb orb].
    rewrite (acl_calls_no_mode_change _ (failure_exit_acl_call _ _ _ Hexit)). discriminate. }
  all: destruct (os_fstat_spec _ _ _ _ _ _ E0 C0 Hfd) as (ino' & Hino' & ->);
       rewrite Hfs, Hino in Hino'; injection Hino' as <-;
       pose proof (os_fstat_files _ _ _ _ E0) as ((Hfs0 & Hfdt0) & _);
       cbn [st_uid st_gid st_mode] in *.
  all: try match goal with
       | C : negb _ || negb _ = true |- _ =>
           rewrite ownership_test in C; apply negb_true_iff in C
       | C : negb _ || negb _ = false |- _ =>
           rewrite ownership_test in C; apply negb_false_iff in C
       end.
  all: acl_call_facts.
  (* the ownership change failed *)
  { split.
    - intros _ _. exists r. split; [filter_trace; rewrite C1; reflexivity | congruence].
    - intros e [= <-] _. filter_trace. discriminate. }
  (* the mode change failed *)
  { split.
    - intros _ _. exists r. split; [filter_trace; rewrite C1; reflexivity|].
      intros _. filter_trace. reflexivity.
    - intros e [= <-] _. filter_trace. discriminate. }
  3: { split.
    - intros _ _. exists r. split; [filter_trace; rewrite C1; reflexivity|].
      intros _. filter_trace. reflexivity.
    - intros e [= <-] _. filter_trace. discriminate. }
  (* after the mode change: the inode *)
  1,2: assert (Hfd0 : fdt w0 !! r = Some fileName) by congruence;
       destruct (os_fchown_spec _ _ _ _ _ _ _ E1 C2 Hfd0) as (Hfdt1 & _ & ino1 & Hino1 & Hfs1);
       rewrite Hfs0, Hfs, Hino in Hino1; injection Hino1 as <-;
       assert (Hfd1 : fdt w1 !! r = Some fileName) by congruence;
       destruct (os_fchmod_spec _ _ _ _ _ _ E2 C3 Hfd1) as (Hfdt2 & _ & ino2 & Hino2 & Hfs2);
       rewrite Hfs1, lookup_insert_eq in Hino2; injection Hino2 as <-;
       cbn [i_mode i_uid i_gid i_access i_default] in Hfs2;
       rewrite inode_after_both in Hfs2;
       assert (Hnow : fs w2 !! fileName = Some (inode_after_write (dataContainer m) ino))
         by (rewrite Hfs2; apply lookup_insert_eq).
  3,4: assert (Hfd0 : fdt w0 !! r = Some fileName) by congruence;
       destruct (os_fchmod_spec _ _ _ _ _ _ E1 C2 Hfd0) as (Hfdt2 & _ & ino2 & Hino2 & Hfs2);
       rewrite Hfs0, Hfs, Hino in Hino2; injection Hino2 as <-;
       rewrite (inode_after_mode_only _ _ C1) in Hfs2;
       assert (Hnow : fs w1 !! fileName = Some (inode_after_write (dataContainer m) ino))
         by (rewrite Hfs2; apply lookup_insert_eq).
  all: lazymatch goal with
       | |- holds _ _ _ =>
           eapply holds_mono; [apply build_entries_control|];
           simpl_machine; intros [e0|] m1 t1;
           [ intros [Hstage Hret]
           | intros ((_ & _ & _ & _ & _ & Kfs & _) & _ & Hloop); simpl_machine_in Kfs ];
           wp'
       | |- _ => idtac
       end.
  all: acl_call_facts.
  all: split;
       [ intros _ _; exists r; split;
         [ filter_trace; rewrite C1; reflexivity
         | intros _; filter_trace; reflexivity ]
       | intros e [= <-] Hne _;
         first [congruence | split; [first [reflexivity | assumption]|] ] ].
  all: try match goal with
       | H : failure_exit _ _ _ |- _ => destruct H as (_ & _ & _ & _ & _ & _ & Hfs' & _)
       | H : returned _ _ _ _ |- _ => destruct H as (_ & _ & _ & _ & Hfs' & _)
       end.
  all: rewrite Hfs'; simpl_machine.
  all: try match goal with
       | E : os_acl_set_fd _ _ _ = (?r, _), C : (?r <? 0) = true |- _ =>
           apply (os_acl_set_fd_failed_files _ _ _ _ _ E) in C; destruct C
       end.
  all: files_facts; congruence.
Qed.

Lemma new_id_spec requested current :
  new_id requested current
  = if to_uint32 requested =? current then UNCHANGED else to_uint32 requested.
Proof. unfold new_id. destruct (to_uint32 requested =? current); reflexivity. Qed.

(** C3 (as amended). [SetFilePermissionDataAndAcl], once it has opened the
    file and read its metadata, calls [fchown] if and only if the requested
    owner or the requested group differs from the file's and is not itself
    the value -1 that stands for "unchanged"; the call passes -1 for the id
    that does not differ.  If the ownership step does not fail, it then
    calls [fchmod] once with the encoded mode, whether or not the mode
    changes. *)
Theorem ownership_and_mode_calls fileName setDefaultAcl m res m' tr ino :
  SetFilePermissionDataAndAcl fileName setDefaultAcl m = (res, m', tr) ->
  fs (os m) !! fileName = Some ino ->
  res <> Some NATIVE_ERROR_OPEN_FAILED ->
  res <> Some NATIVE_ERROR_FSTAT_FAILED ->
  let dc := dataContainer m in
  let owner := to_uint32 (ownerId dc) in
  let group := to_uint32 (groupId dc) in
  let newOwner := if owner =? i_uid ino then UNCHANGED else owner in
  let newGroup := if group =? i_gid ino then UNCHANGED else group in
  exists fd,
    List.filter is_fchown (calls tr)
    = (if (newOwner =? UNCHANGED) && (newGroup =? UNCHANGED) then []
       else [c_fchown fd newOwner newGroup])
    /\ (res <> Some NATIVE_ERROR_CHOWN_FAILED ->
        List.filter is_fchmod (calls tr)
        = [c_fchmod fd (encodeMode (ownerPermissions dc) (groupPermissions dc)
                          (otherPermissions dc))]).
Proof.
  intros Hrun Hino H1 H2. cbv zeta. rewrite <- !new_id_spec.
  pose proof (SetFilePermissionDataAndAcl_steps fileName setDefaultAcl m ino Hino) as K.
  cbv zeta in K. unfold holds in K. rewrite Hrun in K.
  exact (proj1 K H1 H2).
Qed.

(** C2. When [SetFilePermissionDataAndAcl] fails after a successful mode
    change, it returns the error kind of an ACL step (allocation, entry
    construction, validation or installation), and the file keeps the owner,
    the group and the mode that the ownership and mode steps gave it: nothing
    is rolled back. *)
Theorem no_rollback_after_mode_change fileName setDefaultAcl m e m' tr ino :
  SetFilePermissionDataAndAcl fileName setDefaultAcl m = (Some e, m', tr) ->
  fs (os m) !! fileName = Some ino ->
  e <> NATIVE_ERROR_SUCCESS ->
  mode_changed tr = true ->
  acl_stage e = true
  /\ fs (os m') !! fileName = Some (inode_after_write (dataContainer m) ino).
Proof.
  intros Hrun Hino Hne Hmode.
  pose proof (SetFilePermissionDataAndAcl_steps fileName setDefaultAcl m ino Hino) as K.
  cbv zeta in K. unfold holds in K. rewrite Hrun in K.
  exact (proj2 K e eq_refl Hne Hmode).
Qed.

(** [SetFilePermissionDataAndAcl] always returns. *)
Lemma SetFilePermissionDataAndAcl_terminates fileName setDefaultAcl m :
  (SetFilePermissionDataAndAcl fileName setDefaultAcl m).1.1 <> None.
Proof.
  unfold SetFilePermissionDataAndAcl.
  change ((?c m).1.1 <> None) with (holds c m (fun res _ _ => res <> None)).
  wp'; try discriminate.
  all: (eapply holds_mono; [apply build_entries_control|]; simpl_machine;
        intros [e0|] m1 t1 _; wp'; discriminate).
Qed.

(** ** The descriptor slot after a failed [open] *)







(** ** The theorems at the sample states *)

Lemma no_descriptor_0_test (tr : list event) :
  forallb (fun ev => match ev_call ev with
                     | c_open _ _ => negb (ev_ret ev =? 0)
                     | _ => true
                     end) tr = true ->
  ~ opens_descriptor_0 tr.
Proof.
  intros H (ev & path & flags & Hin & Hcall & Hret).
  rewrite forallb_forall in H. apply list_elem_of_In in Hin.
  specialize (H ev Hin). rewrite Hcall, Hret in H. discriminate H.
Qed.

(** Changing the owner of [/f] to 1001, with the allocation of the ACL
    failing: the file keeps its new owner and mode. *)
Lemma no_rollback_after_mode_change_witness :
  let m := sample_machine [None; None; None; None; Some ENOMEM]
             (sample_container 1001 100 3) minimal_entries in
  let r := SetFilePermissionDataAndAcl "/f" 0 m in
  r.1.1 = Some NATIVE_ERROR_INIT_ACL_FAILED
  /\ acl_stage NATIVE_ERROR_INIT_ACL_FAILED = true
  /\ fs (os r.1.2) !! "/f"%string = Some (inode_after_write (dataContainer m) sample_inode).
Proof.
  intros m r. split; [vm_compute; reflexivity|].
  refine (no_rollback_after_mode_change "/f" 0 m NATIVE_ERROR_INIT_ACL_FAILED
            r.1.2 r.2 sample_inode _ _ _ _).
  - vm_compute. reflexivity.
  - vm_compute. reflexivity.
  - discriminate.
  - vm_compute. reflexivity.
Defined.

Lemma ownership_and_mode_calls_witness :
  let m := sample_machine [] (sample_container 1001 100 3) minimal_entries in
  let r := SetFilePermissionDataAndAcl "/f" 0 m in
  exists fd,
    List.filter is_fchown (calls r.2) = [c_fchown fd 1001 UNCHANGED]
    /\ (r.1.1 <> Some NATIVE_ERROR_CHOWN_FAILED ->
        List.filter is_fchmod (calls r.2) = [c_fchmod fd 0x1a0]).
Proof.
  intros m r.
  refine (ownership_and_mode_calls "/f" 0 m r.1.1 r.1.2 r.2 sample_inode _ _ _ _).
  - vm_compute. reflexivity.
  - vm_compute. reflexivity.
  - vm_compute. discriminate.
  - vm_compute. discriminate.
Defined.

(** The requested owner -1 differs from the owner 1000 of [/f], and no
    [fchown] is issued. *)
Lemma sentinel_owner_issues_no_fchown :
  let m := sample_machine [] (sample_container (-1) 100 3) minimal_entries in
  let r := SetFilePermissionDataAndAcl "/f" 0 m in
  r.1.1 = Some NATIVE_ERROR_SUCCESS
  /\ fs (os m) !! "/f"%string = Some sample_inode
  /\ ~ (to_uint32 (ownerId (dataContainer m)) <> i_uid sample_inode
        \/ to_uint32 (groupId (dataContainer m)) <> i_gid sample_inode
        -> List.filter is_fchown (calls r.2) <> []).
Proof.
  cbv zeta. split; [vm_compute; reflexivity|]. split; [vm_compute; reflexivity|].
  intros H. apply H; [left; vm_compute; discriminate | vm_compute; reflexivity].
Defined.

Lemma run_result {A : Type} (c : M A) (m : machine) (a : A) :
  (c m).1.1 = a -> c m = (a, (c m).1.2, (c m).2).
Proof. destruct (c m) as [[a' m'] t]. simpl. intros ->. reflexivity. Qed.

(** Loading the default ACL of the directory [/d], whose mode is 03775:
    the owner has read, write, execute and the sticky bit, the group read,
    write, execute and SetId, others read and execute; the default ACL has
    five entries. *)
Lemma OpenFileAndReadPermissionData_success_witness :
  let m := sample_machine [] (sample_container 0 0 0) (fun _ => blank_entry) in
  let m' := (OpenFileAndReadPermissionData 8 "/d" 1 m).1.2 in
  dataContainer m'
  = {| ownerId := 0; ownerPermissions := 23; groupId := 50; groupPermissions := 15;
       otherPermissions := 5; aclSize := 5 |}
  /\ (owner_set (i_mode sample_directory), group_set (i_mode sample_directory),
      other_set (i_mode sample_directory)) = (23, 15, 5)
  /\ fdt (os m') !! _fd m' = Some "/d"%string
  /\ (exists cur, acl_of (os m') (_acl m') = Some (i_default sample_directory, cur)).
Proof.
  intros m m'.
  destruct (OpenFileAndReadPermissionData_success 8 "/d" 1 m m'
              (OpenFileAndReadPermissionData 8 "/d" 1 m).2 sample_directory)
    as (H1 & H2 & H3 & H4 & H5 & H6 & H7 & H8 & _).
  - apply (run_result (OpenFileAndReadPermissionData 8 "/d" 1) m). vm_compute. reflexivity.
  - vm_compute. reflexivity.
  - repeat apply conj; [| |exact H7|exact H8].
    + vm_compute. reflexivity.
    + reflexivity.
Defined.

(** The second phase of a read of [/f], with a permission query on the
    second entry failing: the descriptor and the ACL are released. *)
Lemma resources_released_once_witness :
  let m := opened "/f" [None; None; None; None; None; None; None; None; None; None;
                        Some EINVAL] (fun _ => blank_entry) in
  let r := run 8 OpRead m in
  r.1.1 = Some NATIVE_ERROR_GET_ACL_ENTRY_PERM_FAILED
  /\ track {[Fd 3; Obj 1]} r.2 = Some ∅.
Proof.
  intros m r. split; [vm_compute; reflexivity|].
  refine (resources_released_once 8 OpRead m NATIVE_ERROR_GET_ACL_ENTRY_PERM_FAILED
            r.1.2 r.2 _ _ _).
  - vm_compute. reflexivity.
  - repeat apply conj.
    + vm_compute. discriminate.
    + vm_compute. discriminate.
    + vm_compute. eexists. reflexivity.
    + vm_compute. eexists. reflexivity.
  - apply no_descriptor_0_test. vm_compute. reflexivity.
Defined.

(** A successful [OpenFileAndReadPermissionData] returns holding the
    descriptor and the ACL it acquired. *)
Lemma open_success_keeps_resources :
  let m := sample_machine [] (sample_container 0 0 0) (fun _ => blank_entry) in
  let r := run 8 (OpOpen "/f" 0) m in
  r.1.1 = Some NATIVE_ERROR_SUCCESS
  /\ track ∅ r.2 = Some {[Fd 3; Obj 1]}
  /\ track ∅ r.2 <> Some ∅.
Proof.
  intros m r. repeat apply conj.
  - vm_compute. reflexivity.
  - vm_compute. reflexivity.
  - vm_compute. discriminate.
Defined.


(** The same on a platform whose [strerror_r] is the GNU function: ENOENT
    is stored, and the description slot is as it was. *)
Lemma description_left_by_gnu_strerror_r :
  let m := set_os (sample_platform false [])
             (sample_machine [] (sample_container 0 0 0) (fun _ => blank_entry)) in
  let r := run 8 (OpOpen "/missing" 0) m in
  r.1.1 = Some NATIVE_ERROR_OPEN_FAILED
  /\ _lastErrnoValue r.1.2 = ENOENT
  /\ _lastErrnoString r.1.2 = EmptyString.
Proof. intros m r. repeat apply conj; vm_compute; reflexivity. Qed.


(** A successful open after a failure: the slot that held EACCES reads 0. *)
Lemma GetLastErrnoValue_after_success_witness :
  let m := set__lastErrnoValue EACCES
             (sample_machine [] (sample_container 0 0 0) (fun _ => blank_entry)) in
  let m' := (run 8 (OpOpen "/f" 0) m).1.2 in
  (GetLastErrnoValue ["x"; "y"]%char 2 m').2 = 0
  /\ c_string (GetLastErrnoValue ["x"; "y"]%char 2 m').1 = EmptyString.
Proof.
  intros m m'.
  destruct (GetLastErrnoValue_after_success 8 (OpOpen "/f" 0) m m'
              (run 8 (OpOpen "/f" 0) m).2 ["x"; "y"]%char 2) as (H1 & H2 & _).
  - vm_compute. reflexivity.
  - split; assumption.
Defined.




(** ** The tag type of an entry *)





(** ** Descriptor 0 *)

(** With descriptors 0 to 2 free, [open] returns 0.  The write runs to its
    end and the descriptor is still open when it returns:
    [cleanup_with_error_code] takes the 0 in [_fd] for "no descriptor". *)
Lemma descriptor_0_stays_open :
  let m := set_os (set_fdt ∅ (sample_world []))
             (sample_machine [] (sample_container 1000 100 3) minimal_entries) in
  let r := run 8 (OpSet "/f" 0) m in
  r.1.1 = Some NATIVE_ERROR_SUCCESS
  /\ opens_descriptor_0 r.2
  /\ track ∅ r.2 = Some {[Fd 0]}
  /\ fdt (os r.1.2) !! 0 = Some "/f"%string.
Proof.
  intros m r. repeat apply conj.
  - vm_compute. reflexivity.
  - exists {| ev_call := c_open "/f" O_RDONLY; ev_ret := 0; ev_errno := 0 |}, "/f"%string, O_RDONLY.
    repeat apply conj; [|reflexivity|reflexivity].
    vm_compute. apply list_elem_of_here.
  - vm_compute. reflexivity.
  - vm_compute. reflexivity.
Qed.

(** * Further properties *)

(** ** The permission codec on arbitrary values *)

Lemma land_land_mask (x mask b : Z) : b .& mask = b -> x .& mask .& b = x .& b.
Proof.
  intros H. rewrite <- Z.land_assoc, (Z.land_comm mask), H. reflexivity.
Qed.

Lemma encodeMode_masked (o g t : Z) :
  encodeMode o g t = encodeMode (o .& OWNER_BITS) (g .& GROUP_BITS) (t .& OTHER_BITS).
Proof.
  unfold encodeMode. rewrite !land_land_mask by reflexivity. reflexivity.
Qed.

Lemma land_ones_range (x n : Z) : 0 <= n -> 0 <= x .& Z.ones n < 2 ^ n.
Proof.
  intros Hn. rewrite Z.land_ones by assumption.
  apply Z.mod_pos_bound, Z.pow_pos_nonneg; lia.
Qed.

(** X1. Decoding an encoded triple gives the triple cut to the bits of each
    class: SetId for others, and Sticky for the group and for others, are
    dropped by [SetFilePermissionDataAndAcl] without an error, and so is any
    bit above [FILE_PERMISSION_STICKY]. *)
Theorem decode_encode_drops_foreign_bits (o g t : Z) :
  decodeMode (encodeMode o g t) = (o .& OWNER_BITS, g .& GROUP_BITS, t .& OTHER_BITS).
Proof.
  rewrite encodeMode_masked.
  pose proof (land_ones_range o 5 ltac:(lia)) as Ho.
  pose proof (land_ones_range g 4 ltac:(lia)) as Hg.
  pose proof (land_ones_range t 3 ltac:(lia)) as Ht.
  change (Z.ones 5) with OWNER_BITS in Ho.
  change (Z.ones 4) with GROUP_BITS in Hg.
  change (Z.ones 3) with OTHER_BITS in Ht.
  apply triple_eqb_eq.
  pose proof decode_encode_table as T.
  apply (forallb_seqZ _ _ _ (o .& OWNER_BITS)) in T; [|lia].
  apply (forallb_seqZ _ _ _ (g .& GROUP_BITS)) in T; [|lia].
  apply (forallb_seqZ _ _ _ (t .& OTHER_BITS)) in T; [|lia].
  exact T.
Qed.

(** X2. Encoding the triple decoded from any [st_mode] gives its twelve
    permission bits: the file type above them is not carried over, and no
    permission bit is lost. *)
Theorem encode_decode_keeps_permission_bits (mode : Z) :
  encodeMode (decodeOwner mode) (decodeGroup mode) (decodeOther mode) = mode .& ALLPERMS.
Proof.
  rewrite encode_decode_st_mode.
  pose proof (land_ones_range mode 12 ltac:(lia)) as Hm.
  change (Z.ones 12) with ALLPERMS in Hm.
  pose proof encode_decode_table as T.
  apply (forallb_seqZ _ _ _ (mode .& ALLPERMS)) in T; [|lia].
  apply Z.eqb_eq. exact T.
Qed.

Lemma cond_none_land (c : bool) (k mask : Z) :
  k .& mask = k ->
  (if c then k else FILE_PERMISSION_NONE) .& mask = (if c then k else FILE_PERMISSION_NONE).
Proof. destruct c; [auto | intros _; apply Z.land_0_l]. Qed.

(** X3. Whatever the mode, each decoded permission set holds only bits of its
    class; whatever the triple, the encoded mode holds only permission
    bits. *)
Theorem codec_stays_in_range :
  (forall mode : Z,
      restricted OWNER_BITS (decodeOwner mode)
      /\ restricted GROUP_BITS (decodeGroup mode)
      /\ restricted OTHER_BITS (decodeOther mode))
  /\ (forall o g t : Z, restricted ALLPERMS (encodeMode o g t)).
Proof.
  split.
  - intros mode. unfold restricted, decodeOwner, decodeGroup, decodeOther.
    rewrite !Z.land_lor_distr_l. rewrite !cond_none_land by reflexivity.
    repeat split; reflexivity.
  - intros o g t. apply encodeMode_permission_bits.
Qed.

(** ** The tag types *)

(** X4. The two tag switches are inverse to each other on the six tag types:
    what [SetFilePermissionDataAndAcl] makes of a [tagType] is read back by
    [ReadFileAclAndClose] as that [tagType], and conversely; the write
    switch rejects exactly the values outside 1 to 6. *)
Theorem tag_switches_inverse :
  (forall (t tag : Z) (e : native_acl_entry_t),
      switch_entry_tagType t = Some tag ->
      valid_tag tag = true /\ tagType (switch_tagType tag e) = t)
  /\ (forall (tag : Z) (e : native_acl_entry_t),
      valid_tag tag = true ->
      switch_entry_tagType (tagType (switch_tagType tag e)) = Some tag)
  /\ (forall t : Z, switch_entry_tagType t = None <-> known_tagType t = false).
Proof.
  repeat apply conj.
  - intros t tag e. unfold switch_entry_tagType.
    repeat case_match; intros [= <-]; split; try reflexivity.
    all: repeat match goal with
         | H : (_ =? _) = true |- _ => apply Z.eqb_eq in H
         end; subst; reflexivity.
  - intros tag e. unfold valid_tag. rewrite !orb_true_iff, !Z.eqb_eq.
    intros [[[[[-> | ->] | ->] | ->] | ->] | ->]; reflexivity.
  - intros t.
    unfold switch_entry_tagType, known_tagType, ACL_ENTRY_TAG_TYPE_USER_OBJ,
      ACL_ENTRY_TAG_TYPE_USER, ACL_ENTRY_TAG_TYPE_GROUP_OBJ, ACL_ENTRY_TAG_TYPE_GROUP,
      ACL_ENTRY_TAG_TYPE_MASK, ACL_ENTRY_TAG_TYPE_OTHER.
    repeat match goal with
           | |- context [t =? ?c] =>
               destruct (Z.eqb_spec t c) as [-> | ?];
               [split; [discriminate | vm_compute; discriminate] |]
           end.
    split; [intros _ | reflexivity].
    apply andb_false_iff. rewrite !Z.leb_gt. lia.
Qed.

Lemma tag_switches_inverse_witness :
  valid_tag ACL_GROUP = true
  /\ tagType (switch_tagType ACL_GROUP blank_entry) = ACL_ENTRY_TAG_TYPE_GROUP.
Proof.
  apply (proj1 tag_switches_inverse ACL_ENTRY_TAG_TYPE_GROUP ACL_GROUP blank_entry).
  reflexivity.
Defined.

(** ** What the operations leave alone *)

Lemma cleanup_events_reads_only m t : cleanup_events m t -> forallb reads_only t = true.
Proof.
  intros (r1 & e1 & r2 & e2 & ->).
  destruct (truthy (_acl m)), (truthy (_fd m)); reflexivity.
Qed.

Lemma failure_exit_reads_only m m' t : failure_exit m m' t -> forallb reads_only t = true.
Proof. intros (_ & _ & _ & _ & _ & _ & _ & H). eapply cleanup_events_reads_only, H. Qed.

Lemma cleanup_exit_reads_only m m' t : cleanup_exit m m' t -> forallb reads_only t = true.
Proof. intros (_ & _ & _ & _ & _ & _ & _ & H). eapply cleanup_events_reads_only, H. Qed.

Ltac solve_reads_only :=
  simpl; rewrite ?app_nil_r, ?forallb_app; simpl;
  repeat match goal with
  | H : forallb reads_only ?t = true |- context [forallb reads_only ?t] => rewrite H
  | H : failure_exit _ _ ?t |- context [forallb reads_only ?t] =>
      rewrite (failure_exit_reads_only _ _ _ H)
  | H : cleanup_exit _ _ ?t |- context [forallb reads_only ?t] =>
      rewrite (cleanup_exit_reads_only _ _ _ H)
  end;
  reflexivity.

Lemma count_entries_reads_only fuel st n m :
  holds (count_entries fuel st n) m (fun _ _ t => forallb reads_only t = true).
Proof.
  revert st n m. induction fuel as [|fuel IH]; intros st n m; simpl.
  - wp'. reflexivity.
  - wp'; [|reflexivity].
    eapply holds_mono; [apply IH|]. intros ? ? t H; cbv beta in H. solve_reads_only.
Qed.

Lemma read_entries_reads_only fuel st currEntry i m :
  holds (read_entries fuel st currEntry i) m (fun _ _ t => forallb reads_only t = true).
Proof.
  revert st currEntry i m. induction fuel as [|fuel IH]; intros st currEntry i m; simpl.
  - wp'. reflexivity.
  - wp'.
    all: lazymatch goal with
         | |- holds _ _ _ => eapply holds_mono; [apply IH|]; intros ? ? t H; cbv beta in H
         | |- _ => idtac
         end.
    all: solve_reads_only.
Qed.

Lemma build_entries_entries n i m :
  holds (build_entries n i) m (fun _ m' _ => entries m' = entries m).
Proof.
  revert i m. induction n as [|n IH]; intros i m; simpl.
  - wp'. reflexivity.
  - wp'.
    all: lazymatch goal with
         | |- holds _ _ _ => eapply holds_mono; [apply IH|]; simpl_machine; intros ? ? t H; cbv beta in H
         | |- _ => idtac
         end.
    all: try assumption.
    all: destruct Hexit as (_ & _ & _ & _ & _ & H & _); exact H.
Qed.

Lemma os_open_fs path flags w r w' : os_open path flags w = (r, w') -> fs w' = fs w.
Proof. intros E. apply os_open_spec in E. tauto. Qed.

Lemma os_fstat_fs fd w r w' : os_fstat fd w = (r, w') -> fs w' = fs w.
Proof. intros E. apply os_fstat_files in E. destruct E as [[E _] _]. exact E. Qed.

(** What the calls made so far have done to the files. *)
Ltac fs_facts :=
  repeat match goal with
  | E : os_open _ _ _ = _ |- _ => apply os_open_fs in E
  | E : os_fstat _ _ = _ |- _ => apply os_fstat_fs in E
  end;
  files_facts.

Ltac exit_facts :=
  repeat match goal with
  | H : failure_exit _ _ _ |- _ =>
      let H' := fresh "X" in
      pose proof (failure_exit_reads_only _ _ _ H) as H';
      destruct H as (? & ? & _ & _ & ? & ? & ? & _)
  | H : cleanup_exit _ _ _ |- _ =>
      let H' := fresh "X" in
      pose proof (cleanup_exit_reads_only _ _ _ H) as H';
      destruct H as (? & ? & _ & _ & ? & ? & ? & _)
  end;
  simpl_machine_all.

Lemma OpenFileAndReadPermissionData_summary fuel fileName loadDefaultAcl m :
  holds (OpenFileAndReadPermissionData fuel fileName loadDefaultAcl) m (fun res m' t =>
    forall e, res = Some e ->
      entries m' = entries m /\ fs (os m') = fs (os m) /\ forallb reads_only t = true
      /\ may_return (OpOpen fileName loadDefaultAcl) e = true
      /\ (leaves_session (OpOpen fileName loadDefaultAcl) e = false ->
          _fd m' = NULL /\ _acl m' = NULL)).
Proof.
  unfold OpenFileAndReadPermissionData. wp'.
  4: { eapply holds_mono;
         [apply holds_and; [apply count_entries_control | apply count_entries_reads_only]|].
       simpl_machine.
       intros [e0|[st' n']|] m1 t [H1 H2]; [tauto| |wp'; discriminate].
       destruct H1 as ((_ & _ & _ & _ & _ & Kfs & _) & Ke & _). wp'.
       all: intros e [= <-]; exit_facts; fs_facts.
       all: repeat apply conj; try congruence; try solve_reads_only.
       all: intros; try discriminate; auto. }
  all: intros e [= <-]; exit_facts; fs_facts.
  all: repeat apply conj; try congruence; try solve_reads_only.
  all: intros; try discriminate; auto.
Qed.

Lemma decoding_error_may_return e : decoding_error e = true -> may_return OpRead e = true.
Proof. destruct e; simpl; congruence. Qed.

Lemma acl_stage_may_return fileName setDefaultAcl e :
  acl_stage e = true -> may_return (OpSet fileName setDefaultAcl) e = true.
Proof. destruct e; simpl; congruence. Qed.

Lemma ReadFileAclAndClose_summary fuel m :
  holds (ReadFileAclAndClose fuel) m (fun res m' t =>
    forall e, res = Some e ->
      dataContainer m' = dataContainer m /\ fs (os m') = fs (os m)
      /\ forallb reads_only t = true
      /\ may_return OpRead e = true
      /\ _fd m' = NULL /\ _acl m' = NULL).
Proof.
  unfold ReadFileAclAndClose. wp'.
  eapply holds_mono;
    [apply holds_and; [apply read_entries_control | apply read_entries_reads_only]|].
  simpl_machine.
  intros [e0|st'|] m1 t [H1 H2]; [| |wp'; discriminate].
  - destruct H1 as (Hd & _ & Hfd & Hacl & Hdc & Hfs & _). wp'.
    intros e [= <-]. simpl_machine_all. fs_facts.
    repeat apply conj; try congruence; try solve_reads_only.
    apply decoding_error_may_return, Hd.
  - destruct H1 as ((_ & _ & _ & _ & Kdc & Kfs & _) & _). wp'.
    all: intros e [= <-]; exit_facts; fs_facts.
    all: repeat apply conj; try congruence; try solve_reads_only.
Qed.

Lemma SetFilePermissionDataAndAcl_summary fileName setDefaultAcl m :
  holds (SetFilePermissionDataAndAcl fileName setDefaultAcl) m (fun res m' t =>
    forall e, res = Some e ->
      dataContainer m' = dataContainer m /\ entries m' = entries m
      /\ may_return (OpSet fileName setDefaultAcl) e = true
      /\ (leaves_session (OpSet fileName setDefaultAcl) e = false ->
          _fd m' = NULL /\ _acl m' = NULL)).
Proof.
  unfold SetFilePermissionDataAndAcl. wp'.
  all: lazymatch goal with
       | |- holds _ _ _ =>
           eapply holds_mono;
             [apply holds_and; [apply build_entries_control | apply build_entries_entries]|];
           simpl_machine; intros [e0|] m1 t [H1 H2];
           [ destruct H1 as (Hs & _ & Hfd & Hacl & Hdc & _)
           | destruct H1 as ((_ & _ & _ & _ & Kdc & _) & _) ];
           wp'
       | |- _ => idtac
       end.
  all: intros e [= <-]; exit_facts.
  all: repeat apply conj; try congruence.
  all: try solve [intros; try discriminate; auto].
  all: try solve [eapply acl_stage_may_return; eassumption].
Qed.

(** X5. Each operation returns success or one of the error kinds of its own
    steps: the first phase of a read one of four, the second one of five,
    the write one of fourteen; no operation returns an error kind of a step
    it does not have. *)
Theorem returns_own_error_kinds fuel op m e m' tr :
  run fuel op m = (Some e, m', tr) -> may_return op e = true.
Proof.
  intros Hrun. destruct op as [fileName d | | fileName d]; simpl in Hrun.
  - pose proof (OpenFileAndReadPermissionData_summary fuel fileName d m) as K.
    unfold holds in K. rewrite Hrun in K. apply (K e eq_refl).
  - pose proof (ReadFileAclAndClose_summary fuel m) as K.
    unfold holds in K. rewrite Hrun in K. apply (K e eq_refl).
  - pose proof (SetFilePermissionDataAndAcl_summary fileName d m) as K.
    unfold holds in K. rewrite Hrun in K. apply (K e eq_refl).
Qed.

(** X6. Except after a successful first phase of a read and after a failed
    [open], an operation returns with both [_fd] and [_acl] reset to
    [NULL]: whatever it returns, the second phase of a read ends the
    session. *)
Theorem session_reset_on_return fuel op m e m' tr :
  run fuel op m = (Some e, m', tr) ->
  leaves_session op e = false ->
  _fd m' = NULL /\ _acl m' = NULL.
Proof.
  intros Hrun Hl. destruct op as [fileName d | | fileName d]; simpl in Hrun.
  - pose proof (OpenFileAndReadPermissionData_summary fuel fileName d m) as K.
    unfold holds in K. rewrite Hrun in K. apply (K e eq_refl), Hl.
  - pose proof (ReadFileAclAndClose_summary fuel m) as K.
    unfold holds in K. rewrite Hrun in K. apply (K e eq_refl).
  - pose proof (SetFilePermissionDataAndAcl_summary fileName d m) as K.
    unfold holds in K. rewrite Hrun in K. apply (K e eq_refl), Hl.
Qed.

(** X7. The operations write only to the output they are given: the first
    phase of a read leaves the caller's array alone, the second leaves the
    container alone, and the write changes neither the container nor the
    array, although it takes both through pointers to non-const. *)
Theorem caller_memory_kept fuel op m e m' tr :
  run fuel op m = (Some e, m', tr) ->
  match op with
  | OpOpen _ _ => entries m' = entries m
  | OpRead => dataContainer m' = dataContainer m
  | OpSet _ _ => dataContainer m' = dataContainer m /\ entries m' = entries m
  end.
Proof.
  intros Hrun. destruct op as [fileName d | | fileName d]; simpl in Hrun.
  - pose proof (OpenFileAndReadPermissionData_summary fuel fileName d m) as K.
    unfold holds in K. rewrite Hrun in K. apply (K e eq_refl).
  - pose proof (ReadFileAclAndClose_summary fuel m) as K.
    unfold holds in K. rewrite Hrun in K. apply (K e eq_refl).
  - pose proof (SetFilePermissionDataAndAcl_summary fileName d m) as K.
    unfold holds in K. rewrite Hrun in K.
    destruct (K e eq_refl) as (H1 & H2 & _). split; assumption.
Qed.

(** X8. The two phases of a read change no file: they call nothing but
    [open], [fstat], [close] and the querying and releasing functions of
    libacl, and the files are at return as they were. *)
Theorem reading_changes_no_file fuel op m e m' tr :
  run fuel op m = (Some e, m', tr) ->
  (forall fileName setDefaultAcl, op <> OpSet fileName setDefaultAcl) ->
  forallb reads_only tr = true /\ fs (os m') = fs (os m).
Proof.
  intros Hrun Hop. destruct op as [fileName d | | fileName d]; simpl in Hrun.
  - pose proof (OpenFileAndReadPermissionData_summary fuel fileName d m) as K.
    unfold holds in K. rewrite Hrun in K.
    destruct (K e eq_refl) as (_ & H1 & H2 & _). split; assumption.
  - pose proof (ReadFileAclAndClose_summary fuel m) as K.
    unfold holds in K. rewrite Hrun in K.
    destruct (K e eq_refl) as (_ & H1 & H2 & _). split; assumption.
  - destruct (Hop fileName d eq_refl).
Qed.

Lemma returns_own_error_kinds_witness :
  let m := sample_machine [None; Some EACCES] (sample_container 0 0 0)
             (fun _ => blank_entry) in
  (run 8 (OpOpen "/f" 0) m).1.1 = Some NATIVE_ERROR_FSTAT_FAILED
  /\ may_return (OpOpen "/f" 0) NATIVE_ERROR_FSTAT_FAILED = true.
Proof.
  intros m. split; [vm_compute; reflexivity|].
  refine (returns_own_error_kinds 8 (OpOpen "/f" 0) m NATIVE_ERROR_FSTAT_FAILED
            (run 8 (OpOpen "/f" 0) m).1.2 (run 8 (OpOpen "/f" 0) m).2 _).
  vm_compute. reflexivity.
Defined.

Lemma session_reset_on_return_witness :
  let m := opened "/f" [None; Some EINVAL] (fun _ => blank_entry) in
  let r := run 8 OpRead m in
  r.1.1 = Some NATIVE_ERROR_GET_ACL_ENTRY_TAG_TYPE_FAILED
  /\ _fd m = 3 /\ _acl m = 1
  /\ _fd r.1.2 = NULL /\ _acl r.1.2 = NULL.
Proof.
  intros m r. split; [vm_compute; reflexivity|].
  split; [vm_compute; reflexivity|]. split; [vm_compute; reflexivity|].
  refine (session_reset_on_return 8 OpRead m NATIVE_ERROR_GET_ACL_ENTRY_TAG_TYPE_FAILED
            r.1.2 r.2 _ _).
  - vm_compute. reflexivity.
  - reflexivity.
Defined.

Lemma caller_memory_kept_witness :
  let m := sample_machine [] (sample_container 1001 100 3) minimal_entries in
  let r := run 8 (OpSet "/f" 0) m in
  r.1.1 = Some NATIVE_ERROR_SUCCESS
  /\ dataContainer r.1.2 = sample_container 1001 100 3
  /\ entries r.1.2 = minimal_entries.
Proof.
  intros m r. split; [vm_compute; reflexivity|].
  refine (caller_memory_kept 8 (OpSet "/f" 0) m NATIVE_ERROR_SUCCESS r.1.2 r.2 _).
  vm_compute. reflexivity.
Defined.

Lemma reading_changes_no_file_witness :
  let m := opened "/d" [] (fun _ => blank_entry) in
  let r := run 8 OpRead m in
  forallb reads_only r.2 = true /\ fs (os r.1.2) = fs (os m).
Proof.
  intros m r.
  refine (reading_changes_no_file 8 OpRead m NATIVE_ERROR_SUCCESS r.1.2 r.2 _ _).
  - vm_compute. reflexivity.
  - discriminate.
Defined.

(** ** The array that the second phase of a read needs *)

Lemma read_entries_bound fuel st currEntry i m ents :
  decoding m ents st currEntry i ->
  holds (read_entries fuel st currEntry i) m (fun _ m' _ =>
    forall j, (length ents <= j)%nat -> entries m' j = entries m j).
Proof.
  revert st currEntry i m.
  induction fuel as [|fuel IH]; intros st currEntry i m (cur & Ha & Hin & Hend); simpl.
  - wp'. reflexivity.
  - wp'.
    all: try (destruct (Hin eq_refl) as (-> & -> & Hi);
              destruct (lookup_lt_is_Some_2 ents i Hi) as [x Hx]).
    all: entry_facts.
    all: try (intros j Hj; destruct Hexit as (_ & _ & _ & _ & _ & He & _);
              rewrite He; simpl_machine; rewrite ?update_at_other by lia; reflexivity).
    all: try reflexivity.
    all: match goal with
         | E : os_acl_get_entry _ ACL_NEXT_ENTRY ?w = _, Ha : acl_of ?w _ = Some _ |- _ =>
             pose proof (os_acl_get_entry_spec _ _ _ _ _ _ _ _ E Ha (or_intror eq_refl))
               as Hnext;
             simpl in Hnext
         end.
    all: (eapply holds_mono;
          [ apply (IH _ _ _ _); unfold decoding; simpl_machine;
            destruct Hnext as [(-> & Hp & -> & Ha') | [(-> & Hp & Ha') | (-> & Ha')]];
            eexists; (split; [exact Ha'|]); split;
            first [discriminate | intros _; repeat apply conj; auto; lia | lia]
          | ]).
    all: simpl_machine; intros ? m' t Hb j Hj; rewrite Hb by assumption.
    all: rewrite ?update_at_other by lia; reflexivity.
Qed.

Lemma ReadFileAclAndClose_bound fuel m ents cur :
  acl_of (os m) (_acl m) = Some (ents, cur) ->
  holds (ReadFileAclAndClose fuel) m (fun _ m' _ =>
    forall j, (length ents <= j)%nat -> entries m' j = entries m j).
Proof.
  intros Ha. unfold ReadFileAclAndClose. wp'.
  pose proof (os_acl_get_entry_spec _ _ _ _ _ _ _ _ E Ha (or_introl eq_refl)) as Hfirst.
  simpl in Hfirst.
  eapply holds_mono.
  { apply (read_entries_bound _ _ _ _ _ ents). unfold decoding. simpl_machine.
    destruct Hfirst as [(-> & Hp & -> & Ha') | [(-> & Hp & Ha') | (-> & Ha')]];
      eexists; (split; [exact Ha'|]); split;
      first [discriminate | intros _; repeat apply conj; auto; lia | lia]. }
  simpl_machine. intros [e|st'|] m1 t Hb; wp'.
  all: try exact Hb.
  all: intros j Hj; destruct Hexit as (_ & _ & _ & _ & _ & He & _); rewrite He;
       apply Hb, Hj.
Qed.

Lemma run_tuple {A : Type} (c : M A) (m : machine) :
  c m = ((c m).1.1, (c m).1.2, (c m).2).
Proof. destruct (c m) as [[a m'] t]. reflexivity. Qed.

Lemma to_int32_small (z : Z) : 0 <= z < 2 ^ 31 -> to_int32 z = z.
Proof.
  intros H. unfold to_int32. rewrite Z.mod_small by lia. lia.
Qed.

(** X9. The second phase of a read writes only to the elements that the first
    phase has counted: with an ACL of fewer than 2^31 entries, whatever
    array the caller passes and whatever the second phase returns, every
    element at an index from [aclSize] on is as the caller left it. *)
Theorem read_stays_within_aclSize
    fuel1 fuel2 fileName loadDefaultAcl m m1 tr1 ino arr res m2 tr2 :
  OpenFileAndReadPermissionData fuel1 fileName loadDefaultAcl m
    = (Some NATIVE_ERROR_SUCCESS, m1, tr1) ->
  fs (os m) !! fileName = Some ino ->
  Z.of_nat (length (if 0 <? loadDefaultAcl then i_default ino else i_access ino)) < 2 ^ 31 ->
  ReadFileAclAndClose fuel2 (set_entries arr m1) = (res, m2, tr2) ->
  forall j, aclSize (dataContainer m1) <= Z.of_nat j -> entries m2 j = arr j.
Proof.
  intros Hopen Hino Hlen Hread j Hj.
  destruct (proj2 (holds_elim _ _ _ _ _ _
           (OpenFileAndReadPermissionData_success_holds fuel1 fileName loadDefaultAcl m ino Hino)
           Hopen) eq_refl) as (_ & _ & _ & Hsize & _ & (cur & Ha) & _).
  rewrite Hsize, to_int32_small in Hj by lia.
  pose proof (ReadFileAclAndClose_bound fuel2 (set_entries arr m1) _ cur Ha) as K.
  unfold holds in K. rewrite Hread in K. simpl in K. apply K. lia.
Qed.

Lemma read_stays_within_aclSize_witness :
  let m := sample_machine [] (sample_container 0 0 0) (fun _ => blank_entry) in
  let o := OpenFileAndReadPermissionData 8 "/f" 0 m in
  let r := ReadFileAclAndClose 8 (set_entries minimal_entries o.1.2) in
  aclSize (dataContainer o.1.2) = 5
  /\ forall j, 5 <= Z.of_nat j -> entries r.1.2 j = minimal_entries j.
Proof.
  intros m o r. split; [vm_compute; reflexivity|].
  assert (Hsize : aclSize (dataContainer o.1.2) = 5) by (vm_compute; reflexivity).
  intros j Hj. rewrite <- Hsize in Hj. revert j Hj.
  refine (read_stays_within_aclSize 8 8 "/f" 0 m o.1.2 o.2 sample_inode minimal_entries
            r.1.1 r.1.2 r.2 _ _ _ _).
  - apply (run_result (OpenFileAndReadPermissionData 8 "/f" 0) m). vm_compute. reflexivity.
  - vm_compute. reflexivity.
  - vm_compute. reflexivity.
  - exact (run_tuple (ReadFileAclAndClose 8) _).
Defined.

(** ** The second phase of a read without a session *)



(** ** A write that fails before the ACL is built *)

Lemma os_fchown_failed_fs fd owner group w r w' :
  os_fchown fd owner group w = (r, w') -> (r <? 0) = true -> fs w' = fs w.
Proof. intros E. os_inv E; intros; try discriminate; reflexivity. Qed.

Lemma os_fchmod_failed_fs fd mode w r w' :
  os_fchmod fd mode w = (r, w') -> (r <? 0) = true -> fs w' = fs w.
Proof. intros E. os_inv E; intros; try discriminate; reflexivity. Qed.

Lemma SetFilePermissionDataAndAcl_early fileName setDefaultAcl m :
  holds (SetFilePermissionDataAndAcl fileName setDefaultAcl) m (fun res m' t =>
    forall e, res = Some e ->
      (before_mode_change e = true -> fs (os m') = fs (os m))
      /\ (e = NATIVE_ERROR_CHMOD_FAILED ->
          forall ino, fs (os m) !! fileName = Some ino ->
          exists ino', fs (os m') !! fileName = Some ino'
            /\ i_uid ino' = chown_id (i_uid ino) (to_uint32 (ownerId (dataContainer m)))
            /\ i_gid ino' = chown_id (i_gid ino) (to_uint32 (groupId (dataContainer m))))).
Proof.
  unfold SetFilePermissionDataAndAcl. wp'.
  all: lazymatch goal with
       | |- holds _ _ _ =>
           eapply holds_mono; [apply build_entries_control|];
           simpl_machine; intros [e0|] m1 t1;
           [ intros [Hstage _] | intros _ ];
           wp'
       | |- _ => idtac
       end.
  all: intros e [= <-].
  all: try solve [split; [discriminate | discriminate]].
  all: try solve [split; [intros Hb; destruct e0; discriminate
                         | intros ->; discriminate]].
  (* open failed *)
  { split; [|discriminate]. intros _. simpl_machine. eapply os_open_fs, E. }
  all: pose proof (os_open_spec _ _ _ _ _ E) as (Hfs & _ & Ho); rewrite C in Ho;
       destruct Ho as (Hr & _ & Hfdt);
       assert (Hfd : fdt w !! r = Some fileName) by (rewrite Hfdt; apply lookup_insert_eq).
  all: pose proof (os_fstat_fs _ _ _ _ E0) as Hfs0.
  all: destruct Hexit as (_ & _ & _ & _ & _ & _ & Hfs' & _); simpl_machine_in Hfs'.
  (* fstat failed *)
  { split; [|discriminate]. intros _. congruence. }
  (* fchown failed *)
  { split; [|discriminate]. intros _.
    rewrite Hfs', (os_fchown_failed_fs _ _ _ _ _ _ E1 C2). congruence. }
  (* fchmod failed after fchown *)
  { split; [discriminate|]. intros _ ino Hino.
    destruct (os_fstat_spec _ _ _ _ _ _ E0 C0 Hfd) as (ino0 & Hino0 & ->).
    rewrite Hfs, Hino in Hino0. injection Hino0 as <-.
    pose proof (os_fstat_files _ _ _ _ E0) as ((_ & Hfdt0) & _).
    assert (Hfd0 : fdt w0 !! r = Some fileName) by congruence.
    destruct (os_fchown_spec _ _ _ _ _ _ _ E1 C2 Hfd0) as (_ & _ & ino1 & Hino1 & Hfs1).
    rewrite Hfs0, Hfs, Hino in Hino1. injection Hino1 as <-.
    rewrite Hfs', (os_fchmod_failed_fs _ _ _ _ _ E2 C3), Hfs1, lookup_insert_eq.
    eexists. split; [reflexivity|]. cbn [i_uid i_gid st_uid st_gid].
    rewrite !chown_id_new_id. split; reflexivity. }
  (* fchmod failed, no fchown *)
  { split; [discriminate|]. intros _ ino Hino.
    destruct (os_fstat_spec _ _ _ _ _ _ E0 C0 Hfd) as (ino0 & Hino0 & ->).
    rewrite Hfs, Hino in Hino0. injection Hino0 as <-.
    cbn [st_uid st_gid] in C1.
    rewrite ownership_test in C1. apply negb_false_iff, andb_true_iff in C1 as [H1 H2].
    rewrite Hfs', (os_fchmod_failed_fs _ _ _ _ _ E1 C2), Hfs0, Hfs, Hino.
    exists ino. rewrite !chown_id_unchanged by assumption. auto. }
Qed.

(** X11. A write that fails at [open], at [fstat] or at [fchown] has changed no
    file.  A write whose [fchmod] fails leaves the file with the owner and
    the group it was asked to give it: the ownership step is not undone. *)
Theorem write_failure_before_acl fileName setDefaultAcl m e m' tr :
  SetFilePermissionDataAndAcl fileName setDefaultAcl m = (Some e, m', tr) ->
  (e = NATIVE_ERROR_OPEN_FAILED \/ e = NATIVE_ERROR_FSTAT_FAILED
   \/ e = NATIVE_ERROR_CHOWN_FAILED -> fs (os m') = fs (os m))
  /\ (e = NATIVE_ERROR_CHMOD_FAILED ->
      forall ino, fs (os m) !! fileName = Some ino ->
      exists ino', fs (os m') !! fileName = Some ino'
        /\ i_uid ino' = chown_id (i_uid ino) (to_uint32 (ownerId (dataContainer m)))
        /\ i_gid ino' = chown_id (i_gid ino) (to_uint32 (groupId (dataContainer m)))).
Proof.
  intros Hrun.
  pose proof (SetFilePermissionDataAndAcl_early fileName setDefaultAcl m) as K.
  unfold holds in K. rewrite Hrun in K. destruct (K e eq_refl) as [H1 H2].
  split; [|exact H2].
  intros [-> | [-> | ->]]; apply H1; reflexivity.
Qed.

(** The owner of [/f] is changed to 1001 and the mode change is refused. *)
Lemma write_failure_before_acl_witness :
  let m := sample_machine [None; None; None; Some EPERM] (sample_container 1001 100 3)
             minimal_entries in
  let r := SetFilePermissionDataAndAcl "/f" 0 m in
  r.1.1 = Some NATIVE_ERROR_CHMOD_FAILED
  /\ exists ino', fs (os r.1.2) !! "/f"%string = Some ino'
       /\ i_uid ino' = 1001 /\ i_gid ino' = 100.
Proof.
  intros m r. split; [vm_compute; reflexivity|].
  refine (proj2 (write_failure_before_acl "/f" 0 m NATIVE_ERROR_CHMOD_FAILED r.1.2 r.2 _)
            eq_refl sample_inode _).
  - vm_compute. reflexivity.
  - vm_compute. reflexivity.
Defined.
